(** * procedural-simulation: articulated bodies and boid flocking

    A shallow embedding of the simulation core of
    [public/scipts/simulation/utils.js], [animals.js] and
    [simulation.js], and the properties of it that the specification
    states.

    Numbers.  A JavaScript number is modelled by a real number:
    rounding and signed zeros are not modelled, and the inputs are
    finite.  Where a function can leave the finite numbers on finite
    inputs and a property depends on it (the divisions of
    [getIntercectionPoint] and of [getTotalCurvature]) its result is a
    [JsNumber.number]: a real, an infinity or NaN, with the arithmetic
    of IEEE 754 on them.

    Objects.  A class becomes a module with a record [t]; a method
    that mutates [this] becomes a function that returns the new
    record, and a loop over an array becomes a recursion over the list
    of its elements.  The static and the mutating form of a
    [Vector2D] combinator are one function here.  Drawing is left
    out.

    Strings.  A string is a [String.string] of ASCII characters, which
    is what the colour codes of [utils.js] are made of. *)

From Stdlib Require Import Reals Lra Lia List Bool Arith.
From Stdlib Require Import ZArith.
From Stdlib Require String Ascii.
Import ListNotations.
Import Ascii.AsciiSyntax String.StringSyntax.
Delimit Scope char_scope with char.
Delimit Scope string_scope with string.

Open Scope R_scope.

(* ================================================================= *)
(** ** JavaScript numbers that may leave the reals *)

Module JsNumber.

Inductive number : Type :=
| Num (r : R)
| PInf
| NInf
| NaN.

Definition opp (a : number) : number :=
  match a with
  | Num r => Num (- r)
  | PInf => NInf
  | NInf => PInf
  | NaN => NaN
  end.

Definition add (a b : number) : number :=
  match a, b with
  | NaN, _ | _, NaN => NaN
  | Num r, Num s => Num (r + s)
  | PInf, NInf | NInf, PInf => NaN
  | PInf, _ | _, PInf => PInf
  | NInf, _ | _, NInf => NInf
  end.

Definition sub (a b : number) : number := add a (opp b).

(** The infinity [i] with the sign of [r] applied; [i * 0] is NaN. *)
Definition signed (i : number) (r : R) : number :=
  if Req_dec_T r 0 then NaN
  else if Rlt_dec 0 r then i else opp i.

Definition mul (a b : number) : number :=
  match a, b with
  | NaN, _ | _, NaN => NaN
  | Num r, Num s => Num (r * s)
  | Num r, i => signed i r
  | i, Num s => signed i s
  | PInf, PInf | NInf, NInf => PInf
  | PInf, NInf | NInf, PInf => NInf
  end.

(** A zero divisor is the positive zero: [0/0] is NaN, [r/0] is the
    infinity of the sign of [r]. *)
Definition div (a b : number) : number :=
  match a, b with
  | NaN, _ | _, NaN => NaN
  | Num r, Num s =>
      if Req_dec_T s 0 then
        if Req_dec_T r 0 then NaN
        else if Rlt_dec 0 r then PInf else NInf
      else Num (r / s)
  | Num _, _ => Num 0
  | i, Num s => if Rlt_dec s 0 then opp i else i
  | _, _ => NaN
  end.

Definition sqrt (a : number) : number :=
  match a with
  | Num r => if Rlt_dec r 0 then NaN else Num (R_sqrt.sqrt r)
  | PInf => PInf
  | NInf | NaN => NaN
  end.

Definition max (a b : number) : number :=
  match a, b with
  | NaN, _ | _, NaN => NaN
  | PInf, _ | _, PInf => PInf
  | NInf, c | c, NInf => c
  | Num r, Num s => Num (Rmax r s)
  end.

Definition min (a b : number) : number :=
  match a, b with
  | NaN, _ | _, NaN => NaN
  | NInf, _ | _, NInf => NInf
  | PInf, c | c, PInf => c
  | Num r, Num s => Num (Rmin r s)
  end.

End JsNumber.

Abbreviation number := JsNumber.number.
Abbreviation Num := JsNumber.Num.
Abbreviation PInf := JsNumber.PInf.
Abbreviation NInf := JsNumber.NInf.
Abbreviation NaN := JsNumber.NaN.

Declare Scope js_scope.
Delimit Scope js_scope with js.
Notation "a + b" := (JsNumber.add a b) : js_scope.
Notation "a - b" := (JsNumber.sub a b) : js_scope.
Notation "a * b" := (JsNumber.mul a b) : js_scope.
Notation "a / b" := (JsNumber.div a b) : js_scope.

(* ================================================================= *)
(** ** [Math] *)

Module Math.

(** [Math.atan2(y, x)]: the angle of the point [(x, y)], in
    [(-PI, PI]], and [0] at the origin. *)
Definition atan2 (y x : R) : R :=
  if Rlt_dec 0 x then atan (y / x)
  else if Rlt_dec x 0 then
    if Rle_dec 0 y then atan (y / x) + PI else atan (y / x) - PI
  else if Rlt_dec 0 y then PI / 2
  else if Rlt_dec y 0 then - (PI / 2)
  else 0.

(** [Math.floor] *)
Definition floor (r : R) : Z := Zfloor r.

End Math.

(* ================================================================= *)
(** ** utils.js: [Vector2D] *)

Module Vector2D.

Record t : Type := mk { x : R; y : R }.

Definition Zero : t := mk 0 0.

Definition fromPolar (angle magnitude : R) : t :=
  mk (magnitude * cos angle) (magnitude * sin angle).

Definition fromObject (object : t) : t := mk (x object) (y object).

Definition fromVec2D (vec : t) : t := mk (x vec) (y vec).

Definition add (vec1 vec2 : t) : t :=
  mk (x vec1 + x vec2) (y vec1 + y vec2).

Definition sub (vec1 vec2 : t) : t :=
  mk (x vec1 - x vec2) (y vec1 - y vec2).

Definition scale (vec1 : t) (number : R) : t :=
  mk (x vec1 * number) (y vec1 * number).

(** [div]: the callers in [Boid] divide by a neighbour count or by a
    distance that the perception test has made positive. *)
Definition div (vec1 : t) (number : R) : t :=
  mk (x vec1 / number) (y vec1 / number).

Definition addPolar (vec : t) (radius angle : R) : t :=
  mk (x vec + radius * cos angle) (y vec + radius * sin angle).

(** [get magnitude] *)
Definition magnitude (v : t) : R := sqrt (x v * x v + y v * y v).

(** [set magnitude]: a zero vector stays zero, whatever is asked. *)
Definition setMagnitude (v : t) (magnitude : R) : t :=
  let curMag := sqrt (x v * x v + y v * y v) in
  if Req_dec_T curMag 0 then mk 0 0
  else mk (x v / curMag * magnitude) (y v / curMag * magnitude).

(** [get angle] *)
Definition angle (v : t) : R := Math.atan2 (y v) (x v).

(** [clampMag(min, max)]; with one argument the bounds are
    [-min] and [min]. *)
Definition clampMag (v : t) (min : R) (max : option R) : t :=
  let '(min, max) :=
    match max with
    | None => (- min, min)
    | Some max => (min, max)
    end in
  let angle := angle v in
  let magnitude := magnitude v in
  let clampedMagnitude := Rmax min (Rmin max magnitude) in
  mk (clampedMagnitude * cos angle) (clampedMagnitude * sin angle).

Definition unit (v : t) : t :=
  let magnitude := magnitude v in
  if Req_dec_T magnitude 0 then mk 0 0
  else mk (x v / magnitude) (y v / magnitude).

Definition distance (v vec : t) : R :=
  sqrt ((x v - x vec) * (x v - x vec) + (y v - y vec) * (y v - y vec)).

(** [set angle] *)
Definition setAngle (v : t) (angle : R) : t :=
  let magnitude := magnitude v in
  mk (magnitude * cos angle) (magnitude * sin angle).

Definition distanceSquared (v vec : t) : R :=
  (x v - x vec) * (x v - x vec) + (y v - y vec) * (y v - y vec).

Definition dot (v vec : t) : R := x v * x vec + y v * y vec.

Definition rotate (v : t) (angle : R) : t :=
  let cos := cos angle in
  let sin := sin angle in
  mk (x v * cos - y v * sin) (x v * sin + y v * cos).

End Vector2D.

(* ================================================================= *)
(** ** utils.js: [getIntercectionPoint] *)

Module Utils.
(** A point whose coordinates may be NaN or infinite. *)
Record JsPoint : Type := mkPoint { px : number; py : number }.

Definition ofVector (v : Vector2D.t) : JsPoint :=
  mkPoint (Num (Vector2D.x v)) (Num (Vector2D.y v)).

(** [getIntercectionPoint(p1, p2, r1, r2)], in real arithmetic.
    Where the two circles touch, or nearly do, binary64 can round
    [r1 * r1 - a * a] below zero, and the source then returns NaN
    coordinates where this definition has real ones: no property is
    stated of the points returned for circles whose centres differ. *)
Definition getIntercectionPoint (p1 p2 : Vector2D.t) (r1 r2 : R)
  : list JsPoint :=
  let x1 := Vector2D.x p1 in
  let y1 := Vector2D.y p1 in
  let x2 := Vector2D.x p2 in
  let y2 := Vector2D.y p2 in
  let d := sqrt ((x2 - x1) * (x2 - x1) + (y2 - y1) * (y2 - y1)) in
  if Rgt_dec d (r1 + r2) then []
  else if Rlt_dec d (Rabs (r1 - r2)) then []
  else
    let a := (Num (r1 * r1 - r2 * r2 + d * d) / Num (2 * d))%js in
    let x3 := (Num x1 + (a * Num (x2 - x1)) / Num d)%js in
    let y3 := (Num y1 + (a * Num (y2 - y1)) / Num d)%js in
    let h := JsNumber.sqrt (Num (r1 * r1) - a * a)%js in
    let x4_1 := (x3 + (h * Num (y2 - y1)) / Num d)%js in
    let y4_1 := (y3 - (h * Num (x2 - x1)) / Num d)%js in
    let x4_2 := (x3 - (h * Num (y2 - y1)) / Num d)%js in
    let y4_2 := (y3 + (h * Num (x2 - x1)) / Num d)%js in
    [mkPoint x4_1 y4_1; mkPoint x4_2 y4_2].

End Utils.

(* ================================================================= *)
(** ** utils.js: colours *)

Module Colour.

(** [hsvToRgb(h, s, v)].  [i % 6] is the remainder of the truncated
    division; when no [case] matches it, [r], [g] and [b] stay
    [undefined] and the three products are NaN. *)
Definition hsvToRgb (h s v : R) : list number :=
  let i := Math.floor (h * 6) in
  let f := h * 6 - IZR i in
  let p := v * (1 - s) in
  let q := v * (1 - f * s) in
  let t := v * (1 - (1 - f) * s) in
  let rgb :=
    match Z.rem i 6 with
    | 0%Z => Some (v, t, p)
    | 1%Z => Some (q, v, p)
    | 2%Z => Some (p, v, t)
    | 3%Z => Some (p, q, v)
    | 4%Z => Some (t, p, v)
    | 5%Z => Some (v, p, q)
    | _ => None
    end in
  match rgb with
  | Some (r, g, b) => [Num (r * 255); Num (g * 255); Num (b * 255)]
  | None => [NaN; NaN; NaN]
  end.

(** [rgb2hsv(r, g, b)]: [c && ...] is [c] when [c] is zero, and
    [v && c / v] is [v] when [v] is zero. *)
Definition rgb2hsv (r g b : R) : list R :=
  let v := Rmax (Rmax r g) b in
  let c := v - Rmin (Rmin r g) b in
  let h :=
    if Req_dec_T c 0 then c
    else if Req_dec_T v r then (g - b) / c
    else if Req_dec_T v g then 2 + (b - r) / c
    else 4 + (r - g) / c in
  [60 * (if Rlt_dec h 0 then h + 6 else h) / 360;
   if Req_dec_T v 0 then v else c / v;
   v].

(** A component of a colour: an integer, as [Math.floor] and
    [parseInt] produce it, or NaN ([None]). *)
Definition component : Type := option Z.

(** The digit [d] in radix 16, as [Number.prototype.toString] writes
    it. *)
Definition hexDigit (d : Z) : Ascii.ascii :=
  match d with
  | 0%Z => "0" | 1%Z => "1" | 2%Z => "2" | 3%Z => "3"
  | 4%Z => "4" | 5%Z => "5" | 6%Z => "6" | 7%Z => "7"
  | 8%Z => "8" | 9%Z => "9" | 10%Z => "a" | 11%Z => "b"
  | 12%Z => "c" | 13%Z => "d" | 14%Z => "e" | _ => "f"
  end%char.

(** The digits of [n], which is not negative, in front of [acc]; an
    integer [n] has no more than [n + 1] digits. *)
Fixpoint digits16 (fuel : nat) (n : Z) (acc : String.string) : String.string :=
  match fuel with
  | O => acc
  | S fuel' =>
      let acc' := String.String (hexDigit (n mod 16)) acc in
      if (n / 16 =? 0)%Z then acc' else digits16 fuel' (n / 16) acc'
  end.

(** [n.toString(16)] *)
Definition toString16 (n : component) : String.string :=
  match n with
  | None => "NaN"%string
  | Some n =>
      if (n <? 0)%Z
      then String.String "-"%char (digits16 (S (Z.to_nat (- n))) (- n) ""%string)
      else digits16 (S (Z.to_nat n)) n ""%string
  end.

(** [padStart(2, "0")] *)
Definition padStart2 (s : String.string) : String.string :=
  match String.length s with
  | 0%nat => "00"%string
  | 1%nat => String.String "0"%char s
  | _ => s
  end.

(** [Math.max(0, Math.min(255, c))] *)
Definition clampByte (c : component) : component :=
  option_map (fun n => Z.max 0 (Z.min 255 n)) c.

(** [rgb[i]]; past the end of the array it is [undefined], which
    [Math.min] turns into NaN. *)
Definition at_ (rgb : list component) (i : nat) : component :=
  match nth_error rgb i with
  | Some c => c
  | None => None
  end.

Definition rgbToHex (rgb : list component) : String.string :=
  let r := clampByte (at_ rgb 0) in
  let g := clampByte (at_ rgb 1) in
  let b := clampByte (at_ rgb 2) in
  let rHex := padStart2 (toString16 r) in
  let gHex := padStart2 (toString16 g) in
  let bHex := padStart2 (toString16 b) in
  String.String "#"%char (String.append rHex (String.append gHex bHex)).

(** [hex.replace("#", "")]: the first ["#"] is taken out. *)
Fixpoint replaceHash (s : String.string) : String.string :=
  match s with
  | String.EmptyString => String.EmptyString
  | String.String c rest =>
      if Ascii.eqb c "#"%char then rest
      else String.String c (replaceHash rest)
  end.

(** The white space [parseInt] skips: TAB, LF, VT, FF, CR and space. *)
Definition isWhiteSpace (c : Ascii.ascii) : bool :=
  let n := Ascii.nat_of_ascii c in
  ((9 <=? n) && (n <=? 13) || (n =? 32))%nat.

Fixpoint trimStart (s : String.string) : String.string :=
  match s with
  | String.EmptyString => s
  | String.String c rest => if isWhiteSpace c then trimStart rest else s
  end.

(** The value of a digit of radix 16, in either case. *)
Definition digitValue16 (c : Ascii.ascii) : option Z :=
  let n := Z.of_nat (Ascii.nat_of_ascii c) in
  if ((48 <=? n) && (n <=? 57))%Z then Some (n - 48)%Z
  else if ((97 <=? n) && (n <=? 102))%Z then Some (n - 87)%Z
  else if ((65 <=? n) && (n <=? 70))%Z then Some (n - 55)%Z
  else None.

(** The number the leading digits of [s] write, [acc] being the
    number of the digits already read; NaN without a digit. *)
Fixpoint parseDigits16 (s : String.string) (acc : component) : component :=
  match s with
  | String.EmptyString => acc
  | String.String c rest =>
      match digitValue16 c with
      | Some d =>
          parseDigits16 rest
            (Some (16 * match acc with Some a => a | None => 0 end + d)%Z)
      | None => acc
      end
  end.

(** [parseInt(s, 16)]: white space, a sign and [0x] may come before
    the digits, and what follows them is ignored. *)
Definition parseInt16 (s : String.string) : component :=
  let s := trimStart s in
  let '(sign, s) :=
    match s with
    | String.String c rest =>
        if Ascii.eqb c "-"%char then ((-1)%Z, rest)
        else if Ascii.eqb c "+"%char then (1%Z, rest)
        else (1%Z, s)
    | String.EmptyString => (1%Z, s)
    end in
  let s :=
    match s with
    | String.String c0 (String.String c1 rest) =>
        if (Ascii.eqb c0 "0"%char
            && (Ascii.eqb c1 "x"%char || Ascii.eqb c1 "X"%char))%bool
        then rest else s
    | _ => s
    end in
  option_map (Z.mul sign) (parseDigits16 s None).

Definition hexToRgbArray (hex : String.string) : list component :=
  let hex := replaceHash hex in
  let r := parseInt16 (String.substring 0 2 hex) in
  let g := parseInt16 (String.substring 2 2 hex) in
  let b := parseInt16 (String.substring 4 2 hex) in
  [r; g; b].

End Colour.

(* ================================================================= *)
(** ** animals.js: [ChainLink] *)

Module ChainLink.

Record t : Type := mk {
  radius : R;
  pos : Vector2D.t;
  directionAngle : R
}.

Definition new (radius : R) (pos : Vector2D.t) : t :=
  mk radius (Vector2D.fromObject pos) (- PI / 2).

(** The wrap of lines 621-622: one turn is added or removed, which
    brings a difference of two [atan2] angles into [(-PI, PI]]. *)
Definition wrap (angleDiff : R) : R :=
  if Rgt_dec angleDiff PI then angleDiff - 2 * PI
  else if Rle_dec angleDiff (- PI) then angleDiff + 2 * PI
  else angleDiff.

(** [update(distConstrainer, distance, angleConstrainer, maxAngle)].
    [directionAngle] receives the angle the link had when the call
    started, not the angle of the position the call moves it to. *)
Definition update (this distConstrainer : t) (distance : R)
    (angleConstrainer : t) (maxAngle : R) : t :=
  let baseVector := Vector2D.sub (pos angleConstrainer) (pos distConstrainer) in
  let anchorAngle := Vector2D.angle baseVector in
  let vector := Vector2D.sub (pos this) (pos distConstrainer) in
  let currentAngle := Vector2D.angle vector in
  let angleDiff := wrap (currentAngle - anchorAngle) in
  let maxAngleRad := (180 - maxAngle) * PI / 180 in
  let newAngle :=
    if Rlt_dec angleDiff 0
    then Rmin angleDiff (- maxAngleRad) + anchorAngle
    else Rmax angleDiff maxAngleRad + anchorAngle in
  mk (radius this)
     (Vector2D.addPolar (pos distConstrainer) distance newAngle)
     currentAngle.

Definition getSidePoints (this : t) (scale : R) : list Vector2D.t :=
  let radius := radius this * scale in
  [Vector2D.addPolar (pos this) radius (directionAngle this + PI / 2);
   Vector2D.addPolar (pos this) radius (directionAngle this - PI / 2)].

End ChainLink.

(* ================================================================= *)
(** ** animals.js: [BodyBase] *)

Module BodyBase.

(** The spine.  [chainLinks] always has the two links [update] reads
    at the indices 0 and 1 (the constructor pads a shorter radius
    profile), so the array is kept as those two links and the links
    from index 2 on.  The fields that only drawing reads (style, eyes)
    are left out. *)
Record t : Type := mk {
  link1 : ChainLink.t;
  link2 : ChainLink.t;
  links : list ChainLink.t;
  spacing : R;
  maxAngle : R;
  totalCurvature : number;
  headPoints : R;
  tailPoints : R;
  _scale : R
}.

Definition chainLinks (b : t) : list ChainLink.t :=
  link1 b :: link2 b :: links b.

(** [get scale] *)
Definition scale (b : t) : R := _scale b.

(** [set scale] *)
Definition setScale (b : t) (scale : R) : t :=
  mk (link1 b) (link2 b) (links b) (spacing b) (maxAngle b)
     (totalCurvature b) (headPoints b) (tailPoints b) (Rabs scale).

(** The link that [radiusesArray.map] builds at [index]. *)
Definition linkAt (currentPos : Vector2D.t) (spacing : R)
    (radius : R) (index : nat) : ChainLink.t :=
  let posY := Vector2D.y currentPos + spacing * INR index in
  ChainLink.new radius (Vector2D.mk (Vector2D.x currentPos) posY).

Fixpoint linksFrom (currentPos : Vector2D.t) (spacing : R)
    (index : nat) (radiuses : list R) : list ChainLink.t :=
  match radiuses with
  | [] => []
  | radius :: rest =>
      linkAt currentPos spacing radius index
        :: linksFrom currentPos spacing (S index) rest
  end.

(** The constructor, with [setCustomBodyShape] on the padded radius
    profile: an empty profile becomes [[10, 10]], a single radius is
    doubled. *)
Definition new (radiusesArray : list R) (spacing maxAngle : R)
    (basisPosition : Vector2D.t) (headPoints tailPoints scale : R) : t :=
  let '(r0, r1, rest) :=
    match radiusesArray with
    | [] => (10, 10, [])
    | [r] => (r, r, [])
    | r0 :: r1 :: rest => (r0, r1, rest)
    end in
  mk (linkAt basisPosition spacing r0 0)
     (linkAt basisPosition spacing r1 1)
     (linksFrom basisPosition spacing 2 rest)
     spacing maxAngle (Num 0)
     (Rmax 2 headPoints) (Rmax 2 tailPoints) (Rabs scale).

(** One term of the sum in [getTotalCurvature]: the difference of two
    direction angles in degrees, one turn removed or added. *)
Definition difference (link1 link2 : ChainLink.t) : R :=
  let difference :=
    ChainLink.directionAngle link2 * 180 / PI
    - ChainLink.directionAngle link1 * 180 / PI in
  let difference :=
    if Rgt_dec difference 180 then difference - 360 else difference in
  if Rlt_dec difference (-180) then difference + 360 else difference.

(** The loop of [getTotalCurvature], from the index of [rest]'s head:
    [link1] is the link before it. *)
Fixpoint curvatureLoop (curCurvature : R) (link1 : ChainLink.t)
    (rest : list ChainLink.t) : R :=
  match rest with
  | [] => curCurvature
  | link2 :: rest' =>
      curvatureLoop (curCurvature + difference link1 link2) link2 rest'
  end.

Definition getTotalCurvatureOf (maxAngle : R) (link2 : ChainLink.t)
    (links : list ChainLink.t) : number :=
  let maxCurvature := maxAngle * (INR (2 + length links) - 2) in
  let curCurvature := curvatureLoop 0 link2 links in
  JsNumber.min
    (JsNumber.max (Num curCurvature / Num maxCurvature)%js (Num (-1)))
    (Num 1).

Definition getTotalCurvature (b : t) : number :=
  getTotalCurvatureOf (maxAngle b) (link2 b) (links b).

(** The loop of [update], from the index of [rest]'s head: the two
    links before it have already been moved. *)
Fixpoint updateLinks (distance maxAngle : R)
    (angleConstrainer distConstrainer : ChainLink.t)
    (rest : list ChainLink.t) : list ChainLink.t :=
  match rest with
  | [] => []
  | link :: rest' =>
      let link' :=
        ChainLink.update link distConstrainer distance
                         angleConstrainer maxAngle in
      link' :: updateLinks distance maxAngle distConstrainer link' rest'
  end.

Definition update (b : t) (pos : Vector2D.t) : t :=
  let currentAngle :=
    Vector2D.angle (Vector2D.sub (ChainLink.pos (link2 b)) pos) in
  let link1' := ChainLink.mk (ChainLink.radius (link1 b)) pos currentAngle in
  let link2' :=
    ChainLink.mk (ChainLink.radius (link2 b))
      (Vector2D.addPolar pos (spacing b * scale b) currentAngle)
      currentAngle in
  let links' :=
    updateLinks (spacing b * scale b) (maxAngle b) link1' link2' (links b) in
  mk link1' link2' links' (spacing b) (maxAngle b)
     (getTotalCurvatureOf (maxAngle b) link2' links')
     (headPoints b) (tailPoints b) (_scale b).

(** The values of [i] in [for (let i = 0; i < n; i++)]. *)
Definition indicesBelow (n : R) : list nat := seq 0 (Z.to_nat (Zceil n)).

(** [getEndPoints(isHead)] *)
Definition getEndPoints (b : t) (isHead : bool) : list Vector2D.t :=
  let link := if isHead then link1 b else last (chainLinks b) (link1 b) in
  let n := if isHead then headPoints b else tailPoints b in
  let angleStep := PI / (n - 1) in
  map
    (fun i =>
       let angle :=
         ChainLink.directionAngle link
         + PI / 2 * (if isHead then 1 else -1) + INR i * angleStep in
       Vector2D.addPolar (ChainLink.pos link)
         (ChainLink.radius link * scale b) angle)
    (indicesBelow n).

End BodyBase.

(* ================================================================= *)
(** ** animals.js: [Leg3Joint] *)

Module Leg3Joint.

(** [this.link] is a reference to a link of the parent spine, which
    [BodyBase.update] moves in place: every method takes the link as
    it is at the time of the call.  [joints[1]], the knee, comes out
    of [getIntercectionPoint]: its coordinates may be NaN, and in the
    constructor it may be [undefined] ([None]). *)
Record t : Type := mk {
  shoulderWidth : R;
  isShoulderRight : bool;
  isForwardBend : bool;
  anchorAngle : R;
  anchorDistance : R;
  lengthes : R * R;
  joints0 : Vector2D.t;
  joints1 : option Utils.JsPoint;
  joints2 : Vector2D.t;
  sticked : bool;
  targetPoint : Vector2D.t;
  maxDifference : R;
  returnSpeed : R;
  _scale : R
}.

Definition scale (leg : t) : R := _scale leg.

Definition setJoints0 (leg : t) (p : Vector2D.t) : t :=
  mk (shoulderWidth leg) (isShoulderRight leg) (isForwardBend leg)
     (anchorAngle leg) (anchorDistance leg) (lengthes leg)
     p (joints1 leg) (joints2 leg) (sticked leg) (targetPoint leg)
     (maxDifference leg) (returnSpeed leg) (_scale leg).

Definition setJoints1 (leg : t) (p : option Utils.JsPoint) : t :=
  mk (shoulderWidth leg) (isShoulderRight leg) (isForwardBend leg)
     (anchorAngle leg) (anchorDistance leg) (lengthes leg)
     (joints0 leg) p (joints2 leg) (sticked leg) (targetPoint leg)
     (maxDifference leg) (returnSpeed leg) (_scale leg).

Definition setJoints2 (leg : t) (p : Vector2D.t) : t :=
  mk (shoulderWidth leg) (isShoulderRight leg) (isForwardBend leg)
     (anchorAngle leg) (anchorDistance leg) (lengthes leg)
     (joints0 leg) (joints1 leg) p (sticked leg) (targetPoint leg)
     (maxDifference leg) (returnSpeed leg) (_scale leg).

Definition setSticked (leg : t) (s : bool) : t :=
  mk (shoulderWidth leg) (isShoulderRight leg) (isForwardBend leg)
     (anchorAngle leg) (anchorDistance leg) (lengthes leg)
     (joints0 leg) (joints1 leg) (joints2 leg) s (targetPoint leg)
     (maxDifference leg) (returnSpeed leg) (_scale leg).

Definition setTargetPoint (leg : t) (p : Vector2D.t) : t :=
  mk (shoulderWidth leg) (isShoulderRight leg) (isForwardBend leg)
     (anchorAngle leg) (anchorDistance leg) (lengthes leg)
     (joints0 leg) (joints1 leg) (joints2 leg) (sticked leg) p
     (maxDifference leg) (returnSpeed leg) (_scale leg).

Definition evalConnPoint (link : ChainLink.t) (leg : t) : Vector2D.t :=
  let angle :=
    ChainLink.directionAngle link
    + PI / 2 * (if isShoulderRight leg then -1 else 1) in
  let radius := shoulderWidth leg * scale leg in
  Vector2D.addPolar (ChainLink.pos link) radius angle.

(** The index [isForwardBend ^ isShoulderRight]. *)
Definition bendIndex (leg : t) : nat :=
  if xorb (isForwardBend leg) (isShoulderRight leg) then 1%nat else 0%nat.

Definition evalJointPoint (leg : t) : option Utils.JsPoint :=
  let intersectionPoints :=
    Utils.getIntercectionPoint (joints0 leg) (joints2 leg)
      (fst (lengthes leg) * scale leg) (snd (lengthes leg) * scale leg) in
  if (0 <? length intersectionPoints)%nat
  then nth_error intersectionPoints (bendIndex leg)
  else
    let t := (Num (fst (lengthes leg))
              / Num (fst (lengthes leg) + snd (lengthes leg)))%js in
    let j0 := joints0 leg in
    let j2 := joints2 leg in
    let x := (Num (Vector2D.x j0)
              + t * Num (Vector2D.x j2 - Vector2D.x j0))%js in
    let y := (Num (Vector2D.y j0)
              + t * Num (Vector2D.y j2 - Vector2D.y j0))%js in
    Some (Utils.mkPoint x y).

(** The target is laid out from [joints[0]] as it is stored, which in
    [update] is still the shoulder of the previous call. *)
Definition evalTargetPoint (link : ChainLink.t) (leg : t) : Vector2D.t :=
  let angle :=
    ChainLink.directionAngle link
    + anchorAngle leg * (if isShoulderRight leg then -1 else 1) in
  let radius := anchorDistance leg * scale leg in
  Vector2D.addPolar (joints0 leg) radius angle.

(** The foot of an unstuck leg after one step.  [distToTarget] is
    positive where it divides, for a [returnSpeed] that is not
    negative. *)
Definition catchUp (leg : t) (distTraveled : R) : t :=
  let availableDistance := distTraveled * returnSpeed leg in
  let target := targetPoint leg in
  let current := joints2 leg in
  let distToTarget := Vector2D.distance current target in
  let lengthSum := (fst (lengthes leg) + snd (lengthes leg)) * scale leg in
  if Rle_dec distToTarget availableDistance then
    setSticked (setJoints2 leg (Vector2D.fromVec2D target)) true
  else
    let ratio :=
      (if Rlt_dec distToTarget (lengthSum * 1.5)
       then availableDistance
       else distToTarget - lengthSum) / distToTarget in
    setJoints2 leg
      (Vector2D.mk
         (Vector2D.x current
          + ratio * (Vector2D.x target - Vector2D.x current))
         (Vector2D.y current
          + ratio * (Vector2D.y target - Vector2D.y current))).

Definition update (link : ChainLink.t) (leg : t) : t :=
  let leg := setTargetPoint leg (evalTargetPoint link leg) in
  let dist := Vector2D.distance (joints2 leg) (targetPoint leg) in
  let leg :=
    if Rgt_dec dist (maxDifference leg * scale leg)
    then setSticked leg false else leg in
  let newJoint0 := evalConnPoint link leg in
  let distTraveled := Vector2D.distance (joints0 leg) newJoint0 in
  let leg := setJoints0 leg newJoint0 in
  let leg := if negb (sticked leg) then catchUp leg distTraveled else leg in
  setJoints1 leg (evalJointPoint leg).

(** The constructor; [constrains] is given by its three fields. *)
Definition new (link : ChainLink.t) (shoulderWidth : R)
    (isShoulderRight : bool) (length1 length2 : R)
    (anchorAngle anchorDistance maxDifference : R)
    (returnSpeed : R) (isForwardBend : bool) (scale : R) : t :=
  let leg :=
    mk shoulderWidth isShoulderRight isForwardBend
       anchorAngle anchorDistance (length1, length2)
       Vector2D.Zero (Some (Utils.ofVector Vector2D.Zero)) Vector2D.Zero
       true Vector2D.Zero maxDifference returnSpeed (Rabs scale) in
  let leg := setJoints0 leg (evalConnPoint link leg) in
  let leg := setJoints2 leg (evalTargetPoint link leg) in
  let intersPoints :=
    Utils.getIntercectionPoint (joints0 leg) (joints2 leg)
      length1 length2 in
  let leg := setJoints1 leg (nth_error intersPoints (bendIndex leg)) in
  let leg := setTargetPoint leg (evalTargetPoint link leg) in
  update link leg.

(** [n] calls of [update] with the parent link held still. *)
Fixpoint updates (n : nat) (link : ChainLink.t) (leg : t) : t :=
  match n with
  | O => leg
  | S n' => updates n' link (update link leg)
  end.

End Leg3Joint.

(* ================================================================= *)
(** ** animals.js: [Lizard] *)

Module Lizard.

(** A [BodyBase] with four legs.  Each leg holds a reference to one
    link of the spine, kept here as the index of that link in
    [chainLinks]. *)
Record t : Type := mk {
  body : BodyBase.t;
  legs : list (nat * Leg3Joint.t)
}.

(** [this.chainLinks[index]]; the indices of the constructor are
    within the radius profiles it uses. *)
Definition linkOf (body : BodyBase.t) (index : nat) : ChainLink.t :=
  nth index (BodyBase.chainLinks body) (BodyBase.link1 body).

(** [update(pos)]: [super.update(pos)], then [update] on every leg. *)
Definition update (l : t) (pos : Vector2D.t) : t :=
  let body := BodyBase.update (body l) pos in
  mk body
     (map (fun leg => (fst leg, Leg3Joint.update (linkOf body (fst leg)) (snd leg)))
          (legs l)).

Definition new (basisPosition : Vector2D.t) (scale : R) (isLowRes : bool) : t :=
  let radiusArray :=
    if isLowRes
    then [6.5; 13; 9; 15.75; 16.5; 16; 14.5; 11; 6; 3.5; 2.25; 2; 2]
    else [2; 11; 13; 13; 10; 13; 15.5; 16; 16.5; 16.5; 16; 16; 15; 14; 12; 10;
          7; 5; 4; 3; 2.5; 2; 2; 2; 2; 2] in
  let dist := if isLowRes then 16 else 8 in
  let ang := if isLowRes then 32 else 16 in
  let head := if isLowRes then 5 else 2 in
  let body := BodyBase.new radiusArray dist ang basisPosition head 5 scale in
  let body := BodyBase.update body basisPosition in
  let legLinks := if isLowRes then (3%nat, 7%nat) else (6%nat, 14%nat) in
  let linkUp := linkOf body (fst legLinks) in
  let linkDown := linkOf body (snd legLinks) in
  let legs :=
    [(fst legLinks,
      Leg3Joint.new linkUp 8 false 20 20 2.4 25 30 2.3 false scale);
     (fst legLinks,
      Leg3Joint.new linkUp 8 true 20 20 2.4 25 30 2.3 false scale);
     (snd legLinks,
      Leg3Joint.new linkDown 8 false 20 20 2.1 25 30 2.3 true scale);
     (snd legLinks,
      Leg3Joint.new linkDown 8 true 20 20 2.1 25 30 2.3 true scale)] in
  update (mk body legs) basisPosition.

End Lizard.

(* ================================================================= *)
(** ** The animal of a boid *)

(** What [Boid] asks of its animal: a method [update(pos)].  [Fish] and
    [Snake] inherit it from [BodyBase], [Lizard] overrides it;
    [Simulation] accepts any object with that method from its
    [customAnimalCallback]. *)
Class Animal (A : Type) : Type := {
  animal_update : A -> Vector2D.t -> A
}.

#[export] Instance BodyBase_Animal : Animal BodyBase.t := {
  animal_update := BodyBase.update
}.

#[export] Instance Lizard_Animal : Animal Lizard.t := {
  animal_update := Lizard.update
}.

(* ================================================================= *)
(** ** simulation.js: [SimulationParams] *)

Module SimulationParams.

Record t : Type := mk {
  perceptionRadius : R;
  alignmentImpact : R;
  cohesionImpact : R;
  avoidanceImpact : R;
  mouseForceRadius : R;
  mouseForceScale : R;
  maxVelocity : R;
  maxAcceleration : R
}.

(** The defaults of the constructor. *)
Definition default : t := mk 50 1 0.4 1 150 100 8 1.

End SimulationParams.

(** [this.boundaries] of a [Simulation]. *)
Module Boundaries.

Record t : Type := mk {
  width : R;
  height : R;
  left : R;
  top : R;
  margin : R
}.

End Boundaries.

(* ================================================================= *)
(** ** simulation.js: [Boid] *)

Module Boid.
Section WithAnimal.

Context {A : Type} `{Animal A}.

Record t : Type := mk {
  position : Vector2D.t;
  velocity : Vector2D.t;
  acceleration : Vector2D.t;
  animal : option A
}.

(** [!deltaTime]: zero is falsy, and so is what is not a number
    ([undefined], NaN), which [None] stands for. *)
Definition falsy (deltaTime : option R) : bool :=
  match deltaTime with
  | None => true
  | Some dt => if Req_dec_T dt 0 then true else false
  end.

(** [update(deltaTime, params)].  The second component lists, in
    order, the argument of every call of [this.animal.update] the
    call makes. *)
Definition update (b : t) (deltaTime : option R)
    (params : SimulationParams.t) : t * list Vector2D.t :=
  match deltaTime with
  | None => (b, [])
  | Some dt =>
      if Req_dec_T dt 0 then (b, [])
      else
        let position := Vector2D.add (position b)
                          (Vector2D.scale (velocity b) dt) in
        let velocity := Vector2D.add (velocity b) (acceleration b) in
        let velocity :=
          Vector2D.clampMag velocity
            (SimulationParams.maxVelocity params) None in
        match animal b with
        | None => (mk position velocity (acceleration b) None, [])
        | Some a =>
            let a := animal_update a position in
            let a := animal_update a position in
            (mk position velocity (acceleration b) (Some a),
             [position; position])
        end
  end.

Definition edges (b : t) (boundaries : Boundaries.t) : t :=
  let p := position b in
  let x :=
    if Rgt_dec (Vector2D.x p) (Boundaries.width boundaries + Boundaries.left boundaries)
    then Boundaries.left boundaries
    else if Rlt_dec (Vector2D.x p) (Boundaries.left boundaries)
    then Boundaries.width boundaries + Boundaries.left boundaries
    else Vector2D.x p in
  let y :=
    if Rgt_dec (Vector2D.y p) (Boundaries.height boundaries + Boundaries.top boundaries)
    then Boundaries.top boundaries
    else if Rlt_dec (Vector2D.y p) (Boundaries.top boundaries)
    then Boundaries.height boundaries + Boundaries.top boundaries
    else Vector2D.y p in
  mk (Vector2D.mk x y) (velocity b) (acceleration b) (animal b).

(** The neighbours of [this]: the boids of [boids] nearer than the
    perception radius.  [boids] is the flock without [this] itself,
    which the source skips by identity ([boid != this]). *)
Definition neighbours (this : t) (boids : list t)
    (perceptionRadius : R) : list t :=
  filter
    (fun boid =>
       if Rlt_dec (Vector2D.distance (position this) (position boid))
                  perceptionRadius
       then true else false)
    boids.

Definition sum (vs : list Vector2D.t) : Vector2D.t :=
  fold_left Vector2D.add vs Vector2D.Zero.

(** Two boids at one position make [d] zero in [diff.div(d)]: the
    source then yields NaN, which is outside this model. *)
Definition separate (this : t) (boids : list t)
    (params : SimulationParams.t) : Vector2D.t :=
  let near :=
    neighbours this boids (SimulationParams.perceptionRadius params) in
  let avoidance :=
    sum (map (fun boid =>
                let d := Vector2D.distance (position this) (position boid) in
                Vector2D.div
                  (Vector2D.sub (position this) (position boid)) d)
             near) in
  let totalBoids := length near in
  if (0 <? totalBoids)%nat then
    let avoidance := Vector2D.div avoidance (INR totalBoids) in
    let avoidance :=
      Vector2D.setMagnitude avoidance (SimulationParams.maxVelocity params) in
    let avoidance := Vector2D.sub avoidance (velocity this) in
    Vector2D.clampMag avoidance
      (SimulationParams.maxAcceleration params) None
  else avoidance.

Definition align (this : t) (boids : list t)
    (params : SimulationParams.t) : Vector2D.t :=
  let near :=
    neighbours this boids (SimulationParams.perceptionRadius params) in
  let desiredForce := sum (map velocity near) in
  let totalBoids := length near in
  if (0 <? totalBoids)%nat then
    let desiredForce := Vector2D.div desiredForce (INR totalBoids) in
    let desiredForce :=
      Vector2D.setMagnitude desiredForce
        (SimulationParams.maxVelocity params) in
    let desiredForce := Vector2D.sub desiredForce (velocity this) in
    Vector2D.clampMag desiredForce
      (SimulationParams.maxAcceleration params) None
  else desiredForce.

Definition cohesion (this : t) (boids : list t)
    (params : SimulationParams.t) : Vector2D.t :=
  let near :=
    neighbours this boids (SimulationParams.perceptionRadius params) in
  let steering := sum (map position near) in
  let totalBoids := length near in
  if (0 <? totalBoids)%nat then
    let steering := Vector2D.div steering (INR totalBoids) in
    let steering := Vector2D.sub steering (position this) in
    let steering :=
      Vector2D.setMagnitude steering (SimulationParams.maxVelocity params) in
    let steering := Vector2D.sub steering (velocity this) in
    Vector2D.clampMag steering
      (SimulationParams.maxAcceleration params) None
  else steering.

(** [flock(boids, params)]; [boids] is the flock without [this]. *)
Definition flock (this : t) (boids : list t)
    (params : SimulationParams.t) : t :=
  let acceleration := Vector2D.mk 0 0 in
  let alignment := align this boids params in
  let cohesion := cohesion this boids params in
  let avoidance := separate this boids params in
  let alignment :=
    Vector2D.scale alignment (SimulationParams.alignmentImpact params) in
  let cohesion :=
    Vector2D.scale cohesion (SimulationParams.cohesionImpact params) in
  let avoidance :=
    Vector2D.scale avoidance (SimulationParams.avoidanceImpact params) in
  let acceleration := Vector2D.add acceleration alignment in
  let acceleration := Vector2D.add acceleration cohesion in
  let acceleration := Vector2D.add acceleration avoidance in
  mk (position this) (velocity this) acceleration (animal this).

(** [applyForce(vec, scale, radius)]; [radius] is [None] when the
    argument is left out.  At distance zero the source computes the
    magnitude [(1 / 0) * scale], which the setter does not read. *)
Definition applyForce (b : t) (vec : Vector2D.t) (scale : R)
    (radius : option R) : t :=
  let forceVec := Vector2D.sub (position b) vec in
  let tooFar :=
    match radius with
    | Some radius =>
        if Rgt_dec (Vector2D.magnitude forceVec) radius then true else false
    | None => false
    end in
  if tooFar then b
  else
    let forceVec :=
      Vector2D.setMagnitude forceVec
        (1 / Vector2D.magnitude forceVec * scale) in
    mk (position b) (velocity b)
       (Vector2D.add (acceleration b) forceVec) (animal b).

End WithAnimal.
End Boid.

Arguments Boid.t A : clear implicits.

(* ================================================================= *)
(** ** simulation.js: [RipplesManager] *)

Module RipplesManager.

(** One entry of [this.points].  Entries are objects: [removePoint]
    finds its argument by identity, which [ident] stands for. *)
Record instance : Type := mkInstance {
  ident : nat;
  pos : Vector2D.t;
  creationTime : R;
  instanceDelay : R
}.

(** [maxRipples] counts ripples.  [nextIdent] is the identity the
    next entry receives. *)
Record t : Type := mk {
  points : list instance;
  maxRipples : nat;
  delay : R;
  nextIdent : nat
}.

Definition new (maxRipples : nat) (delay : R) : t :=
  mk [] maxRipples delay 0.

(** [addPoint(point)] at the time [now] that [Date.now()] returns.
    The entry it pushes is also handed to a timer, which calls
    [removePoint] on it later. *)
Definition addPoint (m : t) (point : Vector2D.t) (now : R) : t :=
  if (maxRipples m <=? length (points m))%nat then m
  else
    let arrInstance := mkInstance (nextIdent m) point now (delay m) in
    mk (points m ++ [arrInstance]) (maxRipples m) (delay m)
       (S (nextIdent m)).

(** [splice(indexOf(arrInstance), 1)], nothing when it is absent. *)
Fixpoint remove (i : nat) (l : list instance) : list instance :=
  match l with
  | [] => []
  | e :: rest => if Nat.eqb (ident e) i then rest else e :: remove i rest
  end.

Definition removePoint (m : t) (arrInstance : nat) : t :=
  mk (remove arrInstance (points m)) (maxRipples m) (delay m) (nextIdent m).

Definition getPoints (m : t) : list Vector2D.t := map pos (points m).

(** A call on a manager. *)
Inductive call : Type :=
| AddPoint (point : Vector2D.t) (now : R)
| RemovePoint (arrInstance : nat).

Definition run (m : t) (c : call) : t :=
  match c with
  | AddPoint point now => addPoint m point now
  | RemovePoint i => removePoint m i
  end.

Definition runAll (m : t) (calls : list call) : t := fold_left run calls m.

End RipplesManager.

(* ================================================================= *)
(** ** simulation.js: [Simulation] *)

Module Simulation.
Section WithAnimal.

Context {A : Type} `{Animal A}.

Record t : Type := mk {
  flock : list (Boid.t A);
  boundaries : Boundaries.t;
  params : SimulationParams.t;
  ripples : RipplesManager.t;
  mousePos : Vector2D.t
}.

(** [this.boundaries] as the constructor derives it from its
    [boundaries] argument [{width, height, margin}]. *)
Definition newBoundaries (width height margin : R) : Boundaries.t :=
  Boundaries.mk (width + margin * 2) (height + margin * 2)
               (- margin) (- margin) margin.

(** [setBounds(newWidth, newHeight, newMargin)] with the margin
    given.  The first line takes the new width from [newMargin].
    Without a margin that line yields NaN, which is outside this
    model. *)
Definition setBounds (s : t) (newWidth newHeight newMargin : R) : t :=
  let newWidth := Rmax 1 newMargin in
  let newHeight := Rmax 1 newHeight in
  let margin := newMargin in
  mk (flock s)
     (Boundaries.mk (newWidth + margin * 2) (newHeight + margin * 2)
                    (- margin) (- margin) margin)
     (params s) (ripples s) (mousePos s).

(** The body of the [forEach] of [update] for the boid at [index];
    [others] is the flock around it. *)
Definition tick (s : t) (ripplePoints : list Vector2D.t)
    (deltaTime : option R) (others : list (Boid.t A)) (boid : Boid.t A)
  : Boid.t A * list Vector2D.t :=
  let boid := Boid.edges boid (boundaries s) in
  let boid := Boid.flock boid others (params s) in
  let boid :=
    fold_left
      (fun boid point =>
         Boid.applyForce boid point
           (SimulationParams.mouseForceScale (params s))
           (Some (SimulationParams.mouseForceRadius (params s))))
      ripplePoints boid in
  Boid.update boid deltaTime (params s).

(** The [forEach] of [update]: [done] are the boids before the
    current index, already moved, [todo] the boids from it on.  The
    log pairs each call of an animal's [update] with the index of
    its boid. *)
Fixpoint forEach (s : t) (ripplePoints : list Vector2D.t)
    (deltaTime : option R) (done todo : list (Boid.t A))
  : list (Boid.t A) * list (nat * Vector2D.t) :=
  match todo with
  | [] => (done, [])
  | boid :: rest =>
      let '(boid', calls) :=
        tick s ripplePoints deltaTime (done ++ rest) boid in
      let '(flock', log) :=
        forEach s ripplePoints deltaTime (done ++ [boid']) rest in
      (flock', map (fun pos => (length done, pos)) calls ++ log)
  end.

Definition update (s : t) (deltaTime : option R)
  : t * list (nat * Vector2D.t) :=
  let ripplePoints := RipplesManager.getPoints (ripples s) in
  let '(flock', log) := forEach s ripplePoints deltaTime [] (flock s) in
  (mk flock' (boundaries s) (params s) (ripples s) (mousePos s), log).


End WithAnimal.
End Simulation.

Arguments Simulation.t A : clear implicits.

(* ================================================================= *)
(** ** Vocabulary of the properties *)

(** *** Angles of a chain *)

(** The direction of the point [to], seen from the point [from]. *)
Definition direction (from to : Vector2D.t) : R :=
  Vector2D.angle (Vector2D.sub to from).

(** The difference of two directions, brought into [(-PI, PI]]. *)
Definition normalizedDiff (a b : R) : R := ChainLink.wrap (a - b).

Definition degrees (a : R) : R := a * 180 / PI.

(** The clamp of [ChainLink.update], on the wrapped difference. *)
Definition clampDiff (maxAngleRad angleDiff : R) : R :=
  if Rlt_dec angleDiff 0
  then Rmin angleDiff (- maxAngleRad)
  else Rmax angleDiff maxAngleRad.

(** [anchorAngle] of [ChainLink.update]: the direction from the
    distance constrainer towards the angle constrainer. *)
Definition anchorOf (distConstrainer angleConstrainer : ChainLink.t) : R :=
  direction (ChainLink.pos distConstrainer) (ChainLink.pos angleConstrainer).

(** The bend [ChainLink.update] settles on, measured from the anchor. *)
Definition bendOf (this distConstrainer angleConstrainer : ChainLink.t)
    (maxAngle : R) : R :=
  clampDiff ((180 - maxAngle) * PI / 180)
    (ChainLink.wrap
       (direction (ChainLink.pos distConstrainer) (ChainLink.pos this)
        - anchorOf distConstrainer angleConstrainer)).

(** The link [this] is outside the forbidden cone: seen from
    [distConstrainer], its direction and the direction of
    [angleConstrainer] differ by at least [180 - maxAngle] degrees. *)
Definition outsideCone (maxAngle : R)
    (angleConstrainer distConstrainer this : ChainLink.t) : Prop :=
  180 - maxAngle
  <= degrees (Rabs (normalizedDiff
       (direction (ChainLink.pos distConstrainer) (ChainLink.pos this))
       (direction (ChainLink.pos distConstrainer)
                  (ChainLink.pos angleConstrainer)))).

(** The same with the direction of [this] compared to the direction
    from [angleConstrainer] to [distConstrainer], that is from
    link[i-2] to link[i-1]. *)
Definition outsideCone_from_second_last (maxAngle : R)
    (angleConstrainer distConstrainer this : ChainLink.t) : Prop :=
  180 - maxAngle
  <= degrees (Rabs (normalizedDiff
       (direction (ChainLink.pos distConstrainer) (ChainLink.pos this))
       (direction (ChainLink.pos angleConstrainer)
                  (ChainLink.pos distConstrainer)))).

(** Every link of [rest] is outside the cone of the two links before
    it, [angleConstrainer] and [distConstrainer] being the two links
    before the head of [rest]. *)
Fixpoint chainOutsideCone (maxAngle : R)
    (angleConstrainer distConstrainer : ChainLink.t)
    (rest : list ChainLink.t) : Prop :=
  match rest with
  | [] => True
  | link :: rest' =>
      outsideCone maxAngle angleConstrainer distConstrainer link
      /\ chainOutsideCone maxAngle distConstrainer link rest'
  end.

(** What [ChainLink.update] reads of a link. *)
Definition shape (l : ChainLink.t) : R * Vector2D.t :=
  (ChainLink.radius l, ChainLink.pos l).

(** A spine of three links as its constructor lays it out, and a head
    position on top of its last link. *)
Definition spine3 : BodyBase.t :=
  BodyBase.new [10; 10; 10] 1 90 (Vector2D.mk 0 0) 5 5 1.

Definition spine3_head : Vector2D.t := Vector2D.mk 0 2.

(** A spine of two links. *)
Definition spine2 : BodyBase.t :=
  BodyBase.new [10; 10] 10 30 Vector2D.Zero 5 5 1.

(** Three links in a row on the x axis, head first. *)
Definition row0 : ChainLink.t := ChainLink.mk 1 (Vector2D.mk 0 0) 0.
Definition row1 : ChainLink.t := ChainLink.mk 1 (Vector2D.mk 1 0) 0.
Definition row2 : ChainLink.t := ChainLink.mk 1 (Vector2D.mk 2 0) 0.

(** *** Two circles *)

(** The distance of the centres, as [getIntercectionPoint] computes it. *)
Definition centreDistance (p1 p2 : Vector2D.t) : R :=
  sqrt ((Vector2D.x p2 - Vector2D.x p1) * (Vector2D.x p2 - Vector2D.x p1)
        + (Vector2D.y p2 - Vector2D.y p1) * (Vector2D.y p2 - Vector2D.y p1)).

Definition noSolution (p1 p2 : Vector2D.t) (r1 r2 : R) : Prop :=
  centreDistance p1 p2 > r1 + r2 \/ centreDistance p1 p2 < Rabs (r1 - r2).

Definition onCircle (c : Vector2D.t) (r : R) (p : Vector2D.t) : Prop :=
  (Vector2D.x p - Vector2D.x c) * (Vector2D.x p - Vector2D.x c)
  + (Vector2D.y p - Vector2D.y c) * (Vector2D.y p - Vector2D.y c)
  = r * r.

(** A returned point lies on a circle when its coordinates are real
    and satisfy the equation of the circle. *)
Definition jsOnCircle (c : Vector2D.t) (r : R) (p : Utils.JsPoint) : Prop :=
  exists v, p = Utils.ofVector v /\ onCircle c r v.

(** The point both of whose coordinates are NaN. *)
Definition nanPoint : Utils.JsPoint := Utils.mkPoint NaN NaN.

(** *** Legs *)

(** The foot is no further from the target than [maxDifference*scale],
    the target being the one the next [update] computes. *)
Definition footWithinReach (link : ChainLink.t) (leg : Leg3Joint.t) : Prop :=
  Vector2D.distance (Leg3Joint.joints2 leg) (Leg3Joint.evalTargetPoint link leg)
  <= Leg3Joint.maxDifference leg * Leg3Joint.scale leg.

(** A sticked leg without shoulder width or anchor distance, with
    shoulder and foot on a link at the origin. *)
Definition restingLink : ChainLink.t := ChainLink.mk 1 (Vector2D.mk 0 0) 0.

Definition restingLeg : Leg3Joint.t :=
  Leg3Joint.mk 0 false true 0 0 (20, 20)
    (Vector2D.mk 0 0) None (Vector2D.mk 0 0) true (Vector2D.mk 0 0) 30 2.3 1.

(** *** Boids *)


(** The vector a call has added to the acceleration of [b], [b'] being
    the boid after the call. *)
Definition addedForce {A : Type} (b b' : Boid.t A) : Vector2D.t :=
  Vector2D.mk
    (Vector2D.x (Boid.acceleration b') - Vector2D.x (Boid.acceleration b))
    (Vector2D.y (Boid.acceleration b') - Vector2D.y (Boid.acceleration b)).

(** [applyForce(p, s)] adds a vector of magnitude [s / d], for the
    distance [d] from [p] to the boid; the quotient is the one of
    JavaScript, infinite at [d = 0]. *)
Definition rescaled_to_s_over_d {A : Type} (b : Boid.t A) (p : Vector2D.t)
    (s : R) : Prop :=
  let dx := Vector2D.x (Boid.position b) - Vector2D.x p in
  let dy := Vector2D.y (Boid.position b) - Vector2D.y p in
  let d := sqrt (dx * dx + dy * dy) in
  let f := addedForce b (Boid.applyForce b p s None) in
  Num (sqrt (Vector2D.x f * Vector2D.x f + Vector2D.y f * Vector2D.y f))
  = (Num s / Num d)%js.


(** A boid at [(2, 0)] that carries the three-link spine, alone in a
    simulation without ripples. *)
Definition loneBoid : Boid.t BodyBase.t :=
  Boid.mk (Vector2D.mk 2 0) (Vector2D.mk 1 0) (Vector2D.mk 0 0) (Some spine3).


(** *** Chains held taut *)

(** Every link of [rest] is [d] away from the link before it, [prev]
    being the link before the head of [rest]. *)
Fixpoint evenlySpaced (d : R) (prev : ChainLink.t)
    (rest : list ChainLink.t) : Prop :=
  match rest with
  | [] => True
  | link :: rest' =>
      Vector2D.distance (ChainLink.pos prev) (ChainLink.pos link) = d
      /\ evenlySpaced d link rest'
  end.

(** The links of [rest] hang in a column under [p], [d] apart and
    pointing down the column, the head of [rest] being the link at
    [index]. *)
Fixpoint hangsBelow (p : Vector2D.t) (d : R) (index : nat)
    (rest : list ChainLink.t) : Prop :=
  match rest with
  | [] => True
  | link :: rest' =>
      ChainLink.pos link
      = Vector2D.mk (Vector2D.x p) (Vector2D.y p + d * INR index)
      /\ ChainLink.directionAngle link = PI / 2
      /\ hangsBelow p d (S index) rest'
  end.

(** *** A leg in mid stride *)

(** An unstuck leg of two bones of length 1 on the resting link: the
    shoulder at the origin, the foot at [(1, 0)]. *)
Definition stridingLeg : Leg3Joint.t :=
  Leg3Joint.mk 0 false true 0 0 (1, 1)
    (Vector2D.mk 0 0) None (Vector2D.mk 1 0) false (Vector2D.mk 0 0) 30 2.3 1.

(** *** The area of a simulation *)

(** The point [p] is inside the rectangle of [b], its edges
    included. *)
Definition withinBounds (b : Boundaries.t) (p : Vector2D.t) : Prop :=
  Boundaries.left b <= Vector2D.x p <= Boundaries.width b + Boundaries.left b
  /\ Boundaries.top b <= Vector2D.y p <= Boundaries.height b + Boundaries.top b.

(** A boid without an animal at [(200, 0)], out of sight of
    [loneBoid]. *)
Definition farBoid : Boid.t BodyBase.t :=
  Boid.mk (Vector2D.mk 200 0) (Vector2D.mk 0 1) (Vector2D.mk 0 0) None.

(** *** Ripples *)

(** A manager as calls of [addPoint] and [removePoint] leave it,
    starting from the constructor. *)
Definition reachable (m : RipplesManager.t) : Prop :=
  exists maxRipples delay calls,
    m = RipplesManager.runAll (RipplesManager.new maxRipples delay) calls.

(** The entries are distinct objects, all created before the next
    one. *)
Definition fresh (m : RipplesManager.t) : Prop :=
  NoDup (map RipplesManager.ident (RipplesManager.points m))
  /\ Forall (fun j => (j < RipplesManager.nextIdent m)%nat)
       (map RipplesManager.ident (RipplesManager.points m)).

(** *** Proof steps *)

(** Case analysis on the comparisons of [Rmax] and [Rmin], the
    innermost first. *)
Ltac minmax :=
  unfold Rmax, Rmin;
  repeat match goal with
         | |- context [Rle_dec ?a ?b] =>
             lazymatch a with
             | context [Rle_dec] => fail
             | _ => lazymatch b with
                    | context [Rle_dec] => fail
                    | _ => destruct (Rle_dec a b)
                    end
             end
         end.

(* ================================================================= *)
(** ** Angles *)

Section Angles.

Lemma atan_nonpos (t : R) : t <= 0 -> atan t <= 0.
Proof.
  intros [Ht | ->].
  - left. rewrite <- atan_0. now apply atan_increasing.
  - rewrite atan_0. lra.
Qed.

Lemma atan_pos (t : R) : 0 < t -> 0 < atan t.
Proof. intros Ht. rewrite <- atan_0. now apply atan_increasing. Qed.

Lemma atan2_bound (y x : R) : - PI < Math.atan2 y x <= PI.
Proof.
  unfold Math.atan2. pose proof PI_RGT_0 as Hpi.
  pose proof (atan_bound (y / x)) as [Hlo Hhi].
  destruct (Rlt_dec 0 x) as [Hx | Hx]; [lra |].
  destruct (Rlt_dec x 0) as [Hx' | Hx'].
  - destruct (Rle_dec 0 y) as [Hy | Hy].
    + assert (atan (y / x) <= 0).
      { apply atan_nonpos. unfold Rdiv.
        assert (/ x < 0) by now apply Rinv_lt_0_compat. nra. }
      lra.
    + assert (0 < atan (y / x)).
      { apply atan_pos. unfold Rdiv.
        assert (/ x < 0) by now apply Rinv_lt_0_compat. nra. }
      lra.
  - destruct (Rlt_dec 0 y); [lra |]. destruct (Rlt_dec y 0); lra.
Qed.

Lemma hypot_factor (x y : R) :
  x <> 0 -> sqrt (x * x + y * y) = Rabs x * sqrt (1 + (y / x)²).
Proof.
  intros Hx.
  replace (x * x + y * y) with (x² * (1 + (y / x)²))
    by (unfold Rsqr; field; assumption).
  rewrite sqrt_mult.
  - now rewrite sqrt_Rsqr_abs.
  - apply Rle_0_sqr.
  - pose proof (Rle_0_sqr (y / x)). lra.
Qed.

Lemma sqrt_1_sqr_pos (t : R) : 0 < sqrt (1 + t²).
Proof. apply sqrt_lt_R0. pose proof (Rle_0_sqr t). lra. Qed.

Lemma polar_of_atan (x y : R) :
  x <> 0 ->
  Rabs x * sqrt (1 + (y / x)²) * cos (atan (y / x)) = Rabs x
  /\ Rabs x * sqrt (1 + (y / x)²) * sin (atan (y / x)) = Rabs x * (y / x).
Proof.
  intros Hx. rewrite cos_atan, sin_atan.
  pose proof (sqrt_1_sqr_pos (y / x)) as Hs.
  split; field; lra.
Qed.

Lemma atan2_polar (y x : R) :
  x = sqrt (x * x + y * y) * cos (Math.atan2 y x)
  /\ y = sqrt (x * x + y * y) * sin (Math.atan2 y x).
Proof.
  unfold Math.atan2.
  destruct (Rlt_dec 0 x) as [Hx | Hx].
  - assert (Hx0 : x <> 0) by lra.
    destruct (polar_of_atan x y Hx0) as [Hc Hs].
    rewrite (hypot_factor x y Hx0), Hc, Hs.
    rewrite Rabs_pos_eq by lra. split; [reflexivity | field; lra].
  - destruct (Rlt_dec x 0) as [Hx' | Hx'].
    + assert (Hx0 : x <> 0) by lra.
      destruct (polar_of_atan x y Hx0) as [Hc Hs].
      rewrite (hypot_factor x y Hx0).
      rewrite Rabs_left in * by assumption.
      destruct (Rle_dec 0 y) as [Hy | Hy].
      * rewrite neg_cos, neg_sin. split.
        -- lra.
        -- replace y with (- (- x * (y / x))) at 1 by (field; lra). lra.
      * unfold Rminus. rewrite cos_plus, sin_plus, cos_neg, sin_neg.
        rewrite cos_PI, sin_PI. split.
        -- lra.
        -- replace y with (- (- x * (y / x))) at 1 by (field; lra). lra.
    + assert (x = 0) by lra. subst x.
      replace (0 * 0 + y * y) with (y²) by (unfold Rsqr; ring).
      rewrite sqrt_Rsqr_abs.
      destruct (Rlt_dec 0 y) as [Hy | Hy].
      * rewrite cos_PI2, sin_PI2, Rabs_pos_eq by lra. lra.
      * destruct (Rlt_dec y 0) as [Hy' | Hy'].
        -- rewrite cos_neg, sin_neg, cos_PI2, sin_PI2, Rabs_left by lra. lra.
        -- assert (y = 0) by lra. subst y. rewrite Rabs_R0. lra.
Qed.

Lemma cos_1_small (a : R) : - (2 * PI) < a < 2 * PI -> cos a = 1 -> a = 0.
Proof.
  intros [Hlo Hhi] Hc. pose proof PI_RGT_0 as Hpi.
  assert (Hs : sin (a / 2) = 0).
  { replace a with (2 * (a / 2)) in Hc by field.
    rewrite cos_2a_sin in Hc. nra. }
  destruct (Rtotal_order (a / 2) 0) as [Hn | [Hz | Hp]].
  - assert (sin (a / 2) < 0) by (apply sin_lt_0_var; lra). lra.
  - lra.
  - assert (0 < sin (a / 2)) by (apply sin_gt_0; lra). lra.
Qed.

Lemma angle_unique (a b : R) :
  - PI < a <= PI -> - PI < b <= PI ->
  cos a = cos b -> sin a = sin b -> a = b.
Proof.
  intros Ha Hb Hc Hs.
  assert (a - b = 0); [| lra].
  apply cos_1_small; [lra |].
  rewrite cos_minus, Hc, Hs.
  pose proof (sin2_cos2 b) as H1. unfold Rsqr in H1. lra.
Qed.

End Angles.

(* ================================================================= *)
(** ** [ChainLink.update] keeps the bend out of the forbidden cone *)

Lemma wrap_range (a : R) :
  - (2 * PI) < a < 2 * PI -> - PI < ChainLink.wrap a <= PI.
Proof.
  intros [Hlo Hhi]. unfold ChainLink.wrap. pose proof PI_RGT_0.
  destruct (Rgt_dec a PI); [lra |].
  destruct (Rle_dec a (- PI)); lra.
Qed.

Lemma wrap_cos_sin (a : R) :
  cos (ChainLink.wrap a) = cos a /\ sin (ChainLink.wrap a) = sin a.
Proof.
  unfold ChainLink.wrap.
  destruct (Rgt_dec a PI).
  - unfold Rminus. rewrite cos_plus, sin_plus, cos_neg, sin_neg, cos_2PI, sin_2PI.
    split; ring.
  - destruct (Rle_dec a (- PI)).
    + rewrite cos_plus, sin_plus, cos_2PI, sin_2PI. split; ring.
    + split; reflexivity.
Qed.

Lemma wrap_id (a : R) : - PI < a <= PI -> ChainLink.wrap a = a.
Proof.
  intros [Hlo Hhi]. unfold ChainLink.wrap.
  destruct (Rgt_dec a PI); [lra |].
  destruct (Rle_dec a (- PI)); lra.
Qed.

Lemma clampDiff_spec (m a : R) :
  0 <= m <= PI -> - PI < a <= PI ->
  - PI <= clampDiff m a <= PI
  /\ m <= Rabs (clampDiff m a)
  /\ (clampDiff m a = - PI -> m = PI)
  /\ clampDiff m (clampDiff m a) = clampDiff m a.
Proof.
  intros Hm Ha. pose proof PI_RGT_0. unfold clampDiff, Rmin, Rmax, Rabs.
  destruct (Rlt_dec a 0).
  - destruct (Rle_dec a (- m)).
    + destruct (Rlt_dec a 0); [| lra].
      destruct (Rle_dec a (- m)); [| lra].
      destruct (Rcase_abs a); lra.
    + destruct (Rlt_dec (- m) 0); [| lra].
      destruct (Rle_dec (- m) (- m)); [| lra].
      destruct (Rcase_abs (- m)); lra.
  - destruct (Rle_dec a m).
    + destruct (Rlt_dec m 0); [lra |].
      destruct (Rle_dec m m); [| lra].
      destruct (Rcase_abs m); lra.
    + destruct (Rlt_dec a 0); [lra |].
      destruct (Rle_dec a m); [lra |].
      destruct (Rcase_abs a); lra.
Qed.

Lemma maxAngleRad_range (maxAngle : R) :
  0 <= maxAngle <= 180 -> 0 <= (180 - maxAngle) * PI / 180 <= PI.
Proof. intros H. pose proof PI_RGT_0. split; nra. Qed.

Lemma sqrt_polar (d a : R) :
  0 < d -> sqrt (d * cos a * (d * cos a) + d * sin a * (d * sin a)) = d.
Proof.
  intros Hd.
  replace (d * cos a * (d * cos a) + d * sin a * (d * sin a))
    with (d * d * ((sin a)² + (cos a)²)) by (unfold Rsqr; ring).
  rewrite sin2_cos2, Rmult_1_r. apply sqrt_square. lra.
Qed.

(** The direction of a point laid out by [addPolar] is its angle, up
    to whole turns. *)
Lemma angle_addPolar (p : Vector2D.t) (d a : R) :
  0 < d ->
  let phi := Vector2D.angle (Vector2D.sub (Vector2D.addPolar p d a) p) in
  cos phi = cos a /\ sin phi = sin a.
Proof.
  intros Hd phi. subst phi. unfold Vector2D.angle, Vector2D.sub, Vector2D.addPolar.
  cbn [Vector2D.x Vector2D.y].
  replace (Vector2D.x p + d * cos a - Vector2D.x p) with (d * cos a) by ring.
  replace (Vector2D.y p + d * sin a - Vector2D.y p) with (d * sin a) by ring.
  destruct (atan2_polar (d * sin a) (d * cos a)) as [Hx Hy].
  rewrite sqrt_polar in Hx, Hy by assumption.
  split; nra.
Qed.

Lemma angle_addPolar_eq (p : Vector2D.t) (d a : R) :
  0 < d -> - PI < a <= PI ->
  Vector2D.angle (Vector2D.sub (Vector2D.addPolar p d a) p) = a.
Proof.
  intros Hd Ha. destruct (angle_addPolar p d a Hd) as [Hc Hs].
  apply angle_unique; try assumption. apply atan2_bound.
Qed.

Lemma direction_bound (from to : Vector2D.t) :
  - PI < direction from to <= PI.
Proof. apply atan2_bound. Qed.

Lemma direction_addPolar (p : Vector2D.t) (d a : R) :
  0 < d ->
  cos (direction p (Vector2D.addPolar p d a)) = cos a
  /\ sin (direction p (Vector2D.addPolar p d a)) = sin a.
Proof. apply angle_addPolar. Qed.

Lemma direction_addPolar_eq (p : Vector2D.t) (d a : R) :
  0 < d -> - PI < a <= PI -> direction p (Vector2D.addPolar p d a) = a.
Proof. apply angle_addPolar_eq. Qed.

Lemma update_pos (this dc : ChainLink.t) (d : R) (ac : ChainLink.t) (m : R) :
  ChainLink.pos (ChainLink.update this dc d ac m)
  = Vector2D.addPolar (ChainLink.pos dc) d
      (bendOf this dc ac m + anchorOf dc ac).
Proof.
  unfold ChainLink.update, bendOf, clampDiff, anchorOf, direction.
  cbn [ChainLink.pos].
  now destruct (Rlt_dec _ 0).
Qed.

Lemma update_directionAngle (this dc : ChainLink.t) (d : R)
    (ac : ChainLink.t) (m : R) :
  ChainLink.directionAngle (ChainLink.update this dc d ac m)
  = direction (ChainLink.pos dc) (ChainLink.pos this).
Proof. reflexivity. Qed.

Lemma bendOf_spec (this dc ac : ChainLink.t) (m : R) :
  0 <= m <= 180 ->
  - PI <= bendOf this dc ac m <= PI
  /\ (180 - m) * PI / 180 <= Rabs (bendOf this dc ac m)
  /\ (bendOf this dc ac m = - PI -> (180 - m) * PI / 180 = PI)
  /\ clampDiff ((180 - m) * PI / 180) (bendOf this dc ac m)
     = bendOf this dc ac m.
Proof.
  intros Hm. unfold bendOf, anchorOf.
  pose proof (direction_bound (ChainLink.pos dc) (ChainLink.pos this)) as Hc.
  pose proof (direction_bound (ChainLink.pos dc) (ChainLink.pos ac)) as Ha.
  apply clampDiff_spec.
  - now apply maxAngleRad_range.
  - apply wrap_range. lra.
Qed.

Lemma angle_unique_closed (a b : R) :
  - PI < a <= PI -> - PI <= b <= PI ->
  cos a = cos b -> sin a = sin b ->
  a = b \/ (b = - PI /\ a = PI).
Proof.
  intros Ha Hb Hc Hs. pose proof PI_RGT_0.
  destruct (Req_dec_T b (- PI)) as [-> | Hne].
  - right. split; [reflexivity |].
    apply angle_unique; try lra.
    + now rewrite Hc, cos_neg.
    + now rewrite Hs, sin_neg, sin_PI, Ropp_0.
  - left. apply angle_unique; try assumption. lra.
Qed.

(** The bend measured again on the moved link is the bend the update
    settled on (a half turn is measured as [PI]). *)
Lemma bend_measured (this dc ac : ChainLink.t) (d m : R) :
  0 < d -> 0 <= m <= 180 ->
  let measured :=
    normalizedDiff
      (direction (ChainLink.pos dc)
                 (ChainLink.pos (ChainLink.update this dc d ac m)))
      (anchorOf dc ac) in
  measured = bendOf this dc ac m
  \/ (bendOf this dc ac m = - PI /\ measured = PI).
Proof.
  intros Hd Hm measured. subst measured. unfold normalizedDiff.
  rewrite update_pos.
  destruct (bendOf_spec this dc ac m Hm) as (Hb & _).
  set (c := bendOf this dc ac m) in *.
  pose proof (direction_bound (ChainLink.pos dc) (ChainLink.pos ac)) as Han.
  fold (anchorOf dc ac) in Han.
  set (an := anchorOf dc ac) in *.
  destruct (direction_addPolar (ChainLink.pos dc) d (c + an) Hd) as [Hc Hs].
  pose proof (direction_bound (ChainLink.pos dc)
                (Vector2D.addPolar (ChainLink.pos dc) d (c + an))) as Hphi.
  set (phi := direction _ _) in *.
  destruct (wrap_cos_sin (phi - an)) as [Wc Ws].
  apply angle_unique_closed.
  - apply wrap_range. lra.
  - assumption.
  - rewrite Wc, cos_minus, Hc, Hs, <- cos_minus. f_equal. ring.
  - rewrite Ws, sin_minus, Hc, Hs, <- sin_minus. f_equal. ring.
Qed.

(** A second [update] against the same two constrainers leaves the
    link where the first one put it. *)
Lemma update_pos_idem (this dc ac : ChainLink.t) (d m : R) :
  0 < d -> 0 <= m <= 180 ->
  ChainLink.pos (ChainLink.update (ChainLink.update this dc d ac m) dc d ac m)
  = ChainLink.pos (ChainLink.update this dc d ac m).
Proof.
  intros Hd Hm.
  rewrite (update_pos (ChainLink.update this dc d ac m)).
  rewrite (update_pos this).
  unfold bendOf at 1.
  destruct (bendOf_spec this dc ac m Hm) as (_ & _ & Hpi & Hidem).
  destruct (bend_measured this dc ac d m Hd Hm) as [Hsame | [Hc Hhalf]];
    unfold normalizedDiff in *.
  - now rewrite Hsame, Hidem.
  - rewrite Hhalf, Hc. specialize (Hpi Hc). rewrite Hpi.
    unfold clampDiff. pose proof PI_RGT_0.
    destruct (Rlt_dec PI 0); [lra |].
    rewrite Rmax_left by lra.
    unfold Vector2D.addPolar. f_equal.
    + f_equal. f_equal.
      replace (PI + anchorOf dc ac) with (- PI + anchorOf dc ac + 2 * PI) by ring.
      now rewrite cos_plus, cos_2PI, sin_2PI, Rmult_1_r, Rmult_0_r, Rminus_0_r.
    + f_equal. f_equal.
      replace (PI + anchorOf dc ac) with (- PI + anchorOf dc ac + 2 * PI) by ring.
      now rewrite sin_plus, cos_2PI, sin_2PI, Rmult_1_r, Rmult_0_r, Rplus_0_r.
Qed.

Lemma atan2_east (y x : R) : y = 0 -> 0 < x -> Math.atan2 y x = 0.
Proof.
  intros -> Hx. unfold Math.atan2.
  destruct (Rlt_dec 0 x); [| lra].
  unfold Rdiv. now rewrite Rmult_0_l, atan_0.
Qed.

Lemma atan2_west (y x : R) : y = 0 -> x < 0 -> Math.atan2 y x = PI.
Proof.
  intros -> Hx. unfold Math.atan2.
  destruct (Rlt_dec 0 x); [lra |].
  destruct (Rlt_dec x 0); [| lra].
  destruct (Rle_dec 0 0); [| lra].
  unfold Rdiv. rewrite Rmult_0_l, atan_0. ring.
Qed.

Lemma atan2_north (y x : R) : x = 0 -> 0 < y -> Math.atan2 y x = PI / 2.
Proof.
  intros -> Hy. unfold Math.atan2.
  destruct (Rlt_dec 0 0); [lra |].
  destruct (Rlt_dec 0 y); [reflexivity | lra].
Qed.

Lemma atan2_south (y x : R) : x = 0 -> y < 0 -> Math.atan2 y x = - (PI / 2).
Proof.
  intros -> Hy. unfold Math.atan2.
  destruct (Rlt_dec 0 0); [lra |].
  destruct (Rlt_dec 0 y); [lra |].
  destruct (Rlt_dec y 0); [reflexivity | lra].
Qed.

(** The bound in radians, on the bend measured on the moved link. *)
Lemma bend_large (this dc ac : ChainLink.t) (d m : R) :
  0 < d -> 0 <= m <= 180 ->
  (180 - m) * PI / 180
  <= Rabs (normalizedDiff
       (direction (ChainLink.pos dc)
          (ChainLink.pos (ChainLink.update this dc d ac m)))
       (anchorOf dc ac)).
Proof.
  intros Hd Hm.
  destruct (bendOf_spec this dc ac m Hm) as (_ & Hbend & _).
  destruct (bend_measured this dc ac d m Hd Hm) as [-> | [Hc ->]].
  - assumption.
  - rewrite Hc, Rabs_Ropp in Hbend. assumption.
Qed.

Lemma degrees_le (m a : R) :
  (180 - m) * PI / 180 <= a -> 180 - m <= degrees a.
Proof.
  intros Ha. pose proof PI_RGT_0 as Hpi. unfold degrees.
  apply Rmult_le_reg_r with (r := PI / 180); [lra |].
  replace ((180 - m) * (PI / 180)) with ((180 - m) * PI / 180)
    by (field; lra).
  etransitivity; [exact Ha |].
  right. field. lra.
Qed.

(** The loop of [BodyBase.update] leaves every link it resolves
    outside the cone of the two links before it. *)
Lemma updateLinks_outsideCone (d m : R) :
  0 < d -> 0 <= m <= 180 ->
  forall rest ac dc,
    chainOutsideCone m ac dc (BodyBase.updateLinks d m ac dc rest).
Proof.
  intros Hd Hm. induction rest as [| l rest IH]; intros ac dc; [exact I |].
  cbn [BodyBase.updateLinks chainOutsideCone]. split.
  - apply degrees_le, bend_large; assumption.
  - apply IH.
Qed.

(** X14.  After [BodyBase.update] with a positive [spacing * scale]
    and [maxAngle] in [[0, 180]], every link from the third on is
    outside the forbidden cone of the two links before it: the bend
    limit holds along the whole chain at once. *)
Lemma BodyBase_update_outsideCone (b : BodyBase.t) (p : Vector2D.t) :
  0 < BodyBase.spacing b * BodyBase.scale b ->
  0 <= BodyBase.maxAngle b <= 180 ->
  chainOutsideCone (BodyBase.maxAngle b)
    (BodyBase.link1 (BodyBase.update b p))
    (BodyBase.link2 (BodyBase.update b p))
    (BodyBase.links (BodyBase.update b p)).
Proof. intros Hd Hm. now apply updateLinks_outsideCone. Qed.

(** C1 (amended).  After [ChainLink.update] with a positive distance
    and [maxAngle] in [[0, 180]], the normalized difference between the
    direction from link[i-1] to the new position of link[i] and the
    direction from link[i-1] to link[i-2] is at least
    [180 - maxAngle] degrees in magnitude. *)
Theorem ChainLink_update_outside_cone
    (this distConstrainer angleConstrainer : ChainLink.t)
    (distance maxAngle : R) :
  0 < distance -> 0 <= maxAngle <= 180 ->
  outsideCone maxAngle angleConstrainer distConstrainer
    (ChainLink.update this distConstrainer distance angleConstrainer maxAngle).
Proof.
  intros Hd Hm. unfold outsideCone.
  fold (anchorOf distConstrainer angleConstrainer).
  apply degrees_le.
  destruct (bendOf_spec this distConstrainer angleConstrainer maxAngle Hm)
    as (_ & Hbend & _).
  destruct (bend_measured this distConstrainer angleConstrainer
              distance maxAngle Hd Hm) as [Hsame | [Hhalf Hpi]].
  - now rewrite Hsame.
  - rewrite Hpi. rewrite Hhalf, Rabs_Ropp in Hbend. exact Hbend.
Qed.

Lemma ChainLink_update_outside_cone_witness :
  0 < 1 /\ 0 <= 90 <= 180
  /\ outsideCone 90 row0 row1 (ChainLink.update row2 row1 1 row0 90).
Proof.
  split; [lra |]. split; [lra |].
  apply (ChainLink_update_outside_cone row2 row1 row0 1 90); lra.
Defined.

(** A straight chain along the x axis stays straight. *)
Lemma straight_chain_stays :
  direction (ChainLink.pos row1)
    (ChainLink.pos (ChainLink.update row2 row1 1 row0 90))
  = 0.
Proof.
  rewrite update_pos. pose proof PI_RGT_0 as Hpi.
  assert (Han : anchorOf row1 row0 = PI)
    by (apply atan2_west; cbn; lra).
  assert (Hcur : direction (ChainLink.pos row1) (ChainLink.pos row2) = 0)
    by (apply atan2_east; cbn; lra).
  assert (Hb : bendOf row2 row1 row0 90 = PI).
  { unfold bendOf. rewrite Han, Hcur.
    unfold ChainLink.wrap.
    destruct (Rgt_dec (0 - PI) PI); [lra |].
    destruct (Rle_dec (0 - PI) (- PI)); [| lra].
    unfold clampDiff.
    destruct (Rlt_dec (0 - PI + 2 * PI) 0); [lra |].
    rewrite Rmax_left by lra. ring. }
  rewrite Han, Hb.
  destruct (direction_addPolar (ChainLink.pos row1) 1 (PI + PI)) as [Hc Hs];
    [lra |].
  apply angle_unique.
  - apply direction_bound.
  - lra.
  - rewrite Hc. replace (PI + PI) with (2 * PI) by ring.
    now rewrite cos_2PI, cos_0.
  - rewrite Hs. replace (PI + PI) with (2 * PI) by ring.
    now rewrite sin_2PI, sin_0.
Qed.

(** C1 as stated fails: on a straight chain the resolved direction
    and the direction from link[i-2] to link[i-1] coincide, so their
    difference is 0 degrees and not at least [180 - 90]. *)
Lemma outsideCone_from_second_last_fails :
  ~ outsideCone_from_second_last 90 row0 row1
      (ChainLink.update row2 row1 1 row0 90).
Proof.
  unfold outsideCone_from_second_last.
  rewrite straight_chain_stays.
  replace (direction (ChainLink.pos row0) (ChainLink.pos row1)) with 0
    by (symmetry; apply atan2_east; cbn; lra).
  pose proof PI_RGT_0.
  unfold normalizedDiff. rewrite wrap_id by lra.
  rewrite Rminus_0_r, Rabs_R0. unfold degrees.
  replace (0 * 180 / PI) with 0 by (field; lra). lra.
Qed.

(* ================================================================= *)
(** ** [BodyBase.update] run twice *)

Lemma shape_eq (l l' : ChainLink.t) :
  shape l = shape l' ->
  ChainLink.radius l = ChainLink.radius l' /\ ChainLink.pos l = ChainLink.pos l'.
Proof. unfold shape. intros H. now inversion H. Qed.

Lemma ChainLink_update_congr (this this' dc dc' ac ac' : ChainLink.t) (d m : R) :
  shape this = shape this' ->
  ChainLink.pos dc = ChainLink.pos dc' ->
  ChainLink.pos ac = ChainLink.pos ac' ->
  ChainLink.update this dc d ac m = ChainLink.update this' dc' d ac' m.
Proof.
  intros Hs Hdc Hac. apply shape_eq in Hs as [Hr Hp].
  unfold ChainLink.update. now rewrite Hr, Hp, Hdc, Hac.
Qed.

Lemma updateLinks_congr (d m : R) (rest rest' : list ChainLink.t) :
  map shape rest = map shape rest' ->
  forall ac ac' dc dc',
    ChainLink.pos ac = ChainLink.pos ac' ->
    ChainLink.pos dc = ChainLink.pos dc' ->
    BodyBase.updateLinks d m ac dc rest = BodyBase.updateLinks d m ac' dc' rest'.
Proof.
  revert rest'. induction rest as [| l rest IH]; intros [| l' rest'] Hmap;
    try discriminate; intros ac ac' dc dc' Hac Hdc.
  - reflexivity.
  - cbn [map] in Hmap.
    assert (Hl : shape l = shape l') by congruence.
    assert (Hrest : map shape rest = map shape rest') by congruence.
    cbn [BodyBase.updateLinks].
    rewrite (ChainLink_update_congr l l' dc dc' ac ac' d m Hl Hdc Hac).
    f_equal. now apply IH.
Qed.

Lemma updateLinks_shape_idem (d m : R) :
  0 < d -> 0 <= m <= 180 ->
  forall rest ac dc,
    map shape (BodyBase.updateLinks d m ac dc (BodyBase.updateLinks d m ac dc rest))
    = map shape (BodyBase.updateLinks d m ac dc rest).
Proof.
  intros Hd Hm. induction rest as [| l rest IH]; intros ac dc; [reflexivity |].
  cbn. set (l' := ChainLink.update l dc d ac m).
  set (l'' := ChainLink.update l' dc d ac m).
  assert (Hl : shape l'' = shape l').
  { unfold shape. f_equal. apply update_pos_idem; assumption. }
  f_equal; [assumption |].
  rewrite (updateLinks_congr d m _ _ eq_refl dc dc l'' l' eq_refl).
  - apply IH.
  - apply shape_eq in Hl. apply Hl.
Qed.

Section BodyUpdate.

Variable b : BodyBase.t.
Variable p : Vector2D.t.
Hypothesis Hd : 0 < BodyBase.spacing b * BodyBase.scale b.
Hypothesis Hm : 0 <= BodyBase.maxAngle b <= 180.

(** The neck of the moved spine points where the call measured it. *)
Lemma second_update_neck :
  Vector2D.angle
    (Vector2D.sub (ChainLink.pos (BodyBase.link2 (BodyBase.update b p))) p)
  = ChainLink.directionAngle (BodyBase.link2 (BodyBase.update b p)).
Proof.
  unfold BodyBase.update.
  cbn [BodyBase.link2 ChainLink.pos ChainLink.directionAngle].
  apply angle_addPolar_eq; [assumption | apply atan2_bound].
Qed.

Lemma second_update_head :
  BodyBase.link1 (BodyBase.update (BodyBase.update b p) p)
  = BodyBase.link1 (BodyBase.update b p)
  /\ BodyBase.link2 (BodyBase.update (BodyBase.update b p) p)
     = BodyBase.link2 (BodyBase.update b p).
Proof.
  pose proof second_update_neck as Hn.
  set (b1 := BodyBase.update b p) in *.
  unfold BodyBase.update at 1 2.
  cbn [BodyBase.link1 BodyBase.link2]. rewrite Hn.
  unfold b1, BodyBase.update.
  cbn [BodyBase.link1 BodyBase.link2 BodyBase.spacing BodyBase.scale
       BodyBase._scale ChainLink.radius ChainLink.directionAngle].
  split; reflexivity.
Qed.

Lemma second_update_links :
  map shape (BodyBase.links (BodyBase.update (BodyBase.update b p) p))
  = map shape (BodyBase.links (BodyBase.update b p)).
Proof.
  pose proof second_update_neck as Hn.
  set (b1 := BodyBase.update b p) in *.
  unfold BodyBase.update at 1.
  cbn [BodyBase.links]. rewrite Hn.
  unfold b1, BodyBase.update.
  cbn [BodyBase.link1 BodyBase.link2 BodyBase.links BodyBase.spacing
       BodyBase.scale BodyBase._scale BodyBase.maxAngle ChainLink.radius
       ChainLink.directionAngle ChainLink.pos].
  apply updateLinks_shape_idem; assumption.
Qed.

End BodyUpdate.

(** [BodyBase.update] reads the radii and the positions of the chain,
    not the direction angles nor the curvature. *)
Lemma BodyBase_update_congr (b b' : BodyBase.t) (p : Vector2D.t) :
  shape (BodyBase.link1 b) = shape (BodyBase.link1 b') ->
  shape (BodyBase.link2 b) = shape (BodyBase.link2 b') ->
  map shape (BodyBase.links b) = map shape (BodyBase.links b') ->
  BodyBase.spacing b = BodyBase.spacing b' ->
  BodyBase.maxAngle b = BodyBase.maxAngle b' ->
  BodyBase.headPoints b = BodyBase.headPoints b' ->
  BodyBase.tailPoints b = BodyBase.tailPoints b' ->
  BodyBase._scale b = BodyBase._scale b' ->
  BodyBase.update b p = BodyBase.update b' p.
Proof.
  intros H1 H2 Hl Hs Hm Hh Ht Hsc.
  apply shape_eq in H1 as [Hr1 _]. apply shape_eq in H2 as [Hr2 Hp2].
  unfold BodyBase.update, BodyBase.scale.
  rewrite Hr1, Hr2, Hp2, Hs, Hm, Hh, Ht, Hsc.
  set (l1 := ChainLink.mk _ _ _). set (l2 := ChainLink.mk _ _ _).
  rewrite (updateLinks_congr _ _ _ _ Hl l1 l1 l2 l2 eq_refl eq_refl).
  reflexivity.
Qed.

(** C3 (amended).  For a positive [spacing * scale] and [maxAngle] in
    [[0, 180]], a second [update] with the same head position leaves
    the position of every link where the first call put it, and a
    third call changes nothing at all.  (The direction angles and the
    curvature are left out: the second call can change them.) *)
Theorem BodyBase_update_settles (b : BodyBase.t) (p : Vector2D.t) :
  0 < BodyBase.spacing b * BodyBase.scale b ->
  0 <= BodyBase.maxAngle b <= 180 ->
  let once := BodyBase.update b p in
  let twice := BodyBase.update once p in
  map ChainLink.pos (BodyBase.chainLinks twice)
  = map ChainLink.pos (BodyBase.chainLinks once)
  /\ BodyBase.update twice p = twice.
Proof.
  intros Hd Hm once twice.
  destruct (second_update_head b p Hd) as [H1 H2].
  pose proof (second_update_links b p Hd Hm) as Hl.
  fold once in H1, H2, Hl. fold twice in H1, H2, Hl.
  split.
  - unfold BodyBase.chainLinks. cbn [map]. rewrite H1, H2. do 2 f_equal.
    apply (f_equal (map snd)) in Hl. rewrite !map_map in Hl. exact Hl.
  - unfold twice at 2. apply BodyBase_update_congr;
      try (now rewrite ?H1, ?H2); try assumption; reflexivity.
Qed.

Lemma BodyBase_update_settles_witness :
  0 < BodyBase.spacing spine3 * BodyBase.scale spine3
  /\ 0 <= BodyBase.maxAngle spine3 <= 180
  /\ map ChainLink.pos
       (BodyBase.chainLinks
          (BodyBase.update (BodyBase.update spine3 spine3_head) spine3_head))
     = map ChainLink.pos
         (BodyBase.chainLinks (BodyBase.update spine3 spine3_head))
  /\ BodyBase.update
       (BodyBase.update (BodyBase.update spine3 spine3_head) spine3_head)
       spine3_head
     = BodyBase.update (BodyBase.update spine3 spine3_head) spine3_head.
Proof.
  assert (Hd : 0 < BodyBase.spacing spine3 * BodyBase.scale spine3).
  { cbn. rewrite Rabs_R1. lra. }
  assert (Hm : 0 <= BodyBase.maxAngle spine3 <= 180) by (cbn; lra).
  split; [exact Hd |]. split; [exact Hm |].
  exact (BodyBase_update_settles spine3 spine3_head Hd Hm).
Defined.

Lemma spine3_neck :
  BodyBase.link2 (BodyBase.update spine3 spine3_head)
  = ChainLink.mk 10 (Vector2D.mk 0 1) (- (PI / 2)).
Proof.
  unfold BodyBase.update, spine3, spine3_head, BodyBase.new, BodyBase.linkAt,
    ChainLink.new, Vector2D.fromObject, BodyBase.scale.
  cbn [BodyBase.link1 BodyBase.link2 BodyBase.links BodyBase.spacing
       BodyBase._scale BodyBase.maxAngle ChainLink.radius ChainLink.pos
       Vector2D.x Vector2D.y INR].
  assert (Ha : Vector2D.angle
                 (Vector2D.sub (Vector2D.mk 0 (0 + 1 * 1)) (Vector2D.mk 0 2))
               = - (PI / 2)).
  { apply atan2_south; cbn; lra. }
  rewrite Ha. unfold Vector2D.addPolar. cbn [Vector2D.x Vector2D.y].
  rewrite cos_neg, sin_neg, cos_PI2, sin_PI2, Rabs_R1.
  f_equal. f_equal; ring.
Qed.

Lemma spine3_skull :
  BodyBase.link1 (BodyBase.update spine3 spine3_head)
  = ChainLink.mk 10 (Vector2D.mk 0 2) (- (PI / 2)).
Proof.
  unfold BodyBase.update, spine3, spine3_head, BodyBase.new, BodyBase.linkAt,
    ChainLink.new, Vector2D.fromObject.
  cbn [BodyBase.link1 BodyBase.link2 ChainLink.radius ChainLink.pos
       Vector2D.x Vector2D.y INR].
  f_equal. apply atan2_south; cbn; lra.
Qed.

Lemma update_links (b : BodyBase.t) (p : Vector2D.t) :
  BodyBase.links (BodyBase.update b p)
  = BodyBase.updateLinks (BodyBase.spacing b * BodyBase.scale b)
      (BodyBase.maxAngle b)
      (BodyBase.link1 (BodyBase.update b p))
      (BodyBase.link2 (BodyBase.update b p)) (BodyBase.links b).
Proof. reflexivity. Qed.

Lemma ChainLink_eq (l : ChainLink.t) (r : R) (p : Vector2D.t) (a : R) :
  ChainLink.radius l = r -> ChainLink.pos l = p ->
  ChainLink.directionAngle l = a -> l = ChainLink.mk r p a.
Proof. destruct l. cbn. now intros -> -> ->. Qed.

(** A link trailing straight behind a neck that points down the y
    axis is folded back onto the head: [update] turns it a quarter
    turn for [maxAngle = 90]. *)
Lemma quarter_turn (a : R) (y : R) :
  y = 2 ->
  ChainLink.update (ChainLink.mk 10 (Vector2D.mk 0 y) a)
    (ChainLink.mk 10 (Vector2D.mk 0 1) (- (PI / 2))) 1
    (ChainLink.mk 10 (Vector2D.mk 0 2) (- (PI / 2))) 90
  = ChainLink.mk 10 (Vector2D.mk (-1) 1) (PI / 2).
Proof.
  intros ->. pose proof PI_RGT_0 as Hpi.
  set (this := ChainLink.mk 10 (Vector2D.mk 0 2) a).
  set (dc := ChainLink.mk 10 (Vector2D.mk 0 1) (- (PI / 2))).
  set (ac := ChainLink.mk 10 (Vector2D.mk 0 2) (- (PI / 2))).
  assert (Hcur : direction (ChainLink.pos dc) (ChainLink.pos this) = PI / 2)
    by (apply atan2_north; cbn; lra).
  assert (Han : anchorOf dc ac = PI / 2)
    by (apply atan2_north; cbn; lra).
  assert (Hb : bendOf this dc ac 90 = PI / 2).
  { unfold bendOf. rewrite Hcur, Han.
    rewrite wrap_id by lra.
    unfold clampDiff. destruct (Rlt_dec (PI / 2 - PI / 2) 0); [lra |].
    rewrite Rmax_right by lra. field. }
  apply ChainLink_eq.
  - reflexivity.
  - rewrite update_pos, Hb, Han. unfold Vector2D.addPolar.
    cbn [ChainLink.pos dc Vector2D.x Vector2D.y].
    replace (PI / 2 + PI / 2) with PI by field.
    rewrite cos_PI, sin_PI. f_equal; ring.
  - exact Hcur.
Qed.

Lemma spine3_links_once :
  BodyBase.links (BodyBase.update spine3 spine3_head)
  = [ChainLink.mk 10 (Vector2D.mk (-1) 1) (PI / 2)].
Proof.
  rewrite update_links, spine3_neck, spine3_skull.
  unfold spine3, BodyBase.new, BodyBase.linkAt, ChainLink.new,
    Vector2D.fromObject, BodyBase.scale.
  cbn [BodyBase.links BodyBase.linksFrom BodyBase.linkAt BodyBase.spacing
       BodyBase._scale BodyBase.maxAngle BodyBase.updateLinks
       Vector2D.x Vector2D.y INR].
  rewrite Rabs_R1, Rmult_1_r.
  f_equal. apply quarter_turn. cbn. ring.
Qed.

Lemma spine3_links_twice :
  BodyBase.links (BodyBase.update (BodyBase.update spine3 spine3_head) spine3_head)
  = [ChainLink.mk 10 (Vector2D.mk (-1) 1) PI].
Proof.
  assert (Hd : 0 < BodyBase.spacing spine3 * BodyBase.scale spine3).
  { cbn. rewrite Rabs_R1. lra. }
  destruct (second_update_head spine3 spine3_head Hd) as [H1 H2].
  rewrite update_links, H1, H2, spine3_neck, spine3_skull, spine3_links_once.
  replace (BodyBase.spacing _ * BodyBase.scale _) with 1
    by (cbn; rewrite Rabs_R1; ring).
  change (BodyBase.maxAngle (BodyBase.update spine3 spine3_head)) with 90.
  cbn [BodyBase.updateLinks]. f_equal.
  set (this := ChainLink.mk 10 (Vector2D.mk (-1) 1) (PI / 2)).
  set (dc := ChainLink.mk 10 (Vector2D.mk 0 1) (- (PI / 2))).
  set (ac := ChainLink.mk 10 (Vector2D.mk 0 2) (- (PI / 2))).
  pose proof PI_RGT_0 as Hpi.
  assert (Hcur : direction (ChainLink.pos dc) (ChainLink.pos this) = PI)
    by (apply atan2_west; cbn; lra).
  assert (Han : anchorOf dc ac = PI / 2)
    by (apply atan2_north; cbn; lra).
  assert (Hb : bendOf this dc ac 90 = PI / 2).
  { unfold bendOf. rewrite Hcur, Han.
    rewrite wrap_id by lra.
    unfold clampDiff. destruct (Rlt_dec (PI - PI / 2) 0); [lra |].
    rewrite Rmax_left by lra. field. }
  apply ChainLink_eq.
  - reflexivity.
  - rewrite update_pos, Hb, Han. unfold Vector2D.addPolar.
    cbn [ChainLink.pos dc Vector2D.x Vector2D.y].
    replace (PI / 2 + PI / 2) with PI by field.
    rewrite cos_PI, sin_PI. f_equal; ring.
  - exact Hcur.
Qed.

(** C3 as stated fails: on the three-link spine with the head moved
    onto the last link, the first call leaves the direction angle of
    the last link at [PI / 2] and the second call sets it to [PI]. *)
Lemma BodyBase_update_twice_differs :
  BodyBase.update (BodyBase.update spine3 spine3_head) spine3_head
  <> BodyBase.update spine3 spine3_head.
Proof.
  intros H. pose proof spine3_links_twice as H2. rewrite H, spine3_links_once in H2.
  injection H2 as H2. pose proof PI_RGT_0. lra.
Qed.

(* ================================================================= *)
(** ** [BodyBase.getTotalCurvature] *)

Lemma clamp_unit (q : number) :
  let c := JsNumber.min (JsNumber.max q (Num (-1))) (Num 1) in
  c = NaN \/ exists r, c = Num r /\ -1 <= r <= 1.
Proof.
  destruct q as [r | | |]; cbn.
  - right. exists (Rmin (Rmax r (-1)) 1). split; [reflexivity |].
    split.
    + apply Rmin_glb; [apply Rmax_r | lra].
    + apply Rmin_r.
  - right. exists 1. split; [reflexivity | lra].
  - right. exists (Rmin (-1) 1). split; [reflexivity |].
    rewrite Rmin_left by lra. lra.
  - now left.
Qed.

Lemma getTotalCurvature_NaN_or_unit (b : BodyBase.t) :
  BodyBase.getTotalCurvature b = NaN
  \/ exists r, BodyBase.getTotalCurvature b = Num r /\ -1 <= r <= 1.
Proof. apply clamp_unit. Qed.

Lemma getTotalCurvatureOf_two_links (maxAngle : R) (link2 : ChainLink.t) :
  BodyBase.getTotalCurvatureOf maxAngle link2 [] = NaN.
Proof.
  unfold BodyBase.getTotalCurvatureOf. cbn [length BodyBase.curvatureLoop].
  replace (maxAngle * (INR (2 + 0) - 2)) with 0 by (cbn; ring).
  unfold JsNumber.div.
  destruct (Req_dec_T 0 0) as [_ | Hne]; [| now contradiction Hne].
  reflexivity.
Qed.

(** X16.  On a spine of three links or more with a [maxAngle] that
    is not zero, [getTotalCurvature] returns a number of
    [[-1, 1]]. *)
Lemma getTotalCurvature_three_links (b : BodyBase.t) :
  BodyBase.links b <> [] -> BodyBase.maxAngle b <> 0 ->
  exists r, BodyBase.getTotalCurvature b = Num r /\ -1 <= r <= 1.
Proof.
  intros Hl Hm. unfold BodyBase.getTotalCurvature, BodyBase.getTotalCurvatureOf.
  set (cur := BodyBase.curvatureLoop _ _ _).
  set (maxC := BodyBase.maxAngle b * _).
  assert (HmaxC : maxC <> 0).
  { unfold maxC. destruct (BodyBase.links b) as [| l rest]; [contradiction |].
    cbn [length]. rewrite plus_INR, !S_INR. change (INR 0) with 0.
    pose proof (pos_INR (length rest)).
    apply Rmult_integral_contrapositive_currified; [assumption | lra]. }
  unfold JsNumber.div. destruct (Req_dec_T maxC 0); [contradiction |].
  destruct (clamp_unit (Num (cur / maxC))) as [Hn | Hr]; [discriminate | exact Hr].
Qed.

(** C4 on the chains where it fails.  On a spine of two links, which
    the constructor builds from a profile of two radii or fewer,
    [getTotalCurvature] divides zero by zero: after any [update] the
    curvature is NaN, not a number of [[-1, 1]]. *)
Theorem getTotalCurvature_two_link_chain (b : BodyBase.t) (p : Vector2D.t) :
  BodyBase.links b = [] ->
  BodyBase.totalCurvature (BodyBase.update b p) = NaN
  /\ BodyBase.getTotalCurvature (BodyBase.update b p) = NaN.
Proof.
  intros Hl.
  assert (Hl' : BodyBase.links (BodyBase.update b p) = []).
  { unfold BodyBase.update. cbn [BodyBase.links]. now rewrite Hl. }
  unfold BodyBase.getTotalCurvature. rewrite Hl'.
  unfold BodyBase.update at 1. cbn [BodyBase.totalCurvature].
  rewrite Hl. cbn [BodyBase.updateLinks].
  split; apply getTotalCurvatureOf_two_links.
Qed.

Lemma getTotalCurvature_two_link_chain_witness :
  BodyBase.links spine2 = []
  /\ BodyBase.totalCurvature (BodyBase.update spine2 Vector2D.Zero) = NaN
  /\ BodyBase.getTotalCurvature (BodyBase.update spine2 Vector2D.Zero) = NaN.
Proof.
  split; [reflexivity |].
  exact (getTotalCurvature_two_link_chain spine2 Vector2D.Zero eq_refl).
Defined.

(* ================================================================= *)
(** ** [getIntercectionPoint] *)

Lemma sum_sqr_nonneg (a b : R) : 0 <= a * a + b * b.
Proof. nra. Qed.

Lemma div_Num (r s : R) : s <> 0 -> (Num r / Num s)%js = Num (r / s).
Proof. intros Hs. unfold JsNumber.div. now destruct (Req_dec_T s 0). Qed.

Lemma zero_by_zero : (Num 0 / Num 0)%js = NaN.
Proof.
  unfold JsNumber.div.
  destruct (Req_dec_T 0 0) as [_ | Hne]; [reflexivity | now contradiction Hne].
Qed.

Lemma centreDistance_nonneg (p1 p2 : Vector2D.t) : 0 <= centreDistance p1 p2.
Proof. apply sqrt_pos. Qed.

(** The array is empty exactly under the guard, and has two entries
    otherwise. *)
Lemma getIntercectionPoint_empty (p1 p2 : Vector2D.t) (r1 r2 : R) :
  Utils.getIntercectionPoint p1 p2 r1 r2 = [] <-> noSolution p1 p2 r1 r2.
Proof.
  unfold Utils.getIntercectionPoint, noSolution. fold (centreDistance p1 p2).
  destruct (Rgt_dec (centreDistance p1 p2) (r1 + r2)) as [Hg | Hg].
  - split; [now left | reflexivity].
  - destruct (Rlt_dec (centreDistance p1 p2) (Rabs (r1 - r2))) as [Hl | Hl].
    + split; [now right | reflexivity].
    + split; [discriminate | intros [H | H]; contradiction].
Qed.

Lemma radii_bounds (p1 p2 : Vector2D.t) (r1 r2 : R) :
  ~ noSolution p1 p2 r1 r2 ->
  Rabs (r1 - r2) <= centreDistance p1 p2 <= r1 + r2.
Proof. unfold noSolution. intros Hsol. split; lra. Qed.

(** Coinciding centres pass the guard only with equal radii; the
    function then divides zero by zero. *)
Lemma getIntercectionPoint_coincident (p1 p2 : Vector2D.t) (r1 r2 : R) :
  ~ noSolution p1 p2 r1 r2 -> centreDistance p1 p2 = 0 ->
  Utils.getIntercectionPoint p1 p2 r1 r2 = [nanPoint; nanPoint].
Proof.
  intros Hsol Hd. destruct (radii_bounds p1 p2 r1 r2 Hsol) as [Hlo Hhi].
  unfold Utils.getIntercectionPoint. fold (centreDistance p1 p2).
  destruct (Rgt_dec (centreDistance p1 p2) (r1 + r2)); [lra |].
  destruct (Rlt_dec (centreDistance p1 p2) (Rabs (r1 - r2))); [lra |].
  rewrite Hd in *.
  assert (Hr : r1 = r2).
  { pose proof (Rabs_pos (r1 - r2)) as Hp.
    assert (Hz : Rabs (r1 - r2) = 0) by lra.
    destruct (Req_dec_T (r1 - r2) 0) as [He | Hne]; [lra |].
    apply Rabs_no_R0 in Hne. contradiction. }
  subst r2. cbv zeta.
  replace (r1 * r1 - r1 * r1 + 0 * 0) with 0 by ring.
  replace (2 * 0) with 0 by ring.
  rewrite zero_by_zero. reflexivity.
Qed.

Lemma nanPoint_nowhere (c : Vector2D.t) (r : R) : ~ jsOnCircle c r nanPoint.
Proof. intros [v [Hv _]]. discriminate. Qed.

(** C2 at its failing input.  For one circle of radius 1 given
    twice the guard does not fire, and the two points returned have
    NaN coordinates: neither lies on the circle. *)
Theorem getIntercectionPoint_same_circle :
  ~ noSolution Vector2D.Zero Vector2D.Zero 1 1
  /\ Utils.getIntercectionPoint Vector2D.Zero Vector2D.Zero 1 1
     = [nanPoint; nanPoint]
  /\ Forall (fun p => ~ jsOnCircle Vector2D.Zero 1 p)
       (Utils.getIntercectionPoint Vector2D.Zero Vector2D.Zero 1 1).
Proof.
  assert (Hd : centreDistance Vector2D.Zero Vector2D.Zero = 0).
  { unfold centreDistance, Vector2D.Zero. cbn [Vector2D.x Vector2D.y].
    replace ((0 - 0) * (0 - 0) + (0 - 0) * (0 - 0)) with 0 by ring.
    apply sqrt_0. }
  assert (Hsol : ~ noSolution Vector2D.Zero Vector2D.Zero 1 1).
  { unfold noSolution. rewrite Hd.
    replace (1 - 1) with 0 by ring. rewrite Rabs_R0. lra. }
  split; [assumption |].
  rewrite (getIntercectionPoint_coincident _ _ 1 1 Hsol Hd).
  split; [reflexivity |].
  repeat constructor; apply nanPoint_nowhere.
Qed.

(* ================================================================= *)
(** ** The bounds of a [Simulation] *)

(** The constructor stores the area C6 describes. *)
Lemma newBoundaries_span (w h m : R) :
  let b := Simulation.newBoundaries w h m in
  Boundaries.left b = - m /\ Boundaries.left b + Boundaries.width b = w + m
  /\ Boundaries.top b = - m /\ Boundaries.top b + Boundaries.height b = h + m.
Proof. cbn. repeat split; ring. Qed.

Lemma setBounds_span {A : Type} (s : Simulation.t A)
    (newWidth newHeight newMargin : R) :
  let b := Simulation.boundaries
             (Simulation.setBounds s newWidth newHeight newMargin) in
  Boundaries.left b = - newMargin
  /\ Boundaries.left b + Boundaries.width b = Rmax 1 newMargin + newMargin
  /\ Boundaries.top b = - newMargin
  /\ Boundaries.top b + Boundaries.height b = Rmax 1 newHeight + newMargin.
Proof. cbn. repeat split; ring. Qed.

(** C6 at its failing input.  [setBounds(800, 600, 50)] takes the
    new width from the margin: the stored area spans [[-50, 100]] on
    the x axis, not [[-50, 850]]; the y axis spans [[-50, 650]]. *)
Theorem setBounds_width_from_margin {A : Type} (s : Simulation.t A) :
  let b := Simulation.boundaries (Simulation.setBounds s 800 600 50) in
  Boundaries.left b = -50 /\ Boundaries.left b + Boundaries.width b = 100
  /\ Boundaries.left b + Boundaries.width b <> 800 + 50
  /\ Boundaries.top b = -50 /\ Boundaries.top b + Boundaries.height b = 650.
Proof.
  destruct (setBounds_span s 800 600 50) as (H1 & H2 & H3 & H4).
  rewrite !Rmax_right in * by lra. cbv zeta.
  repeat split; lra.
Qed.

(* ================================================================= *)
(** ** [Leg3Joint.update] on a resting leg *)

Lemma Leg3Joint_update_sticked (link : ChainLink.t) (leg : Leg3Joint.t) :
  Leg3Joint.sticked leg = true -> footWithinReach link leg ->
  Leg3Joint.sticked (Leg3Joint.update link leg) = true
  /\ Leg3Joint.joints2 (Leg3Joint.update link leg) = Leg3Joint.joints2 leg.
Proof.
  intros Hs Hr. unfold footWithinReach in Hr. destruct leg.
  unfold Leg3Joint.update, Leg3Joint.setTargetPoint, Leg3Joint.setSticked,
    Leg3Joint.setJoints0, Leg3Joint.setJoints1, Leg3Joint.scale in *.
  cbn [Leg3Joint.sticked Leg3Joint.joints2 Leg3Joint.targetPoint
       Leg3Joint.maxDifference Leg3Joint._scale] in *.
  subst sticked.
  destruct (Rgt_dec _ _) as [Hgt | _]; [lra |].
  cbn [Leg3Joint.sticked Leg3Joint.joints2 negb]. split; reflexivity.
Qed.

(** What a call of [update] leaves of a sticked leg within reach: the
    shoulder on its anchor, the configuration as it was. *)
Lemma Leg3Joint_update_resting (link : ChainLink.t) (leg : Leg3Joint.t) :
  Leg3Joint.sticked leg = true -> footWithinReach link leg ->
  Leg3Joint.joints0 (Leg3Joint.update link leg)
  = Leg3Joint.evalConnPoint link leg
  /\ Leg3Joint.evalConnPoint link (Leg3Joint.update link leg)
     = Leg3Joint.evalConnPoint link leg
  /\ (Leg3Joint.joints0 leg = Leg3Joint.evalConnPoint link leg ->
      Leg3Joint.evalTargetPoint link (Leg3Joint.update link leg)
      = Leg3Joint.evalTargetPoint link leg)
  /\ Leg3Joint.maxDifference (Leg3Joint.update link leg)
     * Leg3Joint.scale (Leg3Joint.update link leg)
     = Leg3Joint.maxDifference leg * Leg3Joint.scale leg.
Proof.
  intros Hs Hr. unfold footWithinReach in Hr. destruct leg.
  unfold Leg3Joint.update, Leg3Joint.setTargetPoint, Leg3Joint.setSticked,
    Leg3Joint.setJoints0, Leg3Joint.setJoints1, Leg3Joint.evalConnPoint,
    Leg3Joint.evalTargetPoint, Leg3Joint.scale in *.
  cbn [Leg3Joint.sticked Leg3Joint.joints0 Leg3Joint.joints2
       Leg3Joint.targetPoint Leg3Joint.maxDifference Leg3Joint._scale
       Leg3Joint.shoulderWidth Leg3Joint.anchorDistance Leg3Joint.anchorAngle
       Leg3Joint.isShoulderRight] in *.
  subst sticked. destruct (Rgt_dec _ _) as [Hgt | _]; [lra |].
  cbn [Leg3Joint.sticked Leg3Joint.joints0 Leg3Joint.joints2
       Leg3Joint.maxDifference Leg3Joint._scale Leg3Joint.shoulderWidth
       Leg3Joint.anchorDistance Leg3Joint.anchorAngle
       Leg3Joint.isShoulderRight negb].
  repeat split; try reflexivity. now intros ->.
Qed.

(** With the link held still the target settles after one call: the
    reach has to be checked on the first two calls only. *)
Lemma Leg3Joint_reach_settles (link : ChainLink.t) (k : nat) :
  forall leg,
    Leg3Joint.sticked leg = true ->
    Leg3Joint.joints0 leg = Leg3Joint.evalConnPoint link leg ->
    footWithinReach link leg ->
    footWithinReach link (Leg3Joint.updates k link leg).
Proof.
  induction k as [| k IH]; intros leg Hs Hj Hr; [exact Hr |].
  cbn [Leg3Joint.updates].
  destruct (Leg3Joint_update_sticked link leg Hs Hr) as [Hs1 Hf1].
  destruct (Leg3Joint_update_resting link leg Hs Hr) as (J0 & C0 & T0 & M0).
  apply IH.
  - exact Hs1.
  - now rewrite J0, C0.
  - unfold footWithinReach in *. now rewrite Hf1, (T0 Hj), M0.
Qed.

(** A sticked leg with its shoulder on the anchor and its foot within
    reach stays as it is. *)
Lemma settled_sticked (link : ChainLink.t) (n : nat) :
  forall leg,
    Leg3Joint.sticked leg = true ->
    Leg3Joint.joints0 leg = Leg3Joint.evalConnPoint link leg ->
    footWithinReach link leg ->
    Leg3Joint.sticked (Leg3Joint.updates n link leg) = true
    /\ Leg3Joint.joints2 (Leg3Joint.updates n link leg) = Leg3Joint.joints2 leg.
Proof.
  induction n as [| n IH]; intros leg Hs Hj Hr; [now split |].
  cbn [Leg3Joint.updates].
  destruct (Leg3Joint_update_sticked link leg Hs Hr) as [Hs1 Hf1].
  destruct (Leg3Joint_update_resting link leg Hs Hr) as (J0 & C0 & T0 & M0).
  destruct (IH (Leg3Joint.update link leg)) as [A B].
  - exact Hs1.
  - now rewrite J0, C0.
  - unfold footWithinReach in *. now rewrite Hf1, (T0 Hj), M0.
  - split; [exact A | congruence].
Qed.

(** X22.  With the parent link held still, a sticked leg whose foot
    is within reach of the target at the first two calls of [update]
    stays sticked through any number of calls, and its foot is never
    moved: the target settles after one call. *)
Lemma Leg3Joint_two_checks (link : ChainLink.t) (leg : Leg3Joint.t) (n : nat) :
  Leg3Joint.sticked leg = true ->
  footWithinReach link leg ->
  footWithinReach link (Leg3Joint.update link leg) ->
  Leg3Joint.sticked (Leg3Joint.updates n link leg) = true
  /\ Leg3Joint.joints2 (Leg3Joint.updates n link leg) = Leg3Joint.joints2 leg.
Proof.
  intros Hs Hr Hr'. destruct n as [| n]; [now split |].
  cbn [Leg3Joint.updates].
  destruct (Leg3Joint_update_sticked link leg Hs Hr) as [Hs1 Hf1].
  destruct (Leg3Joint_update_resting link leg Hs Hr) as (J0 & C0 & _).
  destruct (settled_sticked link n (Leg3Joint.update link leg)) as [A B];
    [exact Hs1 | now rewrite J0, C0 | exact Hr' |].
  split; [exact A | congruence].
Qed.

(** C7.  With the parent link held still, a leg that is sticked and
    whose foot is within [maxDifference * scale] of the target at
    every call stays sticked through any number of calls of [update],
    and its foot [joints[2]] is never moved. *)
Theorem Leg3Joint_stays_sticked (link : ChainLink.t) (leg : Leg3Joint.t) (n : nat) :
  Leg3Joint.sticked leg = true ->
  (forall k, (k < n)%nat -> footWithinReach link (Leg3Joint.updates k link leg)) ->
  Leg3Joint.sticked (Leg3Joint.updates n link leg) = true
  /\ Leg3Joint.joints2 (Leg3Joint.updates n link leg) = Leg3Joint.joints2 leg.
Proof.
  revert leg. induction n as [| n IH]; intros leg Hs Hr; [now split |].
  cbn [Leg3Joint.updates].
  destruct (Leg3Joint_update_sticked link leg Hs (Hr 0%nat (Nat.lt_0_succ n)))
    as [Hs' Hj].
  destruct (IH (Leg3Joint.update link leg) Hs') as [Hs'' Hj'].
  - intros k Hk. apply (Hr (S k)). lia.
  - split; [assumption | congruence].
Qed.

(* ================================================================= *)
(** ** [RipplesManager] *)

Lemma remove_length (i : nat) (l : list RipplesManager.instance) :
  (length (RipplesManager.remove i l) <= length l)%nat.
Proof.
  induction l as [| e l IH]; cbn; [lia |].
  destruct (Nat.eqb _ i); cbn; lia.
Qed.

Lemma run_bounded (m : RipplesManager.t) (c : RipplesManager.call) :
  (length (RipplesManager.points m) <= RipplesManager.maxRipples m)%nat ->
  (length (RipplesManager.points (RipplesManager.run m c))
   <= RipplesManager.maxRipples (RipplesManager.run m c))%nat.
Proof.
  intros Hm. destruct c as [point now | i]; cbn.
  - unfold RipplesManager.addPoint.
    destruct (Nat.leb_spec (RipplesManager.maxRipples m)
                (length (RipplesManager.points m))); [assumption |].
    cbn. rewrite length_app. cbn. lia.
  - pose proof (remove_length i (RipplesManager.points m)). lia.
Qed.

Lemma runAll_bounded (calls : list RipplesManager.call) (m : RipplesManager.t) :
  (length (RipplesManager.points m) <= RipplesManager.maxRipples m)%nat ->
  (length (RipplesManager.points (RipplesManager.runAll m calls))
   <= RipplesManager.maxRipples (RipplesManager.runAll m calls))%nat.
Proof.
  revert m. induction calls as [| c calls IH]; intros m Hm; [assumption |].
  cbn. apply IH, run_bounded, Hm.
Qed.

Lemma run_maxRipples (m : RipplesManager.t) (c : RipplesManager.call) :
  RipplesManager.maxRipples (RipplesManager.run m c) = RipplesManager.maxRipples m.
Proof.
  destruct c; cbn; [| reflexivity].
  unfold RipplesManager.addPoint. now destruct (_ <=? _)%nat.
Qed.

Lemma runAll_maxRipples (calls : list RipplesManager.call) (m : RipplesManager.t) :
  RipplesManager.maxRipples (RipplesManager.runAll m calls)
  = RipplesManager.maxRipples m.
Proof.
  revert m. induction calls as [| c calls IH]; intros m; [reflexivity |].
  change (RipplesManager.runAll m (c :: calls))
    with (RipplesManager.runAll (RipplesManager.run m c) calls).
  now rewrite IH, run_maxRipples.
Qed.

(** C8.  After any sequence of [addPoint] and [removePoint] calls on
    a new manager the collection holds at most [maxRipples] points,
    and [addPoint] on a full collection changes nothing. *)
Theorem RipplesManager_capacity (maxRipples : nat) (delay : R)
    (calls : list RipplesManager.call) (point : Vector2D.t) (now : R) :
  let m := RipplesManager.runAll (RipplesManager.new maxRipples delay) calls in
  (length (RipplesManager.points m) <= maxRipples)%nat
  /\ (length (RipplesManager.points m) = maxRipples ->
      RipplesManager.addPoint m point now = m).
Proof.
  intros m.
  assert (Hmax : RipplesManager.maxRipples m = maxRipples)
    by apply runAll_maxRipples.
  split.
  - rewrite <- Hmax. apply runAll_bounded. cbn. lia.
  - intros Hfull. unfold RipplesManager.addPoint. rewrite Hmax, Hfull.
    now rewrite Nat.leb_refl.
Qed.

(* ================================================================= *)
(** ** [Boid.applyForce] *)

Lemma magnitude_sub (v w : Vector2D.t) :
  Vector2D.magnitude (Vector2D.sub v w) = Vector2D.distance v w.
Proof. reflexivity. Qed.

Lemma magnitude_nonneg (v : Vector2D.t) : 0 <= Vector2D.magnitude v.
Proof. apply sqrt_pos. Qed.

Lemma magnitude_sqr (v : Vector2D.t) :
  Vector2D.magnitude v * Vector2D.magnitude v
  = Vector2D.x v * Vector2D.x v + Vector2D.y v * Vector2D.y v.
Proof. apply sqrt_sqrt. nra. Qed.

(** The magnitude setter scales the unit vector. *)
Lemma setMagnitude_unit (v : Vector2D.t) (m : R) :
  Vector2D.setMagnitude v m = Vector2D.scale (Vector2D.unit v) m.
Proof.
  unfold Vector2D.setMagnitude, Vector2D.unit, Vector2D.magnitude, Vector2D.scale.
  destruct (Req_dec_T _ 0); cbn [Vector2D.x Vector2D.y]; f_equal; ring.
Qed.

Lemma scaled_unit_magnitude (v : Vector2D.t) (m : R) :
  Vector2D.magnitude v <> 0 ->
  Vector2D.magnitude (Vector2D.scale (Vector2D.unit v) m) = Rabs m.
Proof.
  intros Hv. pose proof (magnitude_nonneg v) as Hn.
  pose proof (magnitude_sqr v) as Hs.
  unfold Vector2D.unit. destruct (Req_dec_T _ 0); [contradiction |].
  set (d := Vector2D.magnitude v) in *.
  unfold Vector2D.scale, Vector2D.magnitude. cbn [Vector2D.x Vector2D.y].
  replace (Vector2D.x v / d * m * (Vector2D.x v / d * m)
           + Vector2D.y v / d * m * (Vector2D.y v / d * m))
    with ((Vector2D.x v * Vector2D.x v + Vector2D.y v * Vector2D.y v)
          / (d * d) * m²)
    by (unfold Rsqr; field; assumption).
  rewrite <- Hs.
  replace (d * d / (d * d) * m²) with (m²) by (field; assumption).
  apply sqrt_Rsqr_abs.
Qed.

(** The test of the radius, on the distance in coordinates. *)
Lemma applyForce_tooFar {A : Type} (b : Boid.t A) (p : Vector2D.t) (s : R)
    (radius : option R) :
  let dx := Vector2D.x (Boid.position b) - Vector2D.x p in
  let dy := Vector2D.y (Boid.position b) - Vector2D.y p in
  let d := sqrt (dx * dx + dy * dy) in
  Boid.applyForce b p s radius
  = if match radius with
       | Some r => if Rgt_dec d r then true else false
       | None => false
       end
    then b
    else
      Boid.mk (Boid.position b) (Boid.velocity b)
        (Vector2D.add (Boid.acceleration b)
           (Vector2D.setMagnitude (Vector2D.sub (Boid.position b) p)
              (1 / d * s)))
        (Boid.animal b).
Proof. reflexivity. Qed.

(** The length of the unit vector along [(dx, dy)], scaled by [k]. *)
Lemma scaled_direction_length (dx dy k : R) :
  let d := sqrt (dx * dx + dy * dy) in
  d <> 0 ->
  sqrt (dx / d * k * (dx / d * k) + dy / d * k * (dy / d * k)) = Rabs k.
Proof.
  intros d Hd.
  assert (Hdd : d * d = dx * dx + dy * dy) by apply sqrt_sqrt, sum_sqr_nonneg.
  replace (dx / d * k * (dx / d * k) + dy / d * k * (dy / d * k))
    with ((dx * dx + dy * dy) / (d * d) * k²)
    by (unfold Rsqr; field; exact Hd).
  rewrite <- Hdd.
  replace (d * d / (d * d) * k²) with (k²) by (field; exact Hd).
  apply sqrt_Rsqr_abs.
Qed.

(** C9 (amended).  [applyForce(p, s, r)] leaves the boid as it is when
    [r] is given and the distance [d] from [p] to the boid exceeds it.
    Otherwise position, velocity and animal stay, and the acceleration
    changes as follows.  At [d = 0] nothing is added.  At [d > 0] the
    vector [((x - px) / d * (s / d), (y - py) / d * (s / d))] is
    added, coordinate by coordinate: the unit vector from [p] to the
    boid times [s / d].  Its magnitude is [|s| / d]: that is [s / d]
    when [s] is not negative, and for a negative [s] the vector points
    from the boid to [p]. *)
Theorem Boid_applyForce_spec {A : Type}
    (b : Boid.t A) (p : Vector2D.t) (s : R) (radius : option R) :
  let dx := Vector2D.x (Boid.position b) - Vector2D.x p in
  let dy := Vector2D.y (Boid.position b) - Vector2D.y p in
  let d := sqrt (dx * dx + dy * dy) in
  let fx := dx / d * (s / d) in
  let fy := dy / d * (s / d) in
  let b' := Boid.applyForce b p s radius in
  (forall r, radius = Some r -> d > r -> b' = b)
  /\ ((radius = None \/ exists r, radius = Some r /\ d <= r) ->
      Boid.position b' = Boid.position b
      /\ Boid.velocity b' = Boid.velocity b
      /\ Boid.animal b' = Boid.animal b
      /\ (d = 0 -> Boid.acceleration b' = Boid.acceleration b)
      /\ (d <> 0 ->
          Boid.acceleration b'
          = Vector2D.mk (Vector2D.x (Boid.acceleration b) + fx)
                        (Vector2D.y (Boid.acceleration b) + fy)
          /\ sqrt (fx * fx + fy * fy) = Rabs s / d
          /\ (0 <= s -> sqrt (fx * fx + fy * fy) = s / d))).
Proof.
  intros dx dy d fx fy b'. unfold b'.
  rewrite (applyForce_tooFar b p s radius). cbv zeta. fold dx dy. fold d.
  split.
  - intros r -> Hr. destruct (Rgt_dec d r); [reflexivity | contradiction].
  - intros Hnear.
    assert (Htest :
      match radius with
      | Some r => if Rgt_dec d r then true else false
      | None => false
      end = false).
    { destruct Hnear as [-> | [r [-> Hr]]]; [reflexivity |].
      destruct (Rgt_dec d r); [lra | reflexivity]. }
    rewrite Htest.
    cbn [Boid.position Boid.velocity Boid.animal Boid.acceleration].
    split; [reflexivity |]. split; [reflexivity |]. split; [reflexivity |].
    unfold Vector2D.setMagnitude, Vector2D.sub, Vector2D.add.
    cbn [Vector2D.x Vector2D.y]. fold dx dy. fold d.
    destruct (Req_dec_T d 0) as [Hz | Hnz].
    + split; [| intros Hn; contradiction].
      intros _. cbn [Vector2D.x Vector2D.y].
      destruct (Boid.acceleration b) as [ax ay]. cbn [Vector2D.x Vector2D.y].
      f_equal; ring.
    + split; [intros Hz; contradiction |]. intros _.
      assert (Hpos : 0 < d).
      { pose proof (sqrt_pos (dx * dx + dy * dy)) as Hp. fold d in Hp. lra. }
      assert (Hlen : sqrt (fx * fx + fy * fy) = Rabs s / d).
      { unfold fx, fy.
        pose proof (scaled_direction_length dx dy (s / d) Hnz) as L.
        cbv zeta in L. fold d in L. rewrite L.
        unfold Rdiv. rewrite Rabs_mult, (Rabs_pos_eq (/ d)); [reflexivity |].
        left. now apply Rinv_0_lt_compat. }
      split; [| split].
      * cbn [Vector2D.x Vector2D.y]. unfold fx, fy.
        f_equal; unfold Rdiv; ring.
      * exact Hlen.
      * intros Hs. rewrite Hlen, Rabs_pos_eq by exact Hs. reflexivity.
Qed.

(* ================================================================= *)
(** ** [Boid.update] and [Simulation.update] *)

(** C10.  [update] with a falsy [deltaTime] returns the boid
    unchanged (position, velocity, acceleration, animal) and calls the
    animal's [update] not once. *)
Theorem Boid_update_falsy {A : Type} `{Animal A}
    (b : Boid.t A) (deltaTime : option R) (params : SimulationParams.t) :
  Boid.falsy deltaTime = true ->
  Boid.update b deltaTime params = (b, []).
Proof.
  unfold Boid.falsy, Boid.update. destruct deltaTime as [dt |]; [| reflexivity].
  destruct (Req_dec_T dt 0); [reflexivity | discriminate].
Qed.

Section Ticks.

Context {A : Type} `{Animal A}.








End Ticks.


(* ================================================================= *)
(** ** The properties at concrete inputs *)

Lemma addPolar_zero (p : Vector2D.t) (s a : R) :
  Vector2D.addPolar p (0 * s) a = p.
Proof. destruct p. unfold Vector2D.addPolar. cbn. f_equal; ring. Qed.

Lemma distance_self (p : Vector2D.t) : Vector2D.distance p p = 0.
Proof.
  unfold Vector2D.distance.
  replace ((Vector2D.x p - Vector2D.x p) * (Vector2D.x p - Vector2D.x p)
           + (Vector2D.y p - Vector2D.y p) * (Vector2D.y p - Vector2D.y p))
    with 0 by ring.
  apply sqrt_0.
Qed.

Lemma restingLeg_settled :
  Leg3Joint.joints0 restingLeg = Leg3Joint.evalConnPoint restingLink restingLeg.
Proof.
  unfold Leg3Joint.evalConnPoint, restingLeg, restingLink.
  cbn [Leg3Joint.shoulderWidth Leg3Joint.joints0 ChainLink.pos].
  now rewrite addPolar_zero.
Qed.

Lemma restingLeg_reach : footWithinReach restingLink restingLeg.
Proof.
  unfold footWithinReach, Leg3Joint.evalTargetPoint, restingLeg, restingLink,
    Leg3Joint.scale.
  cbn [Leg3Joint.joints0 Leg3Joint.joints2 Leg3Joint.anchorDistance
       Leg3Joint.maxDifference Leg3Joint._scale].
  rewrite addPolar_zero, distance_self. lra.
Qed.

Lemma Leg3Joint_stays_sticked_witness :
  Leg3Joint.sticked restingLeg = true
  /\ (forall k, (k < 3)%nat ->
        footWithinReach restingLink (Leg3Joint.updates k restingLink restingLeg))
  /\ Leg3Joint.sticked (Leg3Joint.updates 3 restingLink restingLeg) = true
  /\ Leg3Joint.joints2 (Leg3Joint.updates 3 restingLink restingLeg)
     = Leg3Joint.joints2 restingLeg.
Proof.
  assert (Hr : forall k, (k < 3)%nat ->
            footWithinReach restingLink
              (Leg3Joint.updates k restingLink restingLeg)).
  { intros k _. apply Leg3Joint_reach_settles;
      [reflexivity | exact restingLeg_settled | exact restingLeg_reach]. }
  split; [reflexivity |]. split; [exact Hr |].
  exact (Leg3Joint_stays_sticked restingLink restingLeg 3 eq_refl Hr).
Defined.

Lemma RipplesManager_capacity_witness :
  length (RipplesManager.points
            (RipplesManager.runAll (RipplesManager.new 1 600)
               [RipplesManager.AddPoint (Vector2D.mk 1 1) 0])) = 1%nat
  /\ RipplesManager.addPoint
       (RipplesManager.runAll (RipplesManager.new 1 600)
          [RipplesManager.AddPoint (Vector2D.mk 1 1) 0])
       (Vector2D.mk 2 2) 5
     = RipplesManager.runAll (RipplesManager.new 1 600)
         [RipplesManager.AddPoint (Vector2D.mk 1 1) 0].
Proof.
  split; [reflexivity |].
  exact (proj2 (RipplesManager_capacity 1 600
                  [RipplesManager.AddPoint (Vector2D.mk 1 1) 0]
                  (Vector2D.mk 2 2) 5) eq_refl).
Defined.

Lemma loneBoid_distance :
  Vector2D.distance (Boid.position loneBoid) Vector2D.Zero = 2.
Proof.
  unfold Vector2D.distance, loneBoid, Vector2D.Zero.
  cbn [Boid.position Vector2D.x Vector2D.y].
  replace ((2 - 0) * (2 - 0) + (0 - 0) * (0 - 0)) with (2 * 2) by ring.
  apply sqrt_square. lra.
Qed.

Lemma loneBoid_offset :
  sqrt ((Vector2D.x (Boid.position loneBoid) - Vector2D.x Vector2D.Zero)
        * (Vector2D.x (Boid.position loneBoid) - Vector2D.x Vector2D.Zero)
        + (Vector2D.y (Boid.position loneBoid) - Vector2D.y Vector2D.Zero)
          * (Vector2D.y (Boid.position loneBoid) - Vector2D.y Vector2D.Zero))
  = 2.
Proof. exact loneBoid_distance. Qed.

Lemma Boid_applyForce_spec_witness :
  Boid.applyForce loneBoid Vector2D.Zero 4 (Some 1) = loneBoid
  /\ Boid.acceleration (Boid.applyForce loneBoid Vector2D.Zero 4 (Some 3))
     = Vector2D.mk 2 0.
Proof.
  pose proof loneBoid_offset as Hd.
  split.
  - apply (proj1 (Boid_applyForce_spec loneBoid Vector2D.Zero 4 (Some 1)) 1);
      [reflexivity | rewrite Hd; lra].
  - destruct (Boid_applyForce_spec loneBoid Vector2D.Zero 4 (Some 3))
      as (_ & Hnear).
    destruct Hnear as (_ & _ & _ & _ & Hadd).
    { right. exists 3. split; [reflexivity | rewrite Hd; lra]. }
    destruct Hadd as (Hacc & _); [rewrite Hd; lra |].
    rewrite Hacc, Hd. cbn [loneBoid Boid.position Boid.acceleration
                           Vector2D.Zero Vector2D.x Vector2D.y].
    f_equal; field.
Defined.

(** The acceleration of [loneBoid] after [applyForce] from the origin
    with the scale [-4], and from its own position with the scale 4. *)
Lemma loneBoid_pulled :
  Boid.acceleration (Boid.applyForce loneBoid Vector2D.Zero (-4) None)
  = Vector2D.mk (-2) 0.
Proof.
  rewrite (applyForce_tooFar loneBoid Vector2D.Zero (-4) None). cbv zeta.
  rewrite loneBoid_offset. cbn [Boid.acceleration].
  unfold Vector2D.setMagnitude, Vector2D.sub, Vector2D.add.
  cbn [Vector2D.x Vector2D.y]. rewrite loneBoid_offset.
  destruct (Req_dec_T 2 0) as [H2 | _]; [lra |].
  cbn [loneBoid Boid.position Boid.acceleration Vector2D.Zero
       Vector2D.x Vector2D.y].
  f_equal; field.
Qed.

Lemma loneBoid_on_the_point :
  Boid.acceleration (Boid.applyForce loneBoid (Vector2D.mk 2 0) 4 None)
  = Vector2D.mk 0 0.
Proof.
  rewrite (applyForce_tooFar loneBoid (Vector2D.mk 2 0) 4 None). cbv zeta.
  cbn [Boid.acceleration].
  unfold Vector2D.setMagnitude, Vector2D.sub, Vector2D.add.
  cbn [loneBoid Boid.position Boid.acceleration Vector2D.x Vector2D.y].
  replace ((2 - 2) * (2 - 2) + (0 - 0) * (0 - 0)) with 0 by ring.
  rewrite sqrt_0.
  destruct (Req_dec_T 0 0) as [_ | H0]; [| now contradiction H0].
  cbn [Vector2D.x Vector2D.y]. f_equal; ring.
Qed.

(** C9 as it was stated.  With the scale [-4] the boid at [(2, 0)]
    receives from the origin the vector [(-2, 0)], of magnitude 2 and
    not [-4 / 2]; with the scale 4 it receives from its own position
    the zero vector, of magnitude 0 and not [4 / 0]. *)
Lemma applyForce_magnitude_fails :
  ~ rescaled_to_s_over_d loneBoid Vector2D.Zero (-4)
  /\ ~ rescaled_to_s_over_d loneBoid (Vector2D.mk 2 0) 4.
Proof.
  split.
  - unfold rescaled_to_s_over_d. cbv zeta. rewrite loneBoid_offset.
    unfold addedForce. rewrite loneBoid_pulled.
    cbn [loneBoid Boid.acceleration Vector2D.x Vector2D.y].
    replace ((-2 - 0) * (-2 - 0) + (0 - 0) * (0 - 0)) with (2 * 2) by ring.
    rewrite sqrt_square by lra. rewrite div_Num by lra.
    intros H. injection H as H. lra.
  - unfold rescaled_to_s_over_d. cbv zeta.
    unfold addedForce. rewrite loneBoid_on_the_point.
    cbn [loneBoid Boid.position Boid.acceleration Vector2D.x Vector2D.y].
    replace ((2 - 2) * (2 - 2) + (0 - 0) * (0 - 0)) with 0 by ring.
    replace ((0 - 0) * (0 - 0) + (0 - 0) * (0 - 0)) with 0 by ring.
    rewrite sqrt_0. unfold JsNumber.div.
    destruct (Req_dec_T 0 0) as [_ | H0]; [| now contradiction H0].
    destruct (Req_dec_T 4 0) as [H4 | _]; [lra |].
    destruct (Rlt_dec 0 4) as [_ | H4]; [discriminate | lra].
Qed.

Lemma zero_falsy : Boid.falsy (Some 0) = true.
Proof.
  unfold Boid.falsy. destruct (Req_dec_T 0 0) as [_ | Hne];
    [reflexivity | now contradiction Hne].
Qed.


Lemma Boid_update_falsy_witness :
  Boid.falsy (Some 0) = true
  /\ Boid.update loneBoid (Some 0) SimulationParams.default = (loneBoid, []).
Proof.
  split; [exact zero_falsy |].
  exact (Boid_update_falsy loneBoid (Some 0) SimulationParams.default zero_falsy).
Defined.



(* ================================================================= *)
(** ** [Vector2D]: polar form, magnitude and distance *)

Lemma magnitude_polar (a m : R) :
  Vector2D.magnitude (Vector2D.mk (m * cos a) (m * sin a)) = Rabs m.
Proof.
  unfold Vector2D.magnitude. cbn [Vector2D.x Vector2D.y].
  replace (m * cos a * (m * cos a) + m * sin a * (m * sin a))
    with (m² * ((sin a)² + (cos a)²)) by (unfold Rsqr; ring).
  rewrite sin2_cos2, Rmult_1_r. apply sqrt_Rsqr_abs.
Qed.

Lemma angle_polar (a m : R) :
  0 < m -> - PI < a <= PI ->
  Vector2D.angle (Vector2D.mk (m * cos a) (m * sin a)) = a.
Proof.
  intros Hm Ha.
  pose proof (angle_addPolar_eq Vector2D.Zero m a Hm Ha) as E.
  unfold Vector2D.addPolar, Vector2D.sub, Vector2D.Zero in E.
  cbn [Vector2D.x Vector2D.y] in E.
  replace (0 + m * cos a - 0) with (m * cos a) in E by ring.
  replace (0 + m * sin a - 0) with (m * sin a) in E by ring.
  exact E.
Qed.

(** X1.  [fromPolar] and the getters [magnitude] and [angle] are
    inverse to each other: for a positive magnitude [m] and an angle
    [a] in [(-PI, PI]], the vector [fromPolar(a, m)] has magnitude [m]
    and angle [a]. *)
Theorem Vector2D_polar_round_trip (a m : R) :
  0 < m -> - PI < a <= PI ->
  Vector2D.magnitude (Vector2D.fromPolar a m) = m
  /\ Vector2D.angle (Vector2D.fromPolar a m) = a.
Proof.
  intros Hm Ha. unfold Vector2D.fromPolar. split.
  - rewrite magnitude_polar. apply Rabs_pos_eq. lra.
  - now apply angle_polar.
Qed.

Lemma polar_form (v : Vector2D.t) :
  Vector2D.mk (Vector2D.magnitude v * cos (Vector2D.angle v))
              (Vector2D.magnitude v * sin (Vector2D.angle v)) = v.
Proof.
  destruct v as [x y]. unfold Vector2D.magnitude, Vector2D.angle.
  cbn [Vector2D.x Vector2D.y].
  destruct (atan2_polar y x) as [Hx Hy]. now rewrite <- Hx, <- Hy.
Qed.

(** X2.  Every vector is the polar form of its own [angle] and
    [magnitude]: [fromPolar(v.angle, v.magnitude)] is [v], and so is
    [v] after [v.angle = v.angle].  The angle is in [(-PI, PI]] and
    the magnitude is not negative. *)
Theorem Vector2D_polar_decomposition (v : Vector2D.t) :
  Vector2D.fromPolar (Vector2D.angle v) (Vector2D.magnitude v) = v
  /\ Vector2D.setAngle v (Vector2D.angle v) = v
  /\ - PI < Vector2D.angle v <= PI
  /\ 0 <= Vector2D.magnitude v.
Proof.
  split; [apply polar_form |]. split; [apply polar_form |].
  split; [apply atan2_bound | apply magnitude_nonneg].
Qed.

Lemma magnitude_zero_iff (v : Vector2D.t) :
  Vector2D.magnitude v = 0 <-> v = Vector2D.Zero.
Proof.
  destruct v as [x y]. unfold Vector2D.magnitude, Vector2D.Zero.
  cbn [Vector2D.x Vector2D.y]. split.
  - intros H. apply sqrt_eq_0 in H; [| nra].
    assert (x = 0) by nra. assert (y = 0) by nra. now subst.
  - intros H. injection H as -> ->.
    replace (0 * 0 + 0 * 0) with 0 by ring. apply sqrt_0.
Qed.

Lemma magnitude_Zero : Vector2D.magnitude (Vector2D.mk 0 0) = 0.
Proof. now apply magnitude_zero_iff. Qed.

(** X3.  The setter [magnitude = m] gives a vector that is not zero
    the magnitude [|m|], and leaves the zero vector zero whatever [m]
    is; [unit()] has magnitude 1, and 0 on the zero vector.  The
    setter is [unit()] scaled by [m]. *)
Theorem Vector2D_setMagnitude_spec (v : Vector2D.t) (m : R) :
  Vector2D.magnitude (Vector2D.setMagnitude v m)
  = (if Req_dec_T (Vector2D.magnitude v) 0 then 0 else Rabs m)
  /\ Vector2D.magnitude (Vector2D.unit v)
     = (if Req_dec_T (Vector2D.magnitude v) 0 then 0 else 1)
  /\ Vector2D.setMagnitude v m = Vector2D.scale (Vector2D.unit v) m.
Proof.
  split; [| split; [| apply setMagnitude_unit]].
  - rewrite setMagnitude_unit.
    destruct (Req_dec_T (Vector2D.magnitude v) 0) as [Hz | Hnz].
    + unfold Vector2D.unit.
      destruct (Req_dec_T (Vector2D.magnitude v) 0); [| contradiction].
      unfold Vector2D.scale. cbn [Vector2D.x Vector2D.y].
      rewrite !Rmult_0_l. apply magnitude_Zero.
    + now apply scaled_unit_magnitude.
  - destruct (Req_dec_T (Vector2D.magnitude v) 0) as [Hz | Hnz].
    + unfold Vector2D.unit.
      destruct (Req_dec_T (Vector2D.magnitude v) 0); [| contradiction].
      apply magnitude_Zero.
    + pose proof (scaled_unit_magnitude v 1 Hnz) as E.
      unfold Vector2D.scale in E. rewrite !Rmult_1_r in E.
      rewrite Rabs_R1 in E. destruct (Vector2D.unit v). exact E.
Qed.

Lemma clampMag_magnitude (v : Vector2D.t) (lo : R) (hi : option R) :
  Vector2D.magnitude (Vector2D.clampMag v lo hi)
  = Rabs (let '(lo, hi) :=
            match hi with None => (- lo, lo) | Some hi => (lo, hi) end in
          Rmax lo (Rmin hi (Vector2D.magnitude v))).
Proof.
  unfold Vector2D.clampMag. destruct hi as [hi |]; apply magnitude_polar.
Qed.

Lemma clampMag_le (v : Vector2D.t) (limit : R) :
  Vector2D.magnitude (Vector2D.clampMag v limit None) <= Rabs limit.
Proof.
  pose proof (magnitude_nonneg v) as Hv. rewrite clampMag_magnitude.
  unfold Rmin. destruct (Rle_dec limit (Vector2D.magnitude v));
    unfold Rmax; destruct (Rle_dec _ _); unfold Rabs;
    repeat destruct (Rcase_abs _); lra.
Qed.

Lemma clampMag_small (v : Vector2D.t) (limit : R) :
  Vector2D.magnitude v <= limit -> Vector2D.clampMag v limit None = v.
Proof.
  intros Hl. pose proof (magnitude_nonneg v) as Hv. unfold Vector2D.clampMag.
  replace (Rmax (- limit) (Rmin limit (Vector2D.magnitude v)))
    with (Vector2D.magnitude v).
  - apply polar_form.
  - unfold Rmin. destruct (Rle_dec limit (Vector2D.magnitude v));
      unfold Rmax; destruct (Rle_dec _ _); lra.
Qed.

Lemma clampMag_floor (v : Vector2D.t) (limit : R) :
  Vector2D.magnitude (Vector2D.clampMag v limit None)
  = if Rle_dec 0 limit then Rmin limit (Vector2D.magnitude v) else - limit.
Proof.
  pose proof (magnitude_nonneg v) as Hv. rewrite clampMag_magnitude.
  destruct (Rle_dec 0 limit);
    unfold Rmin; destruct (Rle_dec limit (Vector2D.magnitude v));
    unfold Rmax; destruct (Rle_dec _ _); unfold Rabs;
    destruct (Rcase_abs _); lra.
Qed.

(** X4.  [clampMag(limit)] with one argument never returns a vector
    longer than [|limit|].  For a limit that is not negative the new
    magnitude is the smaller of the limit and the old magnitude, and a
    vector within the limit comes back unchanged; for a negative limit
    every vector, the zero vector too, comes back with the magnitude
    [-limit]. *)
Theorem Vector2D_clampMag_limit (v : Vector2D.t) (limit : R) :
  Vector2D.magnitude (Vector2D.clampMag v limit None) <= Rabs limit
  /\ Vector2D.magnitude (Vector2D.clampMag v limit None)
     = (if Rle_dec 0 limit then Rmin limit (Vector2D.magnitude v) else - limit)
  /\ (Vector2D.magnitude v <= limit -> Vector2D.clampMag v limit None = v).
Proof.
  split; [apply clampMag_le |].
  split; [apply clampMag_floor | apply clampMag_small].
Qed.

(** X5.  [clampMag(min, max)] with [0 <= min <= max] returns a
    vector whose magnitude is in [[min, max]], and returns the vector
    itself when its magnitude already is. *)
Theorem Vector2D_clampMag_range (v : Vector2D.t) (min max : R) :
  0 <= min <= max ->
  min <= Vector2D.magnitude (Vector2D.clampMag v min (Some max)) <= max
  /\ (min <= Vector2D.magnitude v <= max ->
      Vector2D.clampMag v min (Some max) = v).
Proof.
  intros Hm. pose proof (magnitude_nonneg v) as Hv. split.
  - rewrite clampMag_magnitude. unfold Rmax, Rmin, Rabs.
    repeat match goal with |- context [Rle_dec ?a ?b] => destruct (Rle_dec a b) end;
    repeat match goal with |- context [Rcase_abs ?a] => destruct (Rcase_abs a) end; lra.
  - intros Hin. unfold Vector2D.clampMag.
    replace (Rmax min (Rmin max (Vector2D.magnitude v)))
      with (Vector2D.magnitude v).
    + apply polar_form.
    + unfold Rmin. destruct (Rle_dec max (Vector2D.magnitude v));
        unfold Rmax; destruct (Rle_dec _ _); lra.
Qed.

(** X6.  [rotate] keeps the magnitude (and the dot product of the
    vector with itself), rotating by [a] and then by [b] is rotating
    by [a + b], rotating by zero changes nothing, and [rotate(a)]
    adds [a] to the angle of the polar form. *)
Theorem Vector2D_rotate_spec (v : Vector2D.t) (a b : R) :
  Vector2D.magnitude (Vector2D.rotate v a) = Vector2D.magnitude v
  /\ Vector2D.rotate (Vector2D.rotate v a) b = Vector2D.rotate v (a + b)
  /\ Vector2D.rotate v 0 = v
  /\ Vector2D.rotate v a
     = Vector2D.fromPolar (Vector2D.angle v + a) (Vector2D.magnitude v)
  /\ Vector2D.dot (Vector2D.rotate v a) (Vector2D.rotate v a)
     = Vector2D.dot v v.
Proof.
  assert (Hdot : forall w c,
    Vector2D.x (Vector2D.rotate w c) * Vector2D.x (Vector2D.rotate w c)
    + Vector2D.y (Vector2D.rotate w c) * Vector2D.y (Vector2D.rotate w c)
    = Vector2D.x w * Vector2D.x w + Vector2D.y w * Vector2D.y w).
  { intros [x y] c. unfold Vector2D.rotate. cbn [Vector2D.x Vector2D.y].
    pose proof (sin2_cos2 c) as H. unfold Rsqr in H.
    replace ((x * cos c - y * sin c) * (x * cos c - y * sin c)
             + (x * sin c + y * cos c) * (x * sin c + y * cos c))
      with ((x * x + y * y) * (sin c * sin c + cos c * cos c)) by ring.
    rewrite H. ring. }
  repeat split.
  - unfold Vector2D.magnitude. now rewrite Hdot.
  - destruct v as [x y]. unfold Vector2D.rotate. cbn [Vector2D.x Vector2D.y].
    rewrite cos_plus, sin_plus. f_equal; ring.
  - destruct v as [x y]. unfold Vector2D.rotate. cbn [Vector2D.x Vector2D.y].
    rewrite cos_0, sin_0. f_equal; ring.
  - rewrite <- (polar_form v) at 1.
    unfold Vector2D.rotate, Vector2D.fromPolar. cbn [Vector2D.x Vector2D.y].
    rewrite cos_plus, sin_plus. f_equal; ring.
  - unfold Vector2D.dot. apply Hdot.
Qed.

Lemma distance_sqr (v w : Vector2D.t) :
  Vector2D.distance v w * Vector2D.distance v w = Vector2D.distanceSquared v w.
Proof. unfold Vector2D.distance, Vector2D.distanceSquared. apply sqrt_sqrt, sum_sqr_nonneg. Qed.

Lemma distance_nonneg (v w : Vector2D.t) : 0 <= Vector2D.distance v w.
Proof. apply sqrt_pos. Qed.

Lemma distance_zero_iff (u v : Vector2D.t) :
  Vector2D.distance u v = 0 <-> u = v.
Proof.
  split.
  - intros H. rewrite <- magnitude_sub in H. apply magnitude_zero_iff in H.
    destruct u, v. unfold Vector2D.sub, Vector2D.Zero in H.
    cbn [Vector2D.x Vector2D.y] in H. injection H as Hx Hy. f_equal; lra.
  - intros ->. apply distance_self.
Qed.

Lemma distance_triangle (u v w : Vector2D.t) :
  Vector2D.distance u w <= Vector2D.distance u v + Vector2D.distance v w.
Proof.
  pose proof (distance_nonneg u v) as A. pose proof (distance_nonneg v w) as B.
  pose proof (distance_nonneg u w) as C.
  pose proof (distance_sqr u v) as A2. pose proof (distance_sqr v w) as B2.
  pose proof (distance_sqr u w) as C2.
  unfold Vector2D.distanceSquared in *.
  destruct u as [a1 a2], v as [b1 b2], w as [c1 c2].
  cbn [Vector2D.x Vector2D.y] in *.
  set (p := Vector2D.distance _ _) in *.
  set (q := Vector2D.distance _ _) in B, B2 |- *.
  set (r := Vector2D.distance _ _) in C, C2 |- *.
  apply Rnot_lt_le. intros Hlt.
  assert (CS : ((a1 - b1) * (b1 - c1) + (a2 - b2) * (b2 - c2)) <= p * q).
  { apply Rnot_lt_le. intros Hcs.
    assert (0 <= p * q) by nra.
    assert (Hsq : (p * q) * (p * q)
                  < ((a1 - b1) * (b1 - c1) + (a2 - b2) * (b2 - c2))
                    * ((a1 - b1) * (b1 - c1) + (a2 - b2) * (b2 - c2))) by nra.
    replace (p * q * (p * q)) with ((p * p) * (q * q)) in Hsq by ring.
    rewrite A2, B2 in Hsq.
    pose proof (Rle_0_sqr ((a1 - b1) * (b2 - c2) - (a2 - b2) * (b1 - c1))) as Hd.
    unfold Rsqr in Hd. lra. }
  assert (r * r <= (p + q) * (p + q)) by nra.
  nra.
Qed.

(** X7.  [distance] is a metric: it is zero exactly between equal
    points, symmetric, and satisfies the triangle inequality; its
    square is [distanceSquared]. *)
Theorem Vector2D_distance_metric (u v w : Vector2D.t) :
  (Vector2D.distance u v = 0 <-> u = v)
  /\ Vector2D.distance u v = Vector2D.distance v u
  /\ Vector2D.distance u w <= Vector2D.distance u v + Vector2D.distance v w
  /\ Vector2D.distance u v * Vector2D.distance u v
     = Vector2D.distanceSquared u v.
Proof.
  split; [apply distance_zero_iff |].
  split; [unfold Vector2D.distance; f_equal; ring |].
  split; [apply distance_triangle | apply distance_sqr].
Qed.

Lemma magnitude_add_le (u v : Vector2D.t) :
  Vector2D.magnitude (Vector2D.add u v)
  <= Vector2D.magnitude u + Vector2D.magnitude v.
Proof.
  pose proof (distance_triangle (Vector2D.add u v) v Vector2D.Zero) as T.
  assert (E1 : Vector2D.distance (Vector2D.add u v) Vector2D.Zero
               = Vector2D.magnitude (Vector2D.add u v)).
  { unfold Vector2D.distance, Vector2D.magnitude, Vector2D.Zero.
    cbn [Vector2D.x Vector2D.y]. f_equal. ring. }
  assert (E2 : Vector2D.distance (Vector2D.add u v) v = Vector2D.magnitude u).
  { unfold Vector2D.distance, Vector2D.magnitude, Vector2D.add.
    cbn [Vector2D.x Vector2D.y]. f_equal. ring. }
  assert (E3 : Vector2D.distance v Vector2D.Zero = Vector2D.magnitude v).
  { unfold Vector2D.distance, Vector2D.magnitude, Vector2D.Zero.
    cbn [Vector2D.x Vector2D.y]. f_equal. ring. }
  lra.
Qed.

Lemma magnitude_scale (v : Vector2D.t) (k : R) :
  Vector2D.magnitude (Vector2D.scale v k) = Rabs k * Vector2D.magnitude v.
Proof.
  unfold Vector2D.magnitude, Vector2D.scale. cbn [Vector2D.x Vector2D.y].
  rewrite <- sqrt_Rsqr_abs, <- sqrt_mult;
    [| apply Rle_0_sqr | apply sum_sqr_nonneg].
  f_equal. unfold Rsqr. ring.
Qed.

Lemma distance_addPolar (p : Vector2D.t) (d a : R) :
  Vector2D.distance p (Vector2D.addPolar p d a) = Rabs d.
Proof.
  rewrite <- (Rabs_Ropp d), <- (magnitude_polar a (- d)).
  unfold Vector2D.distance, Vector2D.magnitude, Vector2D.addPolar.
  cbn [Vector2D.x Vector2D.y]. f_equal. ring.
Qed.

Lemma distance_towards (c t : Vector2D.t) (ratio : R) :
  Vector2D.distance
    (Vector2D.mk
       (Vector2D.x c + ratio * (Vector2D.x t - Vector2D.x c))
       (Vector2D.y c + ratio * (Vector2D.y t - Vector2D.y c))) t
  = Rabs (1 - ratio) * Vector2D.distance c t.
Proof.
  unfold Vector2D.distance. cbn [Vector2D.x Vector2D.y].
  rewrite <- sqrt_Rsqr_abs, <- sqrt_mult;
    [| apply Rle_0_sqr | apply sum_sqr_nonneg].
  f_equal. unfold Rsqr. ring.
Qed.

(* ================================================================= *)
(** ** Colours *)

(** Two digits write a byte, and [parseInt] reads them back. *)
Lemma byte_hex (n : Z) :
  (0 <= n <= 255)%Z ->
  exists c1 c2,
    Colour.padStart2 (Colour.toString16 (Some n))
    = String.String c1 (String.String c2 String.EmptyString)
    /\ Colour.parseInt16 (String.String c1 (String.String c2 String.EmptyString))
       = Some n.
Proof.
  intros Hn.
  assert (Hall : forallb
    (fun k =>
       match Colour.padStart2 (Colour.toString16 (Some (Z.of_nat k))) with
       | String.String c1 (String.String c2 String.EmptyString) =>
           match Colour.parseInt16
                   (String.String c1 (String.String c2 String.EmptyString)) with
           | Some m => (m =? Z.of_nat k)%Z
           | None => false
           end
       | _ => false
       end) (seq 0 256) = true) by (vm_compute; reflexivity).
  rewrite forallb_forall in Hall.
  specialize (Hall (Z.to_nat n)).
  rewrite Z2Nat.id in Hall by lia.
  assert (Hin : In (Z.to_nat n) (seq 0 256)) by (apply in_seq; lia).
  specialize (Hall Hin).
  destruct (Colour.padStart2 (Colour.toString16 (Some n))) as [| c1 [| c2 [| c3 rest]]];
    try discriminate.
  exists c1, c2. split; [reflexivity |].
  destruct (Colour.parseInt16 _) as [m |]; [| discriminate].
  apply Z.eqb_eq in Hall. now subst.
Qed.

Lemma clampByte_range (n : Z) : (0 <= Z.max 0 (Z.min 255 n) <= 255)%Z.
Proof. lia. Qed.

(** X9.  [hexToRgbArray] reads back what [rgbToHex] writes: for
    integer components the round trip returns each component clamped
    to [[0, 255]], so a colour with components in that range comes
    back as it was.  The string [rgbToHex] writes has seven
    characters. *)
Theorem hexToRgbArray_rgbToHex (r g b : Z) :
  Colour.hexToRgbArray (Colour.rgbToHex [Some r; Some g; Some b])
  = [Some (Z.max 0 (Z.min 255 r)); Some (Z.max 0 (Z.min 255 g));
     Some (Z.max 0 (Z.min 255 b))]
  /\ String.length (Colour.rgbToHex [Some r; Some g; Some b]) = 7%nat.
Proof.
  unfold Colour.rgbToHex, Colour.at_, Colour.clampByte.
  cbn [nth_error option_map].
  destruct (byte_hex _ (clampByte_range r)) as (c1 & c2 & Er & Pr).
  destruct (byte_hex _ (clampByte_range g)) as (c3 & c4 & Eg & Pg).
  destruct (byte_hex _ (clampByte_range b)) as (c5 & c6 & Eb & Pb).
  rewrite Er, Eg, Eb. cbn [String.append String.length].
  split; [| reflexivity].
  unfold Colour.hexToRgbArray. cbn [Colour.replaceHash].
  change (Ascii.eqb "#"%char "#"%char) with true. cbv iota.
  cbn [String.substring]. now rewrite Pr, Pg, Pb.
Qed.

(** [hsvToRgb] on the sextant [k] of the hue circle. *)
Lemma hsvToRgb_sextant (h s v : R) (k : Z) :
  IZR k <= h * 6 < IZR k + 1 ->
  Colour.hsvToRgb h s v
  = let f := h * 6 - IZR k in
    let p := v * (1 - s) in
    let q := v * (1 - f * s) in
    let t := v * (1 - (1 - f) * s) in
    match Z.rem k 6 with
    | 0%Z => [Num (v * 255); Num (t * 255); Num (p * 255)]
    | 1%Z => [Num (q * 255); Num (v * 255); Num (p * 255)]
    | 2%Z => [Num (p * 255); Num (v * 255); Num (t * 255)]
    | 3%Z => [Num (p * 255); Num (q * 255); Num (v * 255)]
    | 4%Z => [Num (t * 255); Num (p * 255); Num (v * 255)]
    | 5%Z => [Num (v * 255); Num (p * 255); Num (q * 255)]
    | _ => [NaN; NaN; NaN]
    end.
Proof.
  intros Hk. unfold Colour.hsvToRgb, Math.floor.
  rewrite (Zfloor_eq k (h * 6) Hk). cbv zeta.
  destruct (Z.rem k 6) as [| [[[| |] | [| |] |] | [[| |] | [| |] |] |] | ];
    reflexivity.
Qed.

Lemma sextant_of_unit (h : R) :
  0 <= h <= 1 ->
  exists k, (0 <= k <= 6)%Z /\ IZR k <= h * 6 < IZR k + 1.
Proof.
  intros Hh. exists (Zfloor (h * 6)).
  pose proof (Zfloor_bound (h * 6)) as Hb. split; [| exact Hb].
  split.
  - apply Zfloor_lub. cbn. lra.
  - assert (IZR (Zfloor (h * 6)) < IZR 7) as Hlt by (cbn; lra). apply lt_IZR in Hlt. lia.
Qed.

(** X10.  For [h], [s] and [v] in [[0, 1]], [hsvToRgb] returns three
    numbers in [[0, 255]]; the largest is [255 * v] and the smallest
    [255 * v * (1 - s)]. *)
Theorem hsvToRgb_range (h s v : R) :
  0 <= h <= 1 -> 0 <= s <= 1 -> 0 <= v <= 1 ->
  exists r g b,
    Colour.hsvToRgb h s v = [Num r; Num g; Num b]
    /\ 0 <= r <= 255 /\ 0 <= g <= 255 /\ 0 <= b <= 255
    /\ Rmax (Rmax r g) b = v * 255
    /\ Rmin (Rmin r g) b = v * (1 - s) * 255.
Proof.
  intros Hh Hs Hv.
  destruct (sextant_of_unit h Hh) as (k & Hk & Hf).
  rewrite (hsvToRgb_sextant h s v k Hf). cbv zeta.
  set (f := h * 6 - IZR k).
  assert (Hf01 : 0 <= f < 1) by (unfold f; lra).
  assert (Hfs : 0 <= f * s <= 1) by nra.
  assert (Hfs' : 0 <= (1 - f) * s <= 1) by nra.
  assert (Hp : 0 <= v * (1 - s) <= v) by nra.
  assert (Hq : v * (1 - s) <= v * (1 - f * s) <= v) by nra.
  assert (Ht : v * (1 - s) <= v * (1 - (1 - f) * s) <= v) by nra.
  assert (Hcases : (k = 0 \/ k = 1 \/ k = 2 \/ k = 3 \/ k = 4 \/ k = 5 \/ k = 6)%Z)
    by lia.
  destruct Hcases as [-> | [-> | [-> | [-> | [-> | [-> | ->]]]]]];
    cbn [Z.rem Z.quotrem Z.pos_div_eucl Z.leb Z.compare]; 
    (eexists; eexists; eexists; split; [reflexivity |]);
    repeat split; try lra; minmax; lra.
Qed.

(** X11.  From zero upwards the hue is periodic: [hsvToRgb(h + 1, s,
    v)] is [hsvToRgb(h, s, v)] for [h >= 0]. *)
Theorem hsvToRgb_hue_period (h s v : R) :
  0 <= h -> Colour.hsvToRgb (h + 1) s v = Colour.hsvToRgb h s v.
Proof.
  intros Hh. pose proof (Zfloor_bound (h * 6)) as Hb.
  set (k := Zfloor (h * 6)) in *.
  assert (Hk : (0 <= k)%Z) by (apply Zfloor_lub; cbn; lra).
  rewrite (hsvToRgb_sextant h s v k Hb).
  rewrite (hsvToRgb_sextant (h + 1) s v (k + 6)).
  2:{ rewrite plus_IZR. cbn. lra. }
  cbv zeta. rewrite plus_IZR.
  replace ((h + 1) * 6 - (IZR k + IZR 6)) with (h * 6 - IZR k) by (cbn; ring).
  replace (Z.rem (k + 6) 6) with (Z.rem k 6); [reflexivity |].
  rewrite !Z.rem_mod_nonneg by lia.
  replace (k + 6)%Z with (k + 1 * 6)%Z by ring. now rewrite Z.mod_add.
Qed.

(** X12.  Below zero the hue does not wrap: for [-5/6 <= h < 0] the
    remainder [i % 6] is negative, no [case] matches it, and
    [hsvToRgb] returns three NaN. *)
Theorem hsvToRgb_negative_hue (h s v : R) :
  - 5 / 6 <= h < 0 -> Colour.hsvToRgb h s v = [NaN; NaN; NaN].
Proof.
  intros Hh. pose proof (Zfloor_bound (h * 6)) as Hb.
  set (k := Zfloor (h * 6)) in *.
  assert (Hlo : (-5 <= k)%Z) by (apply Zfloor_lub; cbn; lra).
  assert (Hhi : (k < 0)%Z) by (apply lt_IZR; cbn; lra).
  rewrite (hsvToRgb_sextant h s v k Hb). cbv zeta.
  assert (Hcases : (k = -5 \/ k = -4 \/ k = -3 \/ k = -2 \/ k = -1)%Z) by lia.
  destruct Hcases as [-> | [-> | [-> | [-> | ->]]]]; reflexivity.
Qed.

(** The sextant and the fraction [rgb2hsv] assigns to a colour that
    is not a grey, and what they say of its components. *)
Lemma rgb2hsv_hue6 (r g b : R) :
  let v := Rmax (Rmax r g) b in
  let mn := Rmin (Rmin r g) b in
  let c := v - mn in
  c <> 0 ->
  exists (k : Z) (f : R),
    let h6 :=
      if Req_dec_T v r then (g - b) / c
      else if Req_dec_T v g then 2 + (b - r) / c
      else 4 + (r - g) / c in
    (if Rlt_dec h6 0 then h6 + 6 else h6) = IZR k + f
    /\ (0 <= k <= 5)%Z /\ 0 <= f < 1
    /\ match k with
       | 0%Z => r = v /\ g = mn + f * c /\ b = mn
       | 1%Z => r = v - f * c /\ g = v /\ b = mn
       | 2%Z => r = mn /\ g = v /\ b = mn + f * c
       | 3%Z => r = mn /\ g = v - f * c /\ b = v
       | 4%Z => r = mn + f * c /\ g = mn /\ b = v
       | _ => r = v /\ g = mn /\ b = v - f * c
       end.
Proof.
  intros v mn c Hc.
  assert (Hvr : r <= v) by (unfold v; minmax; lra).
  assert (Hvg : g <= v) by (unfold v; minmax; lra).
  assert (Hvb : b <= v) by (unfold v; minmax; lra).
  assert (Hmr : mn <= r) by (unfold mn; minmax; lra).
  assert (Hmg : mn <= g) by (unfold mn; minmax; lra).
  assert (Hmb : mn <= b) by (unfold mn; minmax; lra).
  assert (Hv : v = r \/ v = g \/ v = b) by (unfold v; minmax; lra).
  assert (Hm : mn = r \/ mn = g \/ mn = b) by (unfold mn; minmax; lra).
  assert (Hcpos : 0 < c) by (unfold c in *; lra).
  clearbody v mn. cbv zeta.
  assert (Hdiv : forall n, n / c * c = n) by (intros n; field; lra).
  destruct (Req_dec_T v r) as [Evr | Nvr].
  - (* red is the largest *)
    set (d := (g - b) / c). pose proof (Hdiv (g - b)) as Hd. fold d in Hd.
    destruct (Rlt_dec d 0) as [Hneg | Hpos].
    + exists 5%Z, (d + 1). split; [cbn; ring |]. split; [lia |].
      assert (g < b) by nra. assert (mn = g) by lra.
      assert (-1 <= d) by (unfold c in *; nra).
      split; [lra |]. unfold c in *. repeat split; nra.
    + destruct (Rlt_dec d 1) as [Hlt | Hge].
      * exists 0%Z, d. split; [cbn; ring |]. split; [lia |].
        assert (b <= g) by nra. assert (mn = b) by lra.
        split; [lra |]. unfold c in *. repeat split; nra.
      * exists 1%Z, 0. 
        assert (d <= 1) by (unfold c in *; nra).
        assert (d = 1) by lra.
        split; [cbn; lra |]. split; [lia |]. split; [lra |].
        unfold c in *. repeat split; nra.
  - destruct (Req_dec_T v g) as [Evg | Nvg].
    + set (d := (b - r) / c). pose proof (Hdiv (b - r)) as Hd. fold d in Hd.
      assert (Hd1 : -1 < d <= 1) by (unfold c in *; split; nra).
      destruct (Rlt_dec (2 + d) 0) as [Hneg | _]; [lra |].
      destruct (Rlt_dec d 0) as [Hd0 | Hd0].
      * exists 1%Z, (d + 1). split; [cbn; ring |]. split; [lia |].
        assert (b < r) by nra. assert (mn = b) by lra.
        split; [lra |]. unfold c in *. repeat split; nra.
      * destruct (Rlt_dec d 1) as [Hlt | Hge].
        -- exists 2%Z, d. split; [cbn; ring |]. split; [lia |].
           assert (r <= b) by nra. assert (mn = r) by lra.
           split; [lra |]. unfold c in *. repeat split; nra.
        -- exists 3%Z, 0. assert (d = 1) by lra.
           split; [cbn; lra |]. split; [lia |]. split; [lra |].
           unfold c in *. repeat split; nra.
    + assert (Evb : v = b) by lra.
      set (d := (r - g) / c). pose proof (Hdiv (r - g)) as Hd. fold d in Hd.
      assert (Hd1 : -1 < d < 1) by (unfold c in *; split; nra).
      destruct (Rlt_dec (4 + d) 0) as [Hneg | _]; [lra |].
      destruct (Rlt_dec d 0) as [Hd0 | Hd0].
      * exists 3%Z, (d + 1). split; [cbn; ring |]. split; [lia |].
        assert (r < g) by nra. assert (mn = r) by lra.
        split; [lra |]. unfold c in *. repeat split; nra.
      * exists 4%Z, d. split; [cbn; ring |]. split; [lia |].
        assert (g <= r) by nra. assert (mn = g) by lra.
        split; [lra |]. unfold c in *. repeat split; nra.
Qed.

(** X13.  [rgb2hsv] and [hsvToRgb] compose to the scaling by 255:
    for components that are not negative, [rgb2hsv(r, g, b)] is a
    hue in [[0, 1)], a saturation in [[0, 1]] and the largest
    component as value, and [hsvToRgb] of them is
    [[255 r, 255 g, 255 b]]. *)
Theorem hsvToRgb_rgb2hsv (r g b : R) :
  0 <= r -> 0 <= g -> 0 <= b ->
  exists h s v,
    Colour.rgb2hsv r g b = [h; s; v]
    /\ 0 <= h < 1 /\ 0 <= s <= 1 /\ v = Rmax (Rmax r g) b
    /\ Colour.hsvToRgb h s v = [Num (r * 255); Num (g * 255); Num (b * 255)].
Proof.
  intros Hr Hg Hb. unfold Colour.rgb2hsv.
  pose proof (rgb2hsv_hue6 r g b) as Hue. cbv zeta in Hue.
  set (v := Rmax (Rmax r g) b) in *.
  set (mn := Rmin (Rmin r g) b) in *.
  assert (Hvr : r <= v) by (unfold v; minmax; lra).
  assert (Hvg : g <= v) by (unfold v; minmax; lra).
  assert (Hvb : b <= v) by (unfold v; minmax; lra).
  assert (Hmr : mn <= r) by (unfold mn; minmax; lra).
  assert (Hmg : mn <= g) by (unfold mn; minmax; lra).
  assert (Hmb : mn <= b) by (unfold mn; minmax; lra).
  assert (Hm : mn = r \/ mn = g \/ mn = b) by (unfold mn; minmax; lra).
  clearbody v mn.
  eexists; eexists; eexists. split; [reflexivity |].
  destruct (Req_dec_T (v - mn) 0) as [Hc | Hc].
  - (* a grey: the three components are equal *)
    assert (r = v) by lra. assert (g = v) by lra. assert (b = v) by lra.
    destruct (Rlt_dec (v - mn) 0) as [Hlt | _]; [lra |].
    rewrite Hc.
    assert (Es : (if Req_dec_T v 0 then v else 0 / v) = 0).
    { destruct (Req_dec_T v 0); [assumption | unfold Rdiv; ring]. }
    rewrite Es.
    split; [lra |]. split; [lra |]. split; [reflexivity |].
    rewrite (hsvToRgb_sextant (60 * 0 / 360) 0 v 0) by (cbn; lra).
    cbv zeta. change (Z.rem 0 6) with 0%Z. cbv iota. subst r g b.
    repeat f_equal; ring.
  - destruct (Hue Hc) as (k & f & Eh & Hk & Hf & Hcol). rewrite Eh.
    assert (Hv0 : 0 < v) by lra.
    destruct (Req_dec_T v 0) as [Hz | _]; [lra |].
    assert (Hs : 0 <= (v - mn) / v <= 1).
    { assert (E : (v - mn) / v * v = v - mn) by (field; lra).
      split; apply Rnot_lt_le; intros Hn; nra. }
    split.
    { assert (IZR k <= 5) by (apply (IZR_le k 5); lia).
      assert (0 <= IZR k) by (apply (IZR_le 0 k); lia). lra. }
    split; [exact Hs |]. split; [reflexivity |].
    rewrite (hsvToRgb_sextant _ _ _ k) by lra. cbv zeta.
    replace (60 * (IZR k + f) / 360 * 6 - IZR k) with f by field.
    assert (Ep : v * (1 - (v - mn) / v) = mn) by (field; lra).
    assert (Eq : v * (1 - f * ((v - mn) / v)) = v - f * (v - mn)) by (field; lra).
    assert (Et : v * (1 - (1 - f) * ((v - mn) / v)) = mn + f * (v - mn))
      by (field; lra).
    rewrite Ep, Eq, Et.
    assert (Hcases : (k = 0 \/ k = 1 \/ k = 2 \/ k = 3 \/ k = 4 \/ k = 5)%Z) by lia.
    destruct Hcases as [-> | [-> | [-> | [-> | [-> | ->]]]]];
      destruct Hcol as (Er & Eg & Eb);
      match goal with |- context [Z.rem ?n 6] => change (Z.rem n 6) with n end;
      cbv iota; repeat f_equal; lra.
Qed.

(* ================================================================= *)
(** ** The chain of a body *)

Lemma updateLinks_spaced (d m : R) :
  forall rest ac dc,
    evenlySpaced (Rabs d) dc (BodyBase.updateLinks d m ac dc rest).
Proof.
  induction rest as [| l rest IH]; intros ac dc; [exact I |].
  cbn [BodyBase.updateLinks evenlySpaced]. split; [| apply IH].
  rewrite update_pos. apply distance_addPolar.
Qed.

Lemma updateLinks_radius (d m : R) :
  forall rest ac dc,
    map ChainLink.radius (BodyBase.updateLinks d m ac dc rest)
    = map ChainLink.radius rest.
Proof.
  induction rest as [| l rest IH]; intros ac dc; [reflexivity |].
  cbn [BodyBase.updateLinks map]. now rewrite IH.
Qed.

Lemma updateLinks_length (d m : R) :
  forall rest ac dc,
    length (BodyBase.updateLinks d m ac dc rest) = length rest.
Proof.
  induction rest as [| l rest IH]; intros ac dc; [reflexivity |].
  cbn [BodyBase.updateLinks length]. now rewrite IH.
Qed.

Lemma linksFrom_length (p : Vector2D.t) (spacing : R) :
  forall radiuses index,
    length (BodyBase.linksFrom p spacing index radiuses) = length radiuses.
Proof.
  induction radiuses as [| r radiuses IH]; intros index; [reflexivity |].
  cbn [BodyBase.linksFrom length]. now rewrite IH.
Qed.

(** X15.  After [BodyBase.update(pos)] the head link is at [pos],
    every link is exactly [|spacing * scale|] away from the link
    before it, and the radii of the links are as they were. *)
Theorem BodyBase_update_spacing (b : BodyBase.t) (pos : Vector2D.t) :
  ChainLink.pos (BodyBase.link1 (BodyBase.update b pos)) = pos
  /\ evenlySpaced (Rabs (BodyBase.spacing b * BodyBase.scale b))
       (BodyBase.link1 (BodyBase.update b pos))
       (BodyBase.link2 (BodyBase.update b pos)
          :: BodyBase.links (BodyBase.update b pos))
  /\ map ChainLink.radius (BodyBase.chainLinks (BodyBase.update b pos))
     = map ChainLink.radius (BodyBase.chainLinks b).
Proof.
  split; [reflexivity |]. split.
  - cbn [evenlySpaced]. split.
    + apply distance_addPolar.
    + apply updateLinks_spaced.
  - unfold BodyBase.chainLinks, BodyBase.update.
    cbn [BodyBase.link1 BodyBase.link2 BodyBase.links map ChainLink.radius].
    now rewrite updateLinks_radius.
Qed.

(** A link below two links of a column is moved into the column. *)
Lemma update_straight (this dc ac : ChainLink.t) (d m x Y Y' : R) :
  0 < d -> 0 <= m ->
  ChainLink.pos ac = Vector2D.mk x (Y - d) ->
  ChainLink.pos dc = Vector2D.mk x Y ->
  ChainLink.pos this = Vector2D.mk x Y' -> Y < Y' ->
  ChainLink.update this dc d ac m
  = ChainLink.mk (ChainLink.radius this) (Vector2D.mk x (Y + d)) (PI / 2).
Proof.
  intros Hd Hm Hac Hdc Hthis HY. pose proof PI_RGT_0 as Hpi.
  unfold ChainLink.update, Vector2D.angle, Vector2D.sub.
  rewrite Hac, Hdc, Hthis. cbn [Vector2D.x Vector2D.y].
  rewrite (atan2_south (Y - d - Y) (x - x)) by lra.
  rewrite (atan2_north (Y' - Y) (x - x)) by lra.
  f_equal. unfold ChainLink.wrap.
  destruct (Rgt_dec _ _) as [H1 | H1]; [lra |].
  destruct (Rle_dec _ _) as [H2 | H2]; [lra |].
  destruct (Rlt_dec _ _) as [H3 | H3]; [lra |].
  assert (Hmax : (180 - m) * PI / 180 <= PI) by nra.
  unfold Vector2D.addPolar. cbn [Vector2D.x Vector2D.y].
  unfold Rmax. destruct (Rle_dec _ _) as [H4 | H4];
    match goal with
    | |- context [cos ?a] => replace a with (PI / 2) by lra
    end;
    rewrite cos_PI2, sin_PI2; f_equal; ring.
Qed.

Lemma linkAt_eq (p : Vector2D.t) (spacing r : R) (i : nat) :
  BodyBase.linkAt p spacing r i
  = ChainLink.mk r
      (Vector2D.mk (Vector2D.x p) (Vector2D.y p + spacing * INR i))
      (- PI / 2).
Proof. reflexivity. Qed.

Lemma updateLinks_straight (p : Vector2D.t) (spacing d m : R) :
  0 < d <= spacing -> 0 <= m ->
  forall rs n ac dc,
    ChainLink.pos ac
    = Vector2D.mk (Vector2D.x p) (Vector2D.y p + d * INR n) ->
    ChainLink.pos dc
    = Vector2D.mk (Vector2D.x p) (Vector2D.y p + d * INR (S n)) ->
    hangsBelow p d (S (S n))
      (BodyBase.updateLinks d m ac dc
         (BodyBase.linksFrom p spacing (S (S n)) rs)).
Proof.
  intros Hd Hm. induction rs as [| r rs IH]; intros n ac dc Hac Hdc; [exact I |].
  cbn [BodyBase.linksFrom BodyBase.updateLinks].
  assert (E : ChainLink.update (BodyBase.linkAt p spacing r (S (S n))) dc d ac m
              = ChainLink.mk r
                  (Vector2D.mk (Vector2D.x p)
                     (Vector2D.y p + d * INR (S (S n)))) (PI / 2)).
  { rewrite (update_straight _ dc ac d m (Vector2D.x p)
               (Vector2D.y p + d * INR (S n))
               (Vector2D.y p + spacing * INR (S (S n)))).
    - rewrite linkAt_eq. cbn [ChainLink.radius]. f_equal. f_equal.
      rewrite (S_INR (S n)). ring.
    - lra.
    - exact Hm.
    - rewrite Hac. f_equal. rewrite S_INR. ring.
    - exact Hdc.
    - reflexivity.
    - pose proof (pos_INR n) as Hn. rewrite !S_INR. nra. }
  rewrite E. cbn [hangsBelow ChainLink.pos ChainLink.directionAngle].
  split; [reflexivity |]. split; [reflexivity |].
  apply IH; [exact Hdc | reflexivity].
Qed.

Lemma hangsBelow_curvature (p : Vector2D.t) (d : R) :
  forall rest n link acc,
    ChainLink.directionAngle link = PI / 2 ->
    hangsBelow p d n rest ->
    BodyBase.curvatureLoop acc link rest = acc.
Proof.
  induction rest as [| l rest IH]; intros n link acc Hl Hh; [reflexivity |].
  cbn [hangsBelow] in Hh. destruct Hh as (_ & Hdir & Hrest).
  cbn [BodyBase.curvatureLoop].
  assert (E : BodyBase.difference link l = 0).
  { unfold BodyBase.difference. rewrite Hl, Hdir.
    replace (PI / 2 * 180 / PI - PI / 2 * 180 / PI) with 0 by ring.
    destruct (Rgt_dec 0 180); [lra |]. destruct (Rlt_dec 0 (-180)); [lra |].
    reflexivity. }
  rewrite E, Rplus_0_r. now apply (IH (S n)).
Qed.

(** X17.  A body as the constructors of [Fish], [Snake] and [Lizard]
    leave it, built at [basisPosition] and then updated there: with a
    positive spacing, a scale of magnitude in [(0, 1]] and a
    [maxAngle] that is not negative, the links hang in a straight
    column under the basis position, [spacing * |scale|] apart and all
    pointing down it.  The chain has as many links as the radius
    profile, and two for a shorter profile; with three links or more
    and a positive [maxAngle] its curvature is zero. *)
Theorem BodyBase_new_straight (radiusesArray : list R) (spacing maxAngle : R)
    (basisPosition : Vector2D.t) (headPoints tailPoints scale : R) :
  0 < spacing -> 0 < Rabs scale <= 1 -> 0 <= maxAngle ->
  let b :=
    BodyBase.update
      (BodyBase.new radiusesArray spacing maxAngle basisPosition
         headPoints tailPoints scale)
      basisPosition in
  hangsBelow basisPosition (spacing * Rabs scale) 0 (BodyBase.chainLinks b)
  /\ length (BodyBase.chainLinks b) = Nat.max 2 (length radiusesArray)
  /\ (0 < maxAngle -> (2 < length radiusesArray)%nat ->
      BodyBase.totalCurvature b = Num 0).
Proof.
  intros Hs Hsc Hm b.
  set (d := spacing * Rabs scale).
  assert (Hd : 0 < d <= spacing) by (unfold d; nra).
  set (p := basisPosition) in *.
  set (b0 := BodyBase.new radiusesArray spacing maxAngle p
               headPoints tailPoints scale) in *.
  assert (Hb0 : exists r0 r1 rest,
            b0 = BodyBase.mk (BodyBase.linkAt p spacing r0 0)
                   (BodyBase.linkAt p spacing r1 1)
                   (BodyBase.linksFrom p spacing 2 rest)
                   spacing maxAngle (Num 0)
                   (Rmax 2 headPoints) (Rmax 2 tailPoints) (Rabs scale)
            /\ length rest = (Nat.max 2 (length radiusesArray) - 2)%nat).
  { unfold b0, BodyBase.new.
    destruct radiusesArray as [| r0 [| r1 rest]].
    - exists 10, 10, []. split; reflexivity.
    - exists r0, r0, []. split; reflexivity.
    - exists r0, r1, rest. split; [reflexivity |]. cbn [length]. lia. }
  destruct Hb0 as (r0 & r1 & rest & Eb0 & Hlen).
  assert (Hangle : Vector2D.angle
                     (Vector2D.sub
                        (ChainLink.pos (BodyBase.linkAt p spacing r1 1)) p)
                   = PI / 2).
  { rewrite linkAt_eq. unfold Vector2D.angle, Vector2D.sub.
    cbn [ChainLink.pos Vector2D.x Vector2D.y].
    apply atan2_north; [ring |]. cbn [INR]. lra. }
  assert (Hlinks :
    hangsBelow p d 2
      (BodyBase.updateLinks d maxAngle
         (ChainLink.mk r0 p (PI / 2))
         (ChainLink.mk r1 (Vector2D.addPolar p d (PI / 2)) (PI / 2))
         (BodyBase.linksFrom p spacing 2 rest))).
  { apply (updateLinks_straight p spacing d maxAngle Hd Hm rest 0%nat).
    - cbn [ChainLink.pos INR]. destruct p as [x y].
      cbn [Vector2D.x Vector2D.y]. f_equal; ring.
    - cbn [ChainLink.pos INR]. unfold Vector2D.addPolar.
      rewrite cos_PI2, sin_PI2. f_equal; ring. }
  assert (Eb : b = BodyBase.mk (ChainLink.mk r0 p (PI / 2))
                 (ChainLink.mk r1 (Vector2D.addPolar p d (PI / 2)) (PI / 2))
                 (BodyBase.updateLinks d maxAngle
                    (ChainLink.mk r0 p (PI / 2))
                    (ChainLink.mk r1 (Vector2D.addPolar p d (PI / 2)) (PI / 2))
                    (BodyBase.linksFrom p spacing 2 rest))
                 spacing maxAngle
                 (BodyBase.getTotalCurvatureOf maxAngle
                    (ChainLink.mk r1 (Vector2D.addPolar p d (PI / 2)) (PI / 2))
                    (BodyBase.updateLinks d maxAngle
                       (ChainLink.mk r0 p (PI / 2))
                       (ChainLink.mk r1 (Vector2D.addPolar p d (PI / 2)) (PI / 2))
                       (BodyBase.linksFrom p spacing 2 rest)))
                 (Rmax 2 headPoints) (Rmax 2 tailPoints) (Rabs scale)).
  { unfold b. rewrite Eb0. unfold BodyBase.update, BodyBase.scale.
    cbn [BodyBase.link1 BodyBase.link2 BodyBase.links BodyBase.spacing
         BodyBase.maxAngle BodyBase._scale BodyBase.headPoints
         BodyBase.tailPoints].
    rewrite Hangle. fold d. reflexivity. }
  rewrite Eb. unfold BodyBase.chainLinks.
  cbn [BodyBase.link1 BodyBase.link2 BodyBase.links BodyBase.totalCurvature].
  split; [| split].
  - cbn [hangsBelow ChainLink.pos ChainLink.directionAngle INR].
    split; [destruct p; cbn [Vector2D.x Vector2D.y]; f_equal; ring |].
    split; [reflexivity |].
    split; [unfold Vector2D.addPolar; rewrite cos_PI2, sin_PI2; f_equal; ring |].
    split; [reflexivity | exact Hlinks].
  - cbn [length].
    rewrite updateLinks_length, linksFrom_length, Hlen. lia.
  - intros Hm0 Hn. unfold BodyBase.getTotalCurvatureOf.
    erewrite (hangsBelow_curvature p d _ 2%nat);
      [| reflexivity | exact Hlinks].
    set (maxC := maxAngle * _).
    assert (HmaxC : 0 < maxC).
    { unfold maxC.
      rewrite updateLinks_length, linksFrom_length, Hlen.
      assert (Hge : (1 <= Nat.max 2 (length radiusesArray) - 2)%nat) by lia.
      apply le_INR in Hge. rewrite plus_INR. cbn [INR] in *. nra. }
    rewrite div_Num by lra. cbn [JsNumber.max JsNumber.min].
    unfold Rdiv. rewrite Rmult_0_l.
    unfold Rmax, Rmin. destruct (Rle_dec 0 (-1)); [lra |].
    destruct (Rle_dec 0 1); [reflexivity | lra].
Qed.

Lemma indicesBelow_INR (k : nat) : BodyBase.indicesBelow (INR k) = seq 0 k.
Proof.
  unfold BodyBase.indicesBelow. rewrite INR_IZR_INZ.
  rewrite (Zceil_eq (Z.of_nat k)) by lra. now rewrite Nat2Z.id.
Qed.

Lemma addPolar_turn (p : Vector2D.t) (r a b : R) :
  a = b + 2 * PI -> Vector2D.addPolar p r a = Vector2D.addPolar p r b.
Proof.
  intros ->. unfold Vector2D.addPolar.
  rewrite cos_plus, sin_plus, cos_2PI, sin_2PI. f_equal; ring.
Qed.

(** X18.  [getEndPoints] with a whole number [k >= 2] of points
    returns [k] points on the circle of the end link, of radius
    [|radius * scale|]; the first and the last are the two side
    points of that link, so the cap joins the sides of the outline:
    from the first side point to the second at the head, the other
    way round at the tail. *)
Theorem BodyBase_getEndPoints_cap (b : BodyBase.t) (isHead : bool) (k : nat) :
  (if isHead then BodyBase.headPoints b else BodyBase.tailPoints b) = INR k ->
  (2 <= k)%nat ->
  let link :=
    if isHead then BodyBase.link1 b
    else last (BodyBase.chainLinks b) (BodyBase.link1 b) in
  let points := BodyBase.getEndPoints b isHead in
  let sides := ChainLink.getSidePoints link (BodyBase.scale b) in
  length points = k
  /\ Forall
       (fun q =>
          Vector2D.distance (ChainLink.pos link) q
          = Rabs (ChainLink.radius link * BodyBase.scale b))
       points
  /\ hd_error points = nth_error sides (if isHead then 0 else 1)
  /\ last points Vector2D.Zero
     = nth (if isHead then 1 else 0) sides Vector2D.Zero.
Proof.
  intros Hn Hk link points sides.
  unfold points, BodyBase.getEndPoints. fold link. rewrite Hn.
  rewrite indicesBelow_INR.
  split; [now rewrite length_map, length_seq |].
  split.
  { apply Forall_forall. intros q Hq. apply in_map_iff in Hq.
    destruct Hq as (i & <- & _). apply distance_addPolar. }
  destruct k as [| [| k]]; [lia | lia |].
  split.
  - cbn [seq map hd_error]. unfold sides, ChainLink.getSidePoints.
    destruct isHead; cbn [nth_error]; f_equal; f_equal; cbn [INR]; ring.
  - rewrite seq_S, map_app. cbn [map]. rewrite last_last. cbn [Nat.add].
    unfold sides, ChainLink.getSidePoints.
    assert (Hstep : INR (S k) * (PI / (INR (S (S k)) - 1)) = PI).
    { rewrite (S_INR (S k)). pose proof (pos_INR k) as Hp.
      rewrite S_INR. field. lra. }
    destruct isHead; cbn [nth].
    + apply addPolar_turn. rewrite Hstep. lra.
    + f_equal. rewrite Hstep. lra.
Qed.

(* ================================================================= *)
(** ** Legs *)

Lemma setSticked_same (leg : Leg3Joint.t) :
  Leg3Joint.setSticked leg (Leg3Joint.sticked leg) = leg.
Proof. now destruct leg. Qed.

(** On an unstuck leg [update] always runs the catch-up. *)
Lemma Leg3Joint_update_unsticked (link : ChainLink.t) (leg : Leg3Joint.t) :
  Leg3Joint.sticked leg = false ->
  Leg3Joint.update link leg
  = let leg := Leg3Joint.setTargetPoint leg (Leg3Joint.evalTargetPoint link leg) in
    let newJoint0 := Leg3Joint.evalConnPoint link leg in
    let distTraveled := Vector2D.distance (Leg3Joint.joints0 leg) newJoint0 in
    let leg := Leg3Joint.catchUp (Leg3Joint.setJoints0 leg newJoint0) distTraveled in
    Leg3Joint.setJoints1 leg (Leg3Joint.evalJointPoint leg).
Proof.
  intros Hs. unfold Leg3Joint.update.
  set (leg1 := Leg3Joint.setTargetPoint leg (Leg3Joint.evalTargetPoint link leg)).
  assert (Hs1 : Leg3Joint.sticked leg1 = false) by exact Hs.
  cbv zeta.
  assert (E : (if Rgt_dec (Vector2D.distance (Leg3Joint.joints2 leg1)
                             (Leg3Joint.targetPoint leg1))
                          (Leg3Joint.maxDifference leg1 * Leg3Joint.scale leg1)
               then Leg3Joint.setSticked leg1 false else leg1) = leg1).
  { destruct (Rgt_dec _ _); [| reflexivity].
    rewrite <- Hs1 at 1. apply setSticked_same. }
  rewrite E.
  assert (Hs2 : Leg3Joint.sticked
                  (Leg3Joint.setJoints0 leg1 (Leg3Joint.evalConnPoint link leg1))
                = false) by exact Hs.
  rewrite Hs2. reflexivity.
Qed.

Lemma catchUp_keeps (leg : Leg3Joint.t) (distTraveled : R) :
  Leg3Joint.joints0 (Leg3Joint.catchUp leg distTraveled) = Leg3Joint.joints0 leg
  /\ Leg3Joint.targetPoint (Leg3Joint.catchUp leg distTraveled)
     = Leg3Joint.targetPoint leg.
Proof.
  unfold Leg3Joint.catchUp. cbv zeta.
  destruct (Rle_dec _ _); split; reflexivity.
Qed.

Lemma catchUp_frame (leg : Leg3Joint.t) (distTraveled : R) :
  Leg3Joint.shoulderWidth (Leg3Joint.catchUp leg distTraveled)
  = Leg3Joint.shoulderWidth leg
  /\ Leg3Joint.isShoulderRight (Leg3Joint.catchUp leg distTraveled)
     = Leg3Joint.isShoulderRight leg
  /\ Leg3Joint.scale (Leg3Joint.catchUp leg distTraveled) = Leg3Joint.scale leg.
Proof.
  unfold Leg3Joint.catchUp. cbv zeta.
  destruct (Rle_dec _ _); repeat split; reflexivity.
Qed.

Lemma catchUp_near (leg : Leg3Joint.t) (distTraveled : R) :
  Vector2D.distance (Leg3Joint.joints2 leg) (Leg3Joint.targetPoint leg)
  <= distTraveled * Leg3Joint.returnSpeed leg ->
  Leg3Joint.sticked (Leg3Joint.catchUp leg distTraveled) = true
  /\ Leg3Joint.joints2 (Leg3Joint.catchUp leg distTraveled)
     = Leg3Joint.targetPoint leg.
Proof.
  intros Hle. unfold Leg3Joint.catchUp. cbv zeta.
  destruct (Rle_dec _ _) as [_ | Hn]; [| contradiction].
  split; [reflexivity |].
  cbn [Leg3Joint.setSticked Leg3Joint.setJoints2 Leg3Joint.joints2].
  now destruct (Leg3Joint.targetPoint leg).
Qed.

Lemma catchUp_far (leg : Leg3Joint.t) (distTraveled : R) :
  let toTarget :=
    Vector2D.distance (Leg3Joint.joints2 leg) (Leg3Joint.targetPoint leg) in
  let lengthSum :=
    (fst (Leg3Joint.lengthes leg) + snd (Leg3Joint.lengthes leg))
    * Leg3Joint.scale leg in
  0 <= distTraveled * Leg3Joint.returnSpeed leg < toTarget ->
  Leg3Joint.sticked (Leg3Joint.catchUp leg distTraveled) = Leg3Joint.sticked leg
  /\ Vector2D.distance (Leg3Joint.joints2 (Leg3Joint.catchUp leg distTraveled))
       (Leg3Joint.targetPoint leg)
     = if Rlt_dec toTarget (lengthSum * 1.5)
       then toTarget - distTraveled * Leg3Joint.returnSpeed leg
       else Rabs lengthSum.
Proof.
  intros toTarget lengthSum Hlt. unfold Leg3Joint.catchUp. cbv zeta.
  fold toTarget. fold lengthSum.
  set (available := distTraveled * Leg3Joint.returnSpeed leg) in *.
  destruct (Rle_dec toTarget available) as [Hle | _]; [lra |].
  split; [reflexivity |].
  cbn [Leg3Joint.setJoints2 Leg3Joint.joints2].
  rewrite distance_towards. fold toTarget.
  destruct (Rlt_dec toTarget (lengthSum * 1.5)) as [Hnear | Hfar].
  - replace (1 - available / toTarget) with ((toTarget - available) / toTarget)
      by (field; lra).
    rewrite Rabs_pos_eq.
    + field. lra.
    + apply Rmult_le_pos; [lra |]. left. apply Rinv_0_lt_compat. lra.
  - replace (1 - (toTarget - lengthSum) / toTarget) with (lengthSum / toTarget)
      by (field; lra).
    unfold Rdiv. rewrite Rabs_mult, (Rabs_pos_eq (/ toTarget)).
    + field. lra.
    + left. apply Rinv_0_lt_compat. lra.
Qed.

(** X20.  One [update] of an unstuck leg with a [returnSpeed] that is
    not negative.  The shoulder moves to the connection point and the
    target is recomputed; the foot may move
    [available = distTraveled * returnSpeed].  A foot no further than
    that from the target lands on it and the leg sticks again.
    Otherwise the leg stays unstuck, and the foot ends
    [toTarget - available] from the target, or, from one and a half
    leg lengths away, exactly one leg length from it. *)
Theorem Leg3Joint_catch_up (link : ChainLink.t) (leg : Leg3Joint.t) :
  let target := Leg3Joint.evalTargetPoint link leg in
  let shoulder := Leg3Joint.evalConnPoint link leg in
  let available :=
    Vector2D.distance (Leg3Joint.joints0 leg) shoulder
    * Leg3Joint.returnSpeed leg in
  let toTarget := Vector2D.distance (Leg3Joint.joints2 leg) target in
  let lengthSum :=
    (fst (Leg3Joint.lengthes leg) + snd (Leg3Joint.lengthes leg))
    * Leg3Joint.scale leg in
  let leg' := Leg3Joint.update link leg in
  Leg3Joint.sticked leg = false ->
  0 <= Leg3Joint.returnSpeed leg ->
  Leg3Joint.joints0 leg' = shoulder
  /\ Leg3Joint.targetPoint leg' = target
  /\ (toTarget <= available ->
      Leg3Joint.sticked leg' = true /\ Leg3Joint.joints2 leg' = target)
  /\ (available < toTarget ->
      Leg3Joint.sticked leg' = false
      /\ Vector2D.distance (Leg3Joint.joints2 leg') target
         = if Rlt_dec toTarget (lengthSum * 1.5)
           then toTarget - available
           else Rabs lengthSum).
Proof.
  intros target shoulder available toTarget lengthSum leg' Hs Hspeed.
  unfold leg'. rewrite (Leg3Joint_update_unsticked link leg Hs). cbv zeta.
  set (leg2 := Leg3Joint.setJoints0 _ _).
  set (d := Vector2D.distance _ _).
  assert (Hav : 0 <= available).
  { unfold available. apply Rmult_le_pos; [apply distance_nonneg | exact Hspeed]. }
  destruct (catchUp_keeps leg2 d) as [K0 KT].
  cbn [Leg3Joint.setJoints1 Leg3Joint.joints0 Leg3Joint.joints2
       Leg3Joint.targetPoint Leg3Joint.sticked].
  split; [rewrite K0; reflexivity |].
  split; [rewrite KT; reflexivity |].
  split.
  - intros Hle. apply (catchUp_near leg2 d). exact Hle.
  - intros Hlt. destruct (catchUp_far leg2 d) as [F1 F2].
    + split; [exact Hav | exact Hlt].
    + split; [rewrite F1; exact Hs | exact F2].
Qed.

(** [update] puts the shoulder on the connection point, which the
    fields it leaves alone determine. *)
Lemma update_shoulder (link : ChainLink.t) (leg : Leg3Joint.t) :
  Leg3Joint.joints0 (Leg3Joint.update link leg)
  = Leg3Joint.evalConnPoint link leg
  /\ Leg3Joint.shoulderWidth (Leg3Joint.update link leg)
     = Leg3Joint.shoulderWidth leg
  /\ Leg3Joint.isShoulderRight (Leg3Joint.update link leg)
     = Leg3Joint.isShoulderRight leg
  /\ Leg3Joint.scale (Leg3Joint.update link leg) = Leg3Joint.scale leg.
Proof.
  unfold Leg3Joint.update. cbv zeta.
  set (leg1 := Leg3Joint.setTargetPoint leg _).
  set (leg2 := if Rgt_dec _ _ then _ else _).
  assert (H2 : Leg3Joint.shoulderWidth leg2 = Leg3Joint.shoulderWidth leg
               /\ Leg3Joint.isShoulderRight leg2 = Leg3Joint.isShoulderRight leg
               /\ Leg3Joint.scale leg2 = Leg3Joint.scale leg).
  { unfold leg2. destruct (Rgt_dec _ _); repeat split; reflexivity. }
  destruct H2 as (W2 & R2 & S2).
  assert (HC : Leg3Joint.evalConnPoint link leg2 = Leg3Joint.evalConnPoint link leg).
  { unfold Leg3Joint.evalConnPoint. now rewrite W2, R2, S2. }
  set (leg3 := Leg3Joint.setJoints0 leg2 _).
  set (d := Vector2D.distance _ _).
  set (leg4 := if negb _ then _ else _).
  assert (H4 : Leg3Joint.joints0 leg4 = Leg3Joint.evalConnPoint link leg2
               /\ Leg3Joint.shoulderWidth leg4 = Leg3Joint.shoulderWidth leg2
               /\ Leg3Joint.isShoulderRight leg4 = Leg3Joint.isShoulderRight leg2
               /\ Leg3Joint.scale leg4 = Leg3Joint.scale leg2).
  { unfold leg4. destruct (negb _).
    - destruct (catchUp_keeps leg3 d) as [K0 _].
      destruct (catchUp_frame leg3 d) as (F1 & F2 & F3).
      rewrite K0, F1, F2, F3. repeat split; reflexivity.
    - repeat split; reflexivity. }
  destruct H4 as (J4 & W4 & R4 & S4).
  cbn [Leg3Joint.setJoints1 Leg3Joint.joints0 Leg3Joint.shoulderWidth
       Leg3Joint.isShoulderRight Leg3Joint.scale Leg3Joint._scale].
  unfold Leg3Joint.scale in *.
  rewrite J4, W4, R4, S4, HC, W2, R2, S2. repeat split; reflexivity.
Qed.

Lemma update_anchor (link : ChainLink.t) (leg : Leg3Joint.t) :
  Leg3Joint.anchorAngle (Leg3Joint.update link leg) = Leg3Joint.anchorAngle leg
  /\ Leg3Joint.anchorDistance (Leg3Joint.update link leg)
     = Leg3Joint.anchorDistance leg.
Proof.
  unfold Leg3Joint.update. cbv zeta.
  cbn [Leg3Joint.setJoints1 Leg3Joint.anchorAngle Leg3Joint.anchorDistance].
  destruct (negb _).
  - unfold Leg3Joint.catchUp. cbv zeta.
    destruct (Rle_dec _ _); destruct (Rgt_dec _ _); split; reflexivity.
  - destruct (Rgt_dec _ _); split; reflexivity.
Qed.

(** A leg that stands on its target with its shoulder in place. *)
Lemma update_on_target (link : ChainLink.t) (leg : Leg3Joint.t) :
  Leg3Joint.sticked leg = true ->
  Leg3Joint.joints0 leg = Leg3Joint.evalConnPoint link leg ->
  Leg3Joint.joints2 leg = Leg3Joint.evalTargetPoint link leg ->
  Leg3Joint.sticked (Leg3Joint.update link leg) = true
  /\ Leg3Joint.joints2 (Leg3Joint.update link leg) = Leg3Joint.joints2 leg
  /\ Leg3Joint.targetPoint (Leg3Joint.update link leg) = Leg3Joint.joints2 leg.
Proof.
  intros Hs H0 H2. unfold Leg3Joint.update. cbv zeta.
  set (leg1 := Leg3Joint.setTargetPoint leg _).
  assert (Hd : Vector2D.distance (Leg3Joint.joints2 leg1)
                 (Leg3Joint.targetPoint leg1) = 0).
  { unfold leg1. cbn [Leg3Joint.setTargetPoint Leg3Joint.joints2
                      Leg3Joint.targetPoint].
    rewrite <- H2. apply distance_self. }
  rewrite Hd.
  destruct (Rgt_dec 0 _) as [Hneg | Hpos].
  - set (leg2 := Leg3Joint.setSticked leg1 false).
    assert (HC : Leg3Joint.evalConnPoint link leg2 = Leg3Joint.joints0 leg2).
    { change (Leg3Joint.evalConnPoint link leg = Leg3Joint.joints0 leg).
      now symmetry. }
    rewrite HC. rewrite distance_self.
    set (leg3 := Leg3Joint.setJoints0 leg2 (Leg3Joint.joints0 leg2)).
    change (Leg3Joint.sticked leg3) with false. cbn [negb].
    destruct (catchUp_near leg3 0) as [N1 N2].
    { change (Leg3Joint.joints2 leg3) with (Leg3Joint.joints2 leg1).
      change (Leg3Joint.targetPoint leg3) with (Leg3Joint.targetPoint leg1).
      rewrite Hd. lra. }
    cbn [Leg3Joint.setJoints1 Leg3Joint.sticked Leg3Joint.joints2
         Leg3Joint.targetPoint].
    destruct (catchUp_keeps leg3 0) as [_ KT].
    rewrite N1, N2, KT.
    change (Leg3Joint.targetPoint leg3)
      with (Leg3Joint.evalTargetPoint link leg).
    rewrite <- H2. repeat split; reflexivity.
  - set (leg3 := Leg3Joint.setJoints0 leg1 _).
    change (Leg3Joint.sticked leg3) with (Leg3Joint.sticked leg).
    rewrite Hs. cbn [negb].
    cbn [Leg3Joint.setJoints1 Leg3Joint.sticked Leg3Joint.joints2
         Leg3Joint.targetPoint].
    change (Leg3Joint.sticked leg3) with (Leg3Joint.sticked leg).
    change (Leg3Joint.joints2 leg3) with (Leg3Joint.joints2 leg).
    change (Leg3Joint.targetPoint leg3)
      with (Leg3Joint.evalTargetPoint link leg).
    rewrite <- H2. split; [exact Hs | split; reflexivity].
Qed.

(** X21.  A new leg is planted: whatever the arguments of the
    constructor, the leg is sticked, its shoulder is on the
    connection point of its link, [|shoulderWidth * scale|] from the
    link, and its foot is on the target point,
    [|anchorDistance * scale|] from the shoulder. *)
Theorem Leg3Joint_new_planted (link : ChainLink.t) (shoulderWidth : R)
    (isShoulderRight : bool) (length1 length2 : R)
    (anchorAngle anchorDistance maxDifference : R)
    (returnSpeed : R) (isForwardBend : bool) (scale : R) :
  let leg :=
    Leg3Joint.new link shoulderWidth isShoulderRight length1 length2
      anchorAngle anchorDistance maxDifference returnSpeed isForwardBend
      scale in
  Leg3Joint.sticked leg = true
  /\ Leg3Joint.joints0 leg = Leg3Joint.evalConnPoint link leg
  /\ Leg3Joint.joints2 leg = Leg3Joint.evalTargetPoint link leg
  /\ Leg3Joint.targetPoint leg = Leg3Joint.joints2 leg
  /\ Vector2D.distance (ChainLink.pos link) (Leg3Joint.joints0 leg)
     = Rabs (shoulderWidth * Rabs scale)
  /\ Vector2D.distance (Leg3Joint.joints0 leg) (Leg3Joint.joints2 leg)
     = Rabs (anchorDistance * Rabs scale).
Proof.
  intros leg. unfold leg, Leg3Joint.new. cbv zeta.
  set (leg0 := Leg3Joint.mk _ _ _ _ _ _ _ _ _ _ _ _ _ _).
  set (leg1 := Leg3Joint.setJoints0 leg0 _).
  set (leg2 := Leg3Joint.setJoints2 leg1 _).
  set (leg3 := Leg3Joint.setJoints1 leg2 _).
  set (leg4 := Leg3Joint.setTargetPoint leg3 _).
  assert (Hs : Leg3Joint.sticked leg4 = true) by reflexivity.
  assert (H0 : Leg3Joint.joints0 leg4 = Leg3Joint.evalConnPoint link leg4)
    by reflexivity.
  assert (H2 : Leg3Joint.joints2 leg4 = Leg3Joint.evalTargetPoint link leg4)
    by reflexivity.
  destruct (update_on_target link leg4 Hs H0 H2) as (U1 & U2 & U3).
  destruct (update_shoulder link leg4) as (S0 & SW & SR & SS).
  assert (HC : Leg3Joint.evalConnPoint link (Leg3Joint.update link leg4)
               = Leg3Joint.evalConnPoint link leg4).
  { unfold Leg3Joint.evalConnPoint. now rewrite SW, SR, SS. }
  split; [exact U1 |].
  split; [now rewrite S0, HC |].
  split.
  { rewrite U2, H2. unfold Leg3Joint.evalTargetPoint.
    rewrite S0, <- H0.
    assert (F : Leg3Joint.anchorAngle (Leg3Joint.update link leg4)
                = Leg3Joint.anchorAngle leg4
                /\ Leg3Joint.anchorDistance (Leg3Joint.update link leg4)
                   = Leg3Joint.anchorDistance leg4).
    { apply update_anchor. }
    destruct F as [-> ->]. now rewrite SR, SS. }
  split; [now rewrite U2, U3 |].
  split.
  - rewrite S0. unfold Leg3Joint.evalConnPoint. rewrite distance_addPolar.
    reflexivity.
  - rewrite S0, U2, H2, <- H0. unfold Leg3Joint.evalTargetPoint.
    rewrite distance_addPolar. reflexivity.
Qed.

(** X23.  [Lizard.update(pos)] updates the spine as [BodyBase.update]
    does and keeps every leg on its link: after the call the shoulder
    of each leg is the connection point of its link as this update
    moved it, [|shoulderWidth * scale|] from the position of the
    link. *)
Theorem Lizard_update_legs (l : Lizard.t) (pos : Vector2D.t) :
  Lizard.body (Lizard.update l pos) = BodyBase.update (Lizard.body l) pos
  /\ map fst (Lizard.legs (Lizard.update l pos)) = map fst (Lizard.legs l)
  /\ Forall
       (fun leg =>
          let link := Lizard.linkOf (Lizard.body (Lizard.update l pos)) (fst leg) in
          Leg3Joint.joints0 (snd leg) = Leg3Joint.evalConnPoint link (snd leg)
          /\ Vector2D.distance (ChainLink.pos link) (Leg3Joint.joints0 (snd leg))
             = Rabs (Leg3Joint.shoulderWidth (snd leg)
                     * Leg3Joint.scale (snd leg)))
       (Lizard.legs (Lizard.update l pos)).
Proof.
  unfold Lizard.update. cbn [Lizard.body Lizard.legs].
  split; [reflexivity |]. split.
  - rewrite map_map. cbn [fst]. reflexivity.
  - apply Forall_forall. intros leg Hin. apply in_map_iff in Hin.
    destruct Hin as ([i leg0] & <- & _). cbn [fst snd].
    destruct (update_shoulder
                (Lizard.linkOf (BodyBase.update (Lizard.body l) pos) i) leg0)
      as (E1 & W & R & S).
    assert (HC : Leg3Joint.evalConnPoint
                   (Lizard.linkOf (BodyBase.update (Lizard.body l) pos) i)
                   (Leg3Joint.update
                      (Lizard.linkOf (BodyBase.update (Lizard.body l) pos) i)
                      leg0)
                 = Leg3Joint.evalConnPoint
                     (Lizard.linkOf (BodyBase.update (Lizard.body l) pos) i)
                     leg0).
    { unfold Leg3Joint.evalConnPoint. now rewrite W, R, S. }
    split.
    + now rewrite E1, HC.
    + rewrite E1, W, S. unfold Leg3Joint.evalConnPoint.
      apply distance_addPolar.
Qed.

(* ================================================================= *)
(** ** Boids *)

(** X24.  [edges] on an area of width and height that are not
    negative puts the boid inside the area: a boid inside is not
    moved, a boid beyond an edge re-enters exactly on the opposite
    edge, and a second call changes nothing. *)
Theorem Boid_edges_wraps {A : Type} (b : Boid.t A) (boundaries : Boundaries.t) :
  0 <= Boundaries.width boundaries -> 0 <= Boundaries.height boundaries ->
  let b' := Boid.edges b boundaries in
  withinBounds boundaries (Boid.position b')
  /\ (withinBounds boundaries (Boid.position b) -> b' = b)
  /\ Boid.edges b' boundaries = b'
  /\ (Vector2D.x (Boid.position b)
      > Boundaries.width boundaries + Boundaries.left boundaries ->
      Vector2D.x (Boid.position b') = Boundaries.left boundaries)
  /\ (Vector2D.x (Boid.position b) < Boundaries.left boundaries ->
      Vector2D.x (Boid.position b')
      = Boundaries.width boundaries + Boundaries.left boundaries)
  /\ (Vector2D.y (Boid.position b)
      > Boundaries.height boundaries + Boundaries.top boundaries ->
      Vector2D.y (Boid.position b') = Boundaries.top boundaries)
  /\ (Vector2D.y (Boid.position b) < Boundaries.top boundaries ->
      Vector2D.y (Boid.position b')
      = Boundaries.height boundaries + Boundaries.top boundaries).
Proof.
  intros Hw Hh b'. unfold b', withinBounds.
  destruct b as [[x y] v a an], boundaries as [w h l t m].
  unfold Boid.edges.
  cbn [Boid.position Boid.velocity Boid.acceleration Boid.animal
       Vector2D.x Vector2D.y Boundaries.width Boundaries.height
       Boundaries.left Boundaries.top] in *.
  destruct (Rgt_dec x (w + l)) as [Hx1 | Hx1];
    [| destruct (Rlt_dec x l) as [Hx2 | Hx2]];
    (destruct (Rgt_dec y (h + t)) as [Hy1 | Hy1];
     [| destruct (Rlt_dec y t) as [Hy2 | Hy2]]);
    repeat split; try lra; try reflexivity;
    try (intros [[? ?] [? ?]]; exfalso; lra);
    repeat match goal with
           | |- context [Rgt_dec ?a ?b] => destruct (Rgt_dec a b); try lra
           | |- context [Rlt_dec ?a ?b] => destruct (Rlt_dec a b); try lra
           end;
    try reflexivity; try (intros; lra).
Qed.


Lemma sum_nil : Boid.sum [] = Vector2D.Zero.
Proof. reflexivity. Qed.

(** X26.  [flock] on a boid with no other boid nearer than the
    perception radius sets its acceleration to zero, whatever it was
    before, and leaves position, velocity and animal alone. *)
Theorem Boid_flock_alone {A : Type} (this : Boid.t A) (boids : list (Boid.t A))
    (params : SimulationParams.t) :
  Forall
    (fun boid =>
       SimulationParams.perceptionRadius params
       <= Vector2D.distance (Boid.position this) (Boid.position boid))
    boids ->
  Boid.flock this boids params
  = Boid.mk (Boid.position this) (Boid.velocity this) (Vector2D.mk 0 0)
      (Boid.animal this).
Proof.
  intros Hfar.
  assert (Hnear : Boid.neighbours this boids
                    (SimulationParams.perceptionRadius params) = []).
  { unfold Boid.neighbours. induction Hfar as [| boid rest Hb _ IH]; [reflexivity |].
    cbn [filter]. destruct (Rlt_dec _ _) as [Hlt | _]; [lra | exact IH]. }
  unfold Boid.flock, Boid.align, Boid.cohesion, Boid.separate.
  rewrite Hnear. cbn [map length Nat.ltb Nat.leb]. rewrite sum_nil.
  unfold Vector2D.add, Vector2D.scale, Vector2D.Zero.
  cbn [Vector2D.x Vector2D.y]. f_equal. f_equal; ring.
Qed.

Lemma align_bounded {A : Type} (this : Boid.t A) (boids : list (Boid.t A))
    (params : SimulationParams.t) :
  Vector2D.magnitude (Boid.align this boids params)
  <= Rabs (SimulationParams.maxAcceleration params).
Proof.
  unfold Boid.align. cbv zeta. destruct (0 <? _)%nat eqn:Hn.
  - apply clampMag_le.
  - destruct (Boid.neighbours _ _ _); [| discriminate].
    cbn [map]. rewrite sum_nil. unfold Vector2D.Zero.
    rewrite magnitude_Zero. apply Rabs_pos.
Qed.

Lemma cohesion_bounded {A : Type} (this : Boid.t A) (boids : list (Boid.t A))
    (params : SimulationParams.t) :
  Vector2D.magnitude (Boid.cohesion this boids params)
  <= Rabs (SimulationParams.maxAcceleration params).
Proof.
  unfold Boid.cohesion. cbv zeta. destruct (0 <? _)%nat eqn:Hn.
  - apply clampMag_le.
  - destruct (Boid.neighbours _ _ _); [| discriminate].
    cbn [map]. rewrite sum_nil. unfold Vector2D.Zero.
    rewrite magnitude_Zero. apply Rabs_pos.
Qed.

Lemma separate_bounded {A : Type} (this : Boid.t A) (boids : list (Boid.t A))
    (params : SimulationParams.t) :
  Vector2D.magnitude (Boid.separate this boids params)
  <= Rabs (SimulationParams.maxAcceleration params).
Proof.
  unfold Boid.separate. cbv zeta. destruct (0 <? _)%nat eqn:Hn.
  - apply clampMag_le.
  - destruct (Boid.neighbours _ _ _); [| discriminate].
    cbn [map]. rewrite sum_nil. unfold Vector2D.Zero.
    rewrite magnitude_Zero. apply Rabs_pos.
Qed.

(** X27.  On a flock where no other boid is at the position of
    [this], each of [align], [cohesion] and [separate] returns a
    vector no longer than [|maxAcceleration|], so the acceleration
    [flock] stores is at most the sum of the magnitudes of the three
    impacts times [|maxAcceleration|]; [flock] does not move the
    boid. *)
Theorem Boid_flock_bounded {A : Type} (this : Boid.t A)
    (boids : list (Boid.t A)) (params : SimulationParams.t) :
  Forall (fun boid => Boid.position boid <> Boid.position this) boids ->
  let limit := Rabs (SimulationParams.maxAcceleration params) in
  Vector2D.magnitude (Boid.align this boids params) <= limit
  /\ Vector2D.magnitude (Boid.cohesion this boids params) <= limit
  /\ Vector2D.magnitude (Boid.separate this boids params) <= limit
  /\ Vector2D.magnitude (Boid.acceleration (Boid.flock this boids params))
     <= (Rabs (SimulationParams.alignmentImpact params)
         + Rabs (SimulationParams.cohesionImpact params)
         + Rabs (SimulationParams.avoidanceImpact params)) * limit
  /\ Boid.position (Boid.flock this boids params) = Boid.position this
  /\ Boid.velocity (Boid.flock this boids params) = Boid.velocity this.
Proof.
  intros _ limit.
  pose proof (align_bounded this boids params) as Ha.
  pose proof (cohesion_bounded this boids params) as Hc.
  pose proof (separate_bounded this boids params) as Hs.
  fold limit in Ha, Hc, Hs.
  split; [exact Ha |]. split; [exact Hc |]. split; [exact Hs |].
  split; [| split; reflexivity].
  unfold Boid.flock. cbn [Boid.acceleration].
  set (al := Boid.align this boids params) in *.
  set (co := Boid.cohesion this boids params) in *.
  set (av := Boid.separate this boids params) in *.
  eapply Rle_trans; [apply magnitude_add_le |].
  eapply Rle_trans;
    [apply Rplus_le_compat_r; apply magnitude_add_le |].
  eapply Rle_trans;
    [apply Rplus_le_compat_r; apply Rplus_le_compat_r; apply magnitude_add_le |].
  rewrite !magnitude_scale, magnitude_Zero.
  pose proof (Rabs_pos (SimulationParams.alignmentImpact params)).
  pose proof (Rabs_pos (SimulationParams.cohesionImpact params)).
  pose proof (Rabs_pos (SimulationParams.avoidanceImpact params)).
  nra.
Qed.

(* ================================================================= *)
(** ** Ripples *)

Lemma remove_absent (i : nat) (l : list RipplesManager.instance) :
  ~ In i (map RipplesManager.ident l) -> RipplesManager.remove i l = l.
Proof.
  induction l as [| e rest IH]; intros Hn; [reflexivity |].
  cbn [RipplesManager.remove]. cbn [map In] in Hn.
  destruct (Nat.eqb_spec (RipplesManager.ident e) i) as [He | He].
  - exfalso. apply Hn. now left.
  - f_equal. apply IH. intros Hin. apply Hn. now right.
Qed.

Lemma remove_incl (i : nat) (l : list RipplesManager.instance) :
  forall j, In j (map RipplesManager.ident (RipplesManager.remove i l)) ->
            In j (map RipplesManager.ident l).
Proof.
  induction l as [| e rest IH]; intros j Hj; [exact Hj |].
  cbn [RipplesManager.remove] in Hj.
  destruct (Nat.eqb (RipplesManager.ident e) i).
  - cbn [map In]. now right.
  - cbn [map In] in *. destruct Hj as [Hj | Hj]; [now left | right; now apply IH].
Qed.

Lemma remove_NoDup (i : nat) (l : list RipplesManager.instance) :
  NoDup (map RipplesManager.ident l) ->
  NoDup (map RipplesManager.ident (RipplesManager.remove i l))
  /\ ~ In i (map RipplesManager.ident (RipplesManager.remove i l)).
Proof.
  induction l as [| e rest IH]; intros Hnd.
  - split; [constructor | intros []].
  - cbn [map] in Hnd. inversion Hnd as [| x xs Hx Hrest]; subst.
    cbn [RipplesManager.remove].
    destruct (Nat.eqb_spec (RipplesManager.ident e) i) as [He | He].
    + subst i. split; assumption.
    + destruct (IH Hrest) as [IH1 IH2]. cbn [map]. split.
      * constructor; [| exact IH1]. intros Hin. apply Hx.
        now apply (remove_incl i).
      * cbn [In]. intros [Heq | Hin]; [now apply He | now apply IH2].
Qed.

Lemma remove_last (l : list RipplesManager.instance) (n : nat)
    (point : Vector2D.t) (time delay : R) :
  Forall (fun j => (j < n)%nat) (map RipplesManager.ident l) ->
  RipplesManager.remove n (l ++ [RipplesManager.mkInstance n point time delay])
  = l.
Proof.
  induction l as [| e rest IH]; intros Hlt.
  - cbn [app RipplesManager.remove RipplesManager.ident].
    rewrite Nat.eqb_refl. reflexivity.
  - cbn [app RipplesManager.remove]. cbn [map] in Hlt.
    inversion Hlt as [| x xs Hx Hrest]; subst.
    destruct (Nat.eqb_spec (RipplesManager.ident e) n) as [He | He]; [lia |].
    f_equal. now apply IH.
Qed.

Lemma run_fresh (m : RipplesManager.t) (c : RipplesManager.call) :
  fresh m -> fresh (RipplesManager.run m c).
Proof.
  intros [Hnd Hlt]. destruct c as [point now | i]; cbn [RipplesManager.run].
  - unfold RipplesManager.addPoint. destruct (_ <=? _)%nat; [now split |].
    unfold fresh. cbn [RipplesManager.points RipplesManager.nextIdent].
    rewrite map_app. cbn [map RipplesManager.ident]. split.
    + apply NoDup_app; [exact Hnd | repeat constructor; intros [] |].
      intros j Hj [Hin | []]. subst j.
      rewrite Forall_forall in Hlt. specialize (Hlt _ Hj). lia.
    + apply Forall_app. split.
      * eapply Forall_impl; [| exact Hlt]. intros j Hj. cbn beta in Hj. lia.
      * repeat constructor.
  - unfold RipplesManager.removePoint, fresh.
    cbn [RipplesManager.points RipplesManager.nextIdent]. split.
    + now apply remove_NoDup.
    + rewrite Forall_forall in *. intros j Hj. apply Hlt.
      now apply (remove_incl i).
Qed.

Lemma reachable_fresh (m : RipplesManager.t) : reachable m -> fresh m.
Proof.
  intros (k & d & calls & ->). unfold RipplesManager.runAll.
  assert (Hgen : forall m0, fresh m0 -> fresh (fold_left RipplesManager.run calls m0)).
  { induction calls as [| c calls IH]; intros m0 H0; [exact H0 |].
    cbn [fold_left]. apply IH. now apply run_fresh. }
  apply Hgen. split; [constructor | constructor].
Qed.

Lemma new_reachable (maxRipples : nat) (delay : R) :
  reachable (RipplesManager.new maxRipples delay).
Proof. exists maxRipples, delay, []. reflexivity. Qed.

(** X28.  [removePoint] removes an entry once: on a manager that
    calls of [addPoint] and [removePoint] have produced, removing an
    entry a second time changes nothing, removing an entry that is
    not in the list changes nothing, removing one that is shortens
    the list by one, and every other entry stays. *)
Theorem RipplesManager_removePoint_once (m : RipplesManager.t) (arrInstance : nat) :
  reachable m ->
  RipplesManager.removePoint (RipplesManager.removePoint m arrInstance) arrInstance
  = RipplesManager.removePoint m arrInstance
  /\ (~ In arrInstance (map RipplesManager.ident (RipplesManager.points m)) ->
      RipplesManager.removePoint m arrInstance = m)
  /\ (In arrInstance (map RipplesManager.ident (RipplesManager.points m)) ->
      S (length (RipplesManager.points (RipplesManager.removePoint m arrInstance)))
      = length (RipplesManager.points m))
  /\ (forall e,
        In e (RipplesManager.points m) ->
        RipplesManager.ident e <> arrInstance ->
        In e (RipplesManager.points (RipplesManager.removePoint m arrInstance))).
Proof.
  intros Hr. destruct (reachable_fresh m Hr) as [Hnd _].
  destruct (remove_NoDup arrInstance _ Hnd) as [_ Habs].
  unfold RipplesManager.removePoint. cbn [RipplesManager.points
    RipplesManager.maxRipples RipplesManager.delay RipplesManager.nextIdent].
  split; [| split; [| split]].
  - f_equal. now apply remove_absent.
  - intros Hn. rewrite (remove_absent _ _ Hn). now destruct m.
  - clear. induction (RipplesManager.points m) as [| e rest IH]; intros Hin.
    + destruct Hin.
    + cbn [RipplesManager.remove].
      destruct (Nat.eqb_spec (RipplesManager.ident e) arrInstance) as [He | He];
        [reflexivity |].
      cbn [length]. f_equal. apply IH. cbn [map In] in Hin.
      destruct Hin as [Hin | Hin]; [contradiction | exact Hin].
  - clear. induction (RipplesManager.points m) as [| e0 rest IH]; intros e Hin Hne.
    + destruct Hin.
    + cbn [RipplesManager.remove].
      destruct (Nat.eqb_spec (RipplesManager.ident e0) arrInstance) as [He | He].
      * destruct Hin as [-> | Hin]; [contradiction | exact Hin].
      * destruct Hin as [-> | Hin]; [now left | right; now apply IH].
Qed.

(** X29.  Below capacity [addPoint] appends the point to what
    [getPoints] returns, and the [removePoint] its timer runs on the
    new entry restores the list of entries as it was before. *)
Theorem RipplesManager_addPoint_expires (m : RipplesManager.t)
    (point : Vector2D.t) (now : R) :
  reachable m ->
  (length (RipplesManager.points m) < RipplesManager.maxRipples m)%nat ->
  let m' := RipplesManager.addPoint m point now in
  RipplesManager.getPoints m' = RipplesManager.getPoints m ++ [point]
  /\ reachable m'
  /\ RipplesManager.points (RipplesManager.removePoint m' (RipplesManager.nextIdent m))
     = RipplesManager.points m.
Proof.
  intros Hr Hlen m'. destruct (reachable_fresh m Hr) as [_ Hlt].
  assert (Hm' : m' = RipplesManager.mk
                       (RipplesManager.points m
                        ++ [RipplesManager.mkInstance (RipplesManager.nextIdent m)
                              point now (RipplesManager.delay m)])
                       (RipplesManager.maxRipples m) (RipplesManager.delay m)
                       (S (RipplesManager.nextIdent m))).
  { unfold m', RipplesManager.addPoint.
    destruct (Nat.leb_spec (RipplesManager.maxRipples m)
                (length (RipplesManager.points m))); [lia | reflexivity]. }
  split; [| split].
  - rewrite Hm'. unfold RipplesManager.getPoints. cbn [RipplesManager.points].
    now rewrite map_app.
  - destruct Hr as (k & d & calls & ->).
    exists k, d, (calls ++ [RipplesManager.AddPoint point now]).
    unfold m', RipplesManager.runAll. now rewrite fold_left_app.
  - rewrite Hm'. unfold RipplesManager.removePoint. cbn [RipplesManager.points].
    now apply remove_last.
Qed.

(* ================================================================= *)
(** ** The further properties at concrete inputs *)

Lemma Vector2D_polar_round_trip_witness :
  Vector2D.magnitude (Vector2D.fromPolar (PI / 2) 3) = 3
  /\ Vector2D.angle (Vector2D.fromPolar (PI / 2) 3) = PI / 2.
Proof.
  apply Vector2D_polar_round_trip; [lra |].
  pose proof PI_RGT_0. lra.
Defined.

Lemma Vector2D_clampMag_range_witness :
  1 <= Vector2D.magnitude
         (Vector2D.clampMag (Vector2D.mk 3 4) 1 (Some 2)) <= 2.
Proof.
  apply (Vector2D_clampMag_range (Vector2D.mk 3 4) 1 2). lra.
Defined.

Lemma hsvToRgb_range_witness :
  exists r g b,
    Colour.hsvToRgb (1 / 2) 1 1 = [Num r; Num g; Num b]
    /\ 0 <= r <= 255 /\ 0 <= g <= 255 /\ 0 <= b <= 255
    /\ Rmax (Rmax r g) b = 1 * 255
    /\ Rmin (Rmin r g) b = 1 * (1 - 1) * 255.
Proof. apply hsvToRgb_range; lra. Defined.

Lemma hsvToRgb_hue_period_witness :
  Colour.hsvToRgb (1 / 2 + 1) 1 1 = Colour.hsvToRgb (1 / 2) 1 1.
Proof. apply hsvToRgb_hue_period. lra. Defined.

Lemma hsvToRgb_negative_hue_witness :
  Colour.hsvToRgb (- 1 / 2) 1 1 = [NaN; NaN; NaN].
Proof. apply hsvToRgb_negative_hue. lra. Defined.

Lemma hsvToRgb_rgb2hsv_witness :
  exists h s v,
    Colour.rgb2hsv 1 0 (1 / 2) = [h; s; v]
    /\ 0 <= h < 1 /\ 0 <= s <= 1 /\ v = Rmax (Rmax 1 0) (1 / 2)
    /\ Colour.hsvToRgb h s v = [Num (1 * 255); Num (0 * 255); Num (1 / 2 * 255)].
Proof. apply hsvToRgb_rgb2hsv; lra. Defined.

Lemma BodyBase_update_outsideCone_witness :
  0 < BodyBase.spacing spine3 * BodyBase.scale spine3
  /\ 0 <= BodyBase.maxAngle spine3 <= 180
  /\ chainOutsideCone (BodyBase.maxAngle spine3)
       (BodyBase.link1 (BodyBase.update spine3 spine3_head))
       (BodyBase.link2 (BodyBase.update spine3 spine3_head))
       (BodyBase.links (BodyBase.update spine3 spine3_head)).
Proof.
  assert (Hd : 0 < BodyBase.spacing spine3 * BodyBase.scale spine3).
  { cbn. rewrite Rabs_R1. lra. }
  assert (Hm : 0 <= BodyBase.maxAngle spine3 <= 180) by (cbn; lra).
  split; [exact Hd |]. split; [exact Hm |].
  exact (BodyBase_update_outsideCone spine3 spine3_head Hd Hm).
Defined.

Lemma getTotalCurvature_three_links_witness :
  BodyBase.links spine3 <> [] /\ BodyBase.maxAngle spine3 <> 0
  /\ exists r, BodyBase.getTotalCurvature spine3 = Num r /\ -1 <= r <= 1.
Proof.
  assert (Hl : BodyBase.links spine3 <> []) by (cbn; discriminate).
  assert (Hm : BodyBase.maxAngle spine3 <> 0) by (cbn; lra).
  split; [exact Hl |]. split; [exact Hm |].
  exact (getTotalCurvature_three_links spine3 Hl Hm).
Defined.

Lemma BodyBase_new_straight_witness :
  hangsBelow Vector2D.Zero (13 * Rabs 1) 0
    (BodyBase.chainLinks
       (BodyBase.update
          (BodyBase.new [14; 18; 19.5] 13 20 Vector2D.Zero 8 5 1)
          Vector2D.Zero))
  /\ BodyBase.totalCurvature
       (BodyBase.update
          (BodyBase.new [14; 18; 19.5] 13 20 Vector2D.Zero 8 5 1)
          Vector2D.Zero)
     = Num 0.
Proof.
  assert (Hs : 0 < 13) by lra.
  assert (Hsc : 0 < Rabs 1 <= 1) by (rewrite Rabs_R1; lra).
  assert (Hm : 0 <= 20) by lra.
  destruct (BodyBase_new_straight [14; 18; 19.5] 13 20 Vector2D.Zero 8 5 1
              Hs Hsc Hm) as (Hh & _ & Hc).
  split; [exact Hh |]. apply Hc; [lra | cbn; lia].
Defined.

Lemma BodyBase_getEndPoints_cap_witness :
  length (BodyBase.getEndPoints spine3 true) = 5%nat
  /\ hd_error (BodyBase.getEndPoints spine3 true)
     = nth_error
         (ChainLink.getSidePoints (BodyBase.link1 spine3) (BodyBase.scale spine3))
         0
  /\ last (BodyBase.getEndPoints spine3 true) Vector2D.Zero
     = nth 1
         (ChainLink.getSidePoints (BodyBase.link1 spine3) (BodyBase.scale spine3))
         Vector2D.Zero.
Proof.
  assert (Hn : (if true then BodyBase.headPoints spine3
                else BodyBase.tailPoints spine3) = INR 5).
  { cbn [spine3 BodyBase.new BodyBase.headPoints].
    rewrite Rmax_right by lra. cbn [INR]. ring. }
  assert (Hk : (2 <= 5)%nat) by lia.
  destruct (BodyBase_getEndPoints_cap spine3 true 5 Hn Hk) as (H1 & _ & H3 & H4).
  split; [exact H1 |]. split; [exact H3 | exact H4].
Defined.

Lemma stridingLeg_lag :
  Vector2D.distance (Leg3Joint.joints0 stridingLeg)
    (Leg3Joint.evalConnPoint restingLink stridingLeg)
  * Leg3Joint.returnSpeed stridingLeg
  < Vector2D.distance (Leg3Joint.joints2 stridingLeg)
      (Leg3Joint.evalTargetPoint restingLink stridingLeg).
Proof.
  unfold Leg3Joint.evalConnPoint, Leg3Joint.evalTargetPoint, stridingLeg,
    restingLink, Leg3Joint.scale.
  cbn [Leg3Joint.joints0 Leg3Joint.joints2 Leg3Joint.shoulderWidth
       Leg3Joint.anchorDistance Leg3Joint.returnSpeed Leg3Joint._scale
       ChainLink.pos].
  rewrite !addPolar_zero, distance_self.
  unfold Vector2D.distance. cbn [Vector2D.x Vector2D.y].
  replace ((1 - 0) * (1 - 0) + (0 - 0) * (0 - 0)) with 1 by ring.
  rewrite sqrt_1. lra.
Qed.

Lemma Leg3Joint_catch_up_witness :
  Leg3Joint.sticked stridingLeg = false
  /\ 0 <= Leg3Joint.returnSpeed stridingLeg
  /\ Leg3Joint.joints0 (Leg3Joint.update restingLink stridingLeg)
     = Leg3Joint.evalConnPoint restingLink stridingLeg
  /\ Leg3Joint.targetPoint (Leg3Joint.update restingLink stridingLeg)
     = Leg3Joint.evalTargetPoint restingLink stridingLeg
  /\ Leg3Joint.sticked (Leg3Joint.update restingLink stridingLeg) = false.
Proof.
  assert (Hs : Leg3Joint.sticked stridingLeg = false) by reflexivity.
  assert (Hr : 0 <= Leg3Joint.returnSpeed stridingLeg) by (cbn; lra).
  split; [exact Hs |]. split; [exact Hr |].
  destruct (Leg3Joint_catch_up restingLink stridingLeg Hs Hr)
    as (H0 & HT & _ & Hfar).
  split; [exact H0 |]. split; [exact HT |].
  exact (proj1 (Hfar stridingLeg_lag)).
Defined.

Lemma Leg3Joint_two_checks_witness :
  Leg3Joint.sticked restingLeg = true
  /\ footWithinReach restingLink restingLeg
  /\ footWithinReach restingLink (Leg3Joint.update restingLink restingLeg)
  /\ Leg3Joint.sticked (Leg3Joint.updates 5 restingLink restingLeg) = true
  /\ Leg3Joint.joints2 (Leg3Joint.updates 5 restingLink restingLeg)
     = Leg3Joint.joints2 restingLeg.
Proof.
  assert (Hr' : footWithinReach restingLink
                  (Leg3Joint.update restingLink restingLeg)).
  { apply (Leg3Joint_reach_settles restingLink 1);
      [reflexivity | exact restingLeg_settled | exact restingLeg_reach]. }
  split; [reflexivity |]. split; [exact restingLeg_reach |].
  split; [exact Hr' |].
  exact (Leg3Joint_two_checks restingLink restingLeg 5 eq_refl
           restingLeg_reach Hr').
Defined.

Lemma Boid_edges_wraps_witness :
  0 <= Boundaries.width (Simulation.newBoundaries 800 600 200)
  /\ 0 <= Boundaries.height (Simulation.newBoundaries 800 600 200)
  /\ withinBounds (Simulation.newBoundaries 800 600 200)
       (Boid.position (Boid.edges loneBoid (Simulation.newBoundaries 800 600 200)))
  /\ Boid.edges (Boid.edges loneBoid (Simulation.newBoundaries 800 600 200))
       (Simulation.newBoundaries 800 600 200)
     = Boid.edges loneBoid (Simulation.newBoundaries 800 600 200).
Proof.
  assert (Hw : 0 <= Boundaries.width (Simulation.newBoundaries 800 600 200))
    by (cbn; lra).
  assert (Hh : 0 <= Boundaries.height (Simulation.newBoundaries 800 600 200))
    by (cbn; lra).
  split; [exact Hw |]. split; [exact Hh |].
  destruct (Boid_edges_wraps loneBoid (Simulation.newBoundaries 800 600 200)
              Hw Hh) as (H1 & _ & H3 & _).
  split; [exact H1 | exact H3].
Defined.


Lemma farBoid_distance :
  Vector2D.distance (Boid.position loneBoid) (Boid.position farBoid) = 198.
Proof.
  unfold Vector2D.distance, loneBoid, farBoid.
  cbn [Boid.position Vector2D.x Vector2D.y].
  replace ((2 - 200) * (2 - 200) + (0 - 0) * (0 - 0)) with (198 * 198) by ring.
  apply sqrt_square. lra.
Qed.

Lemma Boid_flock_alone_witness :
  Boid.flock loneBoid [farBoid] SimulationParams.default
  = Boid.mk (Boid.position loneBoid) (Boid.velocity loneBoid) (Vector2D.mk 0 0)
      (Boid.animal loneBoid).
Proof.
  apply Boid_flock_alone. constructor; [| constructor].
  rewrite farBoid_distance. cbn. lra.
Defined.

Lemma Boid_flock_bounded_witness :
  Vector2D.magnitude
    (Boid.acceleration (Boid.flock loneBoid [farBoid] SimulationParams.default))
  <= (Rabs (SimulationParams.alignmentImpact SimulationParams.default)
      + Rabs (SimulationParams.cohesionImpact SimulationParams.default)
      + Rabs (SimulationParams.avoidanceImpact SimulationParams.default))
     * Rabs (SimulationParams.maxAcceleration SimulationParams.default).
Proof.
  assert (Hne : Forall
                  (fun boid => Boid.position boid <> Boid.position loneBoid)
                  [farBoid]).
  { constructor; [| constructor]. cbn. intros H. injection H as H. lra. }
  destruct (Boid_flock_bounded loneBoid [farBoid] SimulationParams.default Hne)
    as (_ & _ & _ & H4 & _).
  exact H4.
Defined.

Lemma RipplesManager_removePoint_once_witness :
  RipplesManager.removePoint
    (RipplesManager.removePoint (RipplesManager.new 10 600) 0) 0
  = RipplesManager.removePoint (RipplesManager.new 10 600) 0.
Proof.
  destruct (RipplesManager_removePoint_once (RipplesManager.new 10 600) 0
              (new_reachable 10 600)) as (H1 & _).
  exact H1.
Defined.

Lemma RipplesManager_addPoint_expires_witness :
  RipplesManager.getPoints
    (RipplesManager.addPoint (RipplesManager.new 10 600) Vector2D.Zero 0)
  = RipplesManager.getPoints (RipplesManager.new 10 600) ++ [Vector2D.Zero]
  /\ RipplesManager.points
       (RipplesManager.removePoint
          (RipplesManager.addPoint (RipplesManager.new 10 600) Vector2D.Zero 0)
          (RipplesManager.nextIdent (RipplesManager.new 10 600)))
     = RipplesManager.points (RipplesManager.new 10 600).
Proof.
  assert (Hlen : (length (RipplesManager.points (RipplesManager.new 10 600))
                  < RipplesManager.maxRipples (RipplesManager.new 10 600))%nat)
    by (cbn; lia).
  destruct (RipplesManager_addPoint_expires (RipplesManager.new 10 600)
              Vector2D.Zero 0 (new_reachable 10 600) Hlen) as (H1 & _ & H3).
  split; [exact H1 | exact H3].
Defined.
